(** * obsidian-github-readme-sync: the reconciliation engine

    A shallow embedding of [src/linkRewrite.ts] (the content annotation
    codec), of the remote API of [src/github.ts], of the reconciler,
    pruning and cleanup passes of [src/main.ts] and of the manual
    repositories of [src/settings.ts], together with the properties the
    specification states about them and further properties of the code.

    JavaScript strings are sequences of UTF-16 code units; a string is
    modelled as the list of its code units, indices are integers ([Z]),
    and [-1] is the answer of a failed search, as in the source. *)

From stdpp Require Import base numbers option list strings gmap.

Abbreviation jsstring := (list N).

(** ** JavaScript string primitives *)

Module JS.

(** The code units of an ASCII literal. *)
Definition lit (s : string) : jsstring :=
  (fun a => Ascii.N_of_ascii a) <$> String.list_ascii_of_string s.

Definition LF : N := 10.

Fixpoint isPrefix (p s : jsstring) {struct p} : bool :=
  match p, s with
  | [], _ => true
  | _ :: _, [] => false
  | c :: p', d :: s' => (c =? d)%N && isPrefix p' s'
  end.

(** [s.startsWith(p)] and [s.endsWith(p)]. *)
Definition startsWith (s p : jsstring) : bool := isPrefix p s.
Definition endsWith (s p : jsstring) : bool := isPrefix (rev p) (rev s).

(** Offset of the first occurrence of [p] in [s]. *)
Fixpoint find_sub (p s : jsstring) {struct s} : option nat :=
  if isPrefix p s then Some 0
  else match s with
       | [] => None
       | _ :: s' => S <$> find_sub p s'
       end.

(** An index argument is clamped to [0 .. length s]. *)
Definition clampIndex (s : jsstring) (i : Z) : nat :=
  Z.to_nat (Z.min (Z.max i 0) (Z.of_nat (length s))).

(** [s.indexOf(p)] and [s.indexOf(p, from)]. *)
Definition indexOf (s p : jsstring) : Z :=
  match find_sub p s with
  | Some n => Z.of_nat n
  | None => (-1)%Z
  end.

Definition indexOfFrom (s p : jsstring) (from : Z) : Z :=
  let f := clampIndex s from in
  match find_sub p (drop f s) with
  | Some n => Z.of_nat (f + n)
  | None => (-1)%Z
  end.

(** [s.includes(p)]. *)
Definition includes (s p : jsstring) : bool :=
  match find_sub p s with Some _ => true | None => false end.

(** [s.lastIndexOf(c)] for a one-unit pattern. *)
Definition lastIndexOf (s : jsstring) (c : N) : Z :=
  match find_sub [c] (rev s) with
  | Some n => Z.of_nat (length s - 1 - n)
  | None => (-1)%Z
  end.

(** [s.substring(a, b)]: both ends clamped, and swapped when [a > b]. *)
Definition substring (s : jsstring) (a b : Z) : jsstring :=
  let a' := clampIndex s a in
  let b' := clampIndex s b in
  take (Nat.max a' b' - Nat.min a' b') (drop (Nat.min a' b') s).

(** [s.substring(a)]. *)
Definition substringFrom (s : jsstring) (a : Z) : jsstring :=
  drop (clampIndex s a) s.

(** [s.split(sep)] for a one-unit separator; never the empty array. *)
Fixpoint split (s : jsstring) (sep : N) : list jsstring :=
  match s with
  | [] => [[]]
  | c :: s' =>
      if (c =? sep)%N then [] :: split s' sep
      else match split s' sep with
           | [] => [[c]]
           | w :: ws => (c :: w) :: ws
           end
  end.

(** [parts.join(sep)]. *)
Fixpoint join (parts : list jsstring) (sep : jsstring) : jsstring :=
  match parts with
  | [] => []
  | [p] => p
  | p :: ps => p ++ sep ++ join ps sep
  end.

(** ECMAScript WhiteSpace and LineTerminator code units, what [trim]
    removes. *)
Definition isLineTerminator (c : N) : bool :=
  (c =? 10)%N || (c =? 13)%N || (c =? 8232)%N || (c =? 8233)%N.

Definition isWhiteSpace (c : N) : bool :=
  isLineTerminator c
  || (c =? 9)%N || (c =? 11)%N || (c =? 12)%N || (c =? 32)%N
  || (c =? 160)%N || (c =? 5760)%N
  || ((8192 <=? c)%N && (c <=? 8202)%N)
  || (c =? 8239)%N || (c =? 8287)%N || (c =? 12288)%N || (c =? 65279)%N.

Fixpoint trimStart (s : jsstring) : jsstring :=
  match s with
  | [] => []
  | c :: s' => if isWhiteSpace c then trimStart s' else s
  end.

Definition trimEnd (s : jsstring) : jsstring := rev (trimStart (rev s)).
Definition trim (s : jsstring) : jsstring := trimEnd (trimStart s).

(** Truthiness of a string: the empty string is falsy. *)
Definition truthy (s : jsstring) : bool :=
  match s with [] => false | _ => true end.

End JS.

Import JS.

(** ** The content annotation codec ([src/linkRewrite.ts]) *)

Record FileMetadata := {
  owner : jsstring;
  repo : jsstring;
  branch : jsstring;
  path : jsstring;
  githubUrl : jsstring
}.

(** ["---\n"], ["\n---\n"] and the constant text of the blocks. *)
Definition FM_OPEN : jsstring := Eval cbv in lit "---" ++ [LF].
Definition FM_CLOSE : jsstring := Eval cbv in LF :: lit "---" ++ [LF].
Definition BANNER_MARKER : jsstring := Eval cbv in lit "> [!WARNING] Read-Only".
Definition BLANK : jsstring := [LF; LF].
Definition K_REPO : jsstring := Eval cbv in lit "github_repo".
Definition K_PATH : jsstring := Eval cbv in lit "github_path".
Definition K_URL : jsstring := Eval cbv in lit "github_url".
Definition SLASH : N := 47.
Definition COLON : N := 58.
Definition DOT : N := 46.

(** The header template; [now] is [new Date().toISOString()]. *)
Definition frontmatterBlock (m : FileMetadata) (now : jsstring) : jsstring :=
  FM_OPEN
  ++ lit "github_repo: " ++ owner m ++ [SLASH] ++ repo m ++ [LF]
  ++ lit "github_path: " ++ path m ++ [LF]
  ++ lit "github_url: " ++ githubUrl m ++ [LF]
  ++ lit "synced_at: " ++ now ++ [LF]
  ++ lit "readonly: true" ++ [LF]
  ++ lit "---" ++ [LF]
  ++ [LF].

Definition addFrontmatterIfMissing (content : jsstring) (m : FileMetadata)
    (now : jsstring) : jsstring :=
  if startsWith content FM_OPEN then content
  else frontmatterBlock m now ++ content.

Definition bannerBlock (m : FileMetadata) : jsstring :=
  BANNER_MARKER ++ [LF]
  ++ lit "> This file is synced from GitHub. Any local changes will be overwritten."
  ++ [LF]
  ++ lit "> View source: [" ++ owner m ++ [SLASH] ++ repo m ++ lit "]("
  ++ githubUrl m ++ lit ")" ++ [LF]
  ++ [LF].

Definition addReadonlyBanner (content : jsstring) (m : FileMetadata) : jsstring :=
  let banner := bannerBlock m in
  if startsWith content FM_OPEN then
    let frontmatterEnd := (indexOf content FM_CLOSE + 5)%Z in
    let frontmatter := substring content 0 frontmatterEnd in
    let remainingContent := substringFrom content frontmatterEnd in
    if includes remainingContent BANNER_MARKER then content
    else frontmatter ++ banner ++ remainingContent
  else if includes content BANNER_MARKER then content
  else banner ++ content.

(** The regular expression [/^← \[\[.*?\]\]\n\n/]: the literal opening,
    then as few non-line-terminator units as possible up to the first
    ["]]\n\n"]. The result is the length of the match. *)
Definition BACKLINK_OPEN : jsstring := [8592; 32; 91; 91]%N.
Definition BACKLINK_CLOSE : jsstring := [93; 93; 10; 10]%N.

Fixpoint lazyDotsThen (close s : jsstring) {struct s} : option nat :=
  if isPrefix close s then Some (length close)
  else match s with
       | [] => None
       | c :: s' =>
           if isLineTerminator c then None else S <$> lazyDotsThen close s'
       end.

Definition matchBacklink (s : jsstring) : option nat :=
  if isPrefix BACKLINK_OPEN s
  then (fun n => length BACKLINK_OPEN + n) <$>
         lazyDotsThen BACKLINK_CLOSE (drop (length BACKLINK_OPEN) s)
  else None.

Definition backlinkLine (backLinkTarget : jsstring) : jsstring :=
  [8592; 32; 91; 91]%N ++ backLinkTarget ++ [93; 93; 10; 10]%N.

Definition addBacklink (content backLinkTarget : jsstring) : jsstring :=
  let backlink := backlinkLine backLinkTarget in
  let insertPosition :=
    if startsWith content FM_OPEN then
      let frontmatterEnd := indexOf content FM_CLOSE in
      if (frontmatterEnd =? -1)%Z then 0%Z else (frontmatterEnd + 5)%Z
    else 0%Z in
  let remainingContent := substringFrom content insertPosition in
  let insertPosition :=
    if startsWith remainingContent BANNER_MARKER then
      let bannerEnd := indexOf remainingContent BLANK in
      if (bannerEnd =? -1)%Z then insertPosition
      else (insertPosition + (bannerEnd + 2))%Z
    else insertPosition in
  let checkContent := substringFrom content insertPosition in
  match matchBacklink checkContent with
  | Some _ => content
  | None =>
      substring content 0 insertPosition ++ backlink
      ++ substringFrom content insertPosition
  end.

Record ProcessOptions := {
  optAddFrontmatter : bool;
  optAddReadonlyBanner : bool;
  optAddBacklinks : bool;
  optBacklinkTarget : option jsstring
}.

Definition processFileContent (content : jsstring) (m : FileMetadata)
    (options : ProcessOptions) (now : jsstring) : jsstring :=
  let processedContent := content in
  let processedContent :=
    if optAddFrontmatter options
    then addFrontmatterIfMissing processedContent m now
    else processedContent in
  let processedContent :=
    if optAddReadonlyBanner options
    then addReadonlyBanner processedContent m
    else processedContent in
  match optAddBacklinks options, optBacklinkTarget options with
  | true, Some target =>
      if truthy target then addBacklink processedContent target
      else processedContent
  | _, _ => processedContent
  end.

Definition stripSyncedContent (content : jsstring) : jsstring :=
  let strippedContent := content in
  let strippedContent :=
    if startsWith strippedContent FM_OPEN then
      let frontmatterEnd := indexOf strippedContent FM_CLOSE in
      if (frontmatterEnd =? -1)%Z then strippedContent
      else
        let frontmatter := substring strippedContent 4 frontmatterEnd in
        if includes frontmatter (K_REPO ++ [COLON])
        then substringFrom strippedContent (frontmatterEnd + 5)
        else strippedContent
    else strippedContent in
  let bannerStart := indexOf strippedContent BANNER_MARKER in
  let strippedContent :=
    if (bannerStart =? -1)%Z then strippedContent
    else
      let bannerEnd := indexOfFrom strippedContent BLANK bannerStart in
      if (bannerEnd =? -1)%Z then strippedContent
      else substring strippedContent 0 bannerStart
           ++ substringFrom strippedContent (bannerEnd + 2) in
  let strippedContent :=
    match matchBacklink strippedContent with
    | Some n => drop n strippedContent
    | None => strippedContent
    end in
  trimStart strippedContent.

(** One iteration of the [for (const line of lines)] loop: the state is
    [(githubRepo, githubPath, githubUrl)]. *)
Definition scanLine (acc : jsstring * jsstring * jsstring) (line : jsstring)
    : jsstring * jsstring * jsstring :=
  let '(githubRepo, githubPath, githubUrl) := acc in
  match split line COLON with
  | [] => acc
  | key :: valueParts =>
      let value := trim (join valueParts [COLON]) in
      let k := trim key in
      if bool_decide (k = K_REPO) then (value, githubPath, githubUrl)
      else if bool_decide (k = K_PATH) then (githubRepo, value, githubUrl)
      else if bool_decide (k = K_URL) then (githubRepo, githubPath, value)
      else acc
  end.

(** [urlParts.findIndex(part => part === 'blob')]. *)
Fixpoint findIndex (P : jsstring -> bool) (l : list jsstring) : Z :=
  match l with
  | [] => (-1)%Z
  | x :: l' =>
      if P x then 0%Z
      else let i := findIndex P l' in
           if (i =? -1)%Z then (-1)%Z else (i + 1)%Z
  end.

Definition extractGitHubMetadata (content : jsstring) : option FileMetadata :=
  if negb (startsWith content FM_OPEN) then None
  else
    let frontmatterEnd := indexOf content FM_CLOSE in
    if (frontmatterEnd =? -1)%Z then None
    else
      let frontmatter := substring content 4 frontmatterEnd in
      let lines := split frontmatter LF in
      let '(githubRepo, githubPath, githubUrl) :=
        foldl scanLine ([], [], []) lines in
      if negb (truthy githubRepo) || negb (truthy githubPath)
         || negb (truthy githubUrl)
      then None
      else
        match split githubRepo SLASH with
        | owner :: repo :: _ =>
            if negb (truthy owner) || negb (truthy repo) then None
            else
              let urlParts := split githubUrl SLASH in
              let blobIndex :=
                findIndex (fun part => bool_decide (part = lit "blob")) urlParts in
              let branch :=
                if (blobIndex =? -1)%Z then lit "main"
                else match urlParts !! Z.to_nat (blobIndex + 1) with
                     | Some b => if truthy b then b else lit "main"
                     | None => lit "main"
                     end in
              Some {| owner := owner; repo := repo; branch := branch;
                      path := githubPath; githubUrl := githubUrl |}
        | _ => None
        end.

(** ** Repository discovery ([src/github.ts]) *)

Record GitHubRepo := {
  name : jsstring;
  full_name : jsstring;
  owner_login : jsstring;
  default_branch : jsstring;
  private : bool;
  fork : bool;
  archived : bool;
  clone_url : jsstring
}.

Inductive TreeItemType := blob | tree.

Record GitHubTreeItem := {
  item_path : jsstring;
  item_mode : jsstring;
  item_type : TreeItemType;
  item_sha : jsstring;
  item_size : option N;
  item_url : jsstring
}.

Inductive BlobEncoding := base64 | utf8.

Record GitHubBlob := {
  blob_sha : jsstring;
  blob_content : jsstring;
  blob_encoding : BlobEncoding;
  blob_size : N
}.

(** The result of an [async] call that may throw. *)
Inductive Result (A : Type) :=
| Ok (a : A)
| Throw.
Arguments Ok {A} a.
Arguments Throw {A}.

Definition perPage : nat := 100.

(** The [while (true)] loop of [getUserRepos]. [request page] is the
    answer of the listing endpoint for that page ([Throw] when the
    request fails). The loop runs on [fuel]; it yields the outcome and
    the pages requested, in order, or [None] when the fuel runs out
    before the loop exits. *)
Fixpoint getUserRepos_loop (request : nat -> Result (list GitHubRepo))
    (fuel : nat) (page : nat) (repos : list GitHubRepo) (asked : list nat)
    : option (Result (list GitHubRepo) * list nat) :=
  match fuel with
  | 0 => None
  | S fuel' =>
      match request page with
      | Throw => Some (Throw, asked ++ [page])
      | Ok pageRepos =>
          if length pageRepos =? 0 then Some (Ok repos, asked ++ [page])
          else
            let repos := repos ++ pageRepos in
            if length pageRepos <? perPage
            then Some (Ok repos, asked ++ [page])
            else getUserRepos_loop request fuel' (page + 1) repos
                   (asked ++ [page])
      end
  end.

Definition getUserRepos (request : nat -> Result (list GitHubRepo))
    (fuel : nat) : option (Result (list GitHubRepo) * list nat) :=
  getUserRepos_loop request fuel 1 [] [].

Definition isMarkdownFile (path : jsstring) : bool :=
  endsWith path (lit ".md") || endsWith path (lit ".mdx").

Definition mediaExtensions : list jsstring :=
  Eval cbv in
    lit <$> [".png"; ".jpg"; ".jpeg"; ".gif"; ".svg"; ".webp"; ".bmp"; ".ico";
             ".mp4"; ".mov"; ".avi"; ".webm"; ".mp3"; ".wav"; ".pdf"]%string.

(** [toLowerCase] is the host's Unicode case mapping. *)
Definition isMediaFile (toLowerCase : jsstring -> jsstring) (path : jsstring)
    : bool :=
  let ext := substringFrom (toLowerCase path) (lastIndexOf path DOT) in
  bool_decide (ext ∈ mediaExtensions).

Definition buildFileUrl (owner repo path branch : jsstring) : jsstring :=
  lit "https://github.com/" ++ owner ++ [SLASH] ++ repo ++ lit "/blob/"
  ++ branch ++ [SLASH] ++ path.

(** ** Settings ([src/settings.ts]) *)

Record AutoDefaults := {
  includePrivate : bool;
  includeForks : bool;
  includeArchived : bool;
  repoGlob : jsstring
}.

Record Settings := {
  autoDefaults : AutoDefaults;
  addFrontmatter : bool;
  addReadonlyBanner_ : bool;
  addBacklinks : bool;
  pruneExtraneousFiles_ : bool;
  baseFolder : jsstring;
  syncMediaFiles : bool;
  lastSyncedRepos : list jsstring
}.

Record RepoConfig := {
  cfg_owner : jsstring;
  cfg_repo : jsstring;
  cfg_branch : jsstring
}.

(** ** Pure parts of the orchestrator ([src/main.ts]) *)

(** [isMatch] is [micromatch.isMatch]. *)
Definition filterRepositories (isMatch : jsstring -> jsstring -> bool)
    (repos : list GitHubRepo) (filters : AutoDefaults) : list GitHubRepo :=
  List.filter (fun repo =>
    if negb (includePrivate filters) && private repo then false
    else if negb (includeArchived filters) && archived repo then false
    else if negb (includeForks filters) && fork repo then false
    else if truthy (repoGlob filters)
            && negb (bool_decide (repoGlob filters = lit "*"))
    then (if negb (isMatch (name repo) (repoGlob filters)) then false else true)
    else true) repos.

(** Modelled from the spec: the glob matcher is the external micromatch
    library; the spec describes the glob as "a [*] wildcard pattern". A
    star stands for any run of units, every other unit for itself. *)
Fixpoint wildcard (pattern : jsstring) (s : jsstring) {struct pattern}
    : bool :=
  match pattern with
  | [] => match s with [] => true | _ => false end
  | c :: pattern' =>
      if (c =? 42)%N then
        (fix star (t : jsstring) : bool :=
           wildcard pattern' t
           || match t with [] => false | _ :: t' => star t' end) s
      else match s with
           | [] => false
           | d :: s' => (c =? d)%N && wildcard pattern' s'
           end
  end.

(** [isMatch(str, pattern)]. *)
Definition wildcardMatch (str pattern : jsstring) : bool :=
  wildcard pattern str.

Definition getLocalFilePath (baseFolderPath githubPath : jsstring) : jsstring :=
  baseFolderPath ++ [SLASH] ++ githubPath.

Definition calculateBacklinkTarget (settings : Settings)
    (baseFolderPath filePath : jsstring) : jsstring :=
  let pathParts := split filePath SLASH in
  (* pathParts.pop() removes the file name *)
  let pathParts := removelast pathParts in
  if length pathParts =? 0 then baseFolder settings
  else
    let pathParts := removelast pathParts in
    if length pathParts =? 0 then baseFolderPath ++ lit "/README"
    else baseFolderPath ++ [SLASH] ++ join pathParts [SLASH] ++ lit "/README".

(** ** The vault (Obsidian's file tree, the local store)

    A vault is the list of the root folder's children. An abstract file
    is addressed by its path, the names from the root joined by ["/"]. *)

#[local] Unset Elimination Schemes.
Inductive TAbstractFile :=
| TFile (name : jsstring) (data : jsstring)
| TFolder (name : jsstring) (children : list TAbstractFile).
#[local] Set Elimination Schemes.

Definition fileName (f : TAbstractFile) : jsstring :=
  match f with TFile n _ => n | TFolder n _ => n end.

Definition findChild (n : jsstring) (children : list TAbstractFile)
    : option TAbstractFile :=
  List.find (fun c => bool_decide (fileName c = n)) children.

Fixpoint lookupSegs (segs : list jsstring) (children : list TAbstractFile)
    : option TAbstractFile :=
  match segs with
  | [] => None
  | n :: rest =>
      match findChild n children with
      | None => None
      | Some node =>
          match rest with
          | [] => Some node
          | _ :: _ =>
              match node with
              | TFolder _ ch => lookupSegs rest ch
              | TFile _ _ => None
              end
          end
      end
  end.

(** Apply [f] to the children of the folder at [segs] ([[]] is the root). *)
Fixpoint alterChildren (segs : list jsstring)
    (f : list TAbstractFile -> list TAbstractFile)
    (children : list TAbstractFile) : list TAbstractFile :=
  match segs with
  | [] => f children
  | n :: rest =>
      List.map (fun c =>
        match c with
        | TFolder n' ch =>
            if bool_decide (n' = n) then TFolder n' (alterChildren rest f ch)
            else c
        | TFile _ _ => c
        end) children
  end.

Inductive VaultOp :=
| OpCreate (path data : jsstring)
| OpModify (path data : jsstring)
| OpCreateBinary (path : jsstring) (bytes : list N)
| OpModifyBinary (path : jsstring) (bytes : list N)
| OpCreateFolder (path : jsstring)
| OpDelete (path : jsstring).

Record World := {
  vault : list TAbstractFile;
  oplog : list VaultOp
}.

(** Computations over the vault that may throw; the state survives a
    throw, as it does in a [try]/[catch]. *)
Record M (A : Type) := mkM { run : World -> Result A * World }.
Arguments mkM {A} run.
Arguments run {A} m w.

#[global] Instance M_ret : MRet M := fun A a => mkM (fun w => (Ok a, w)).
#[global] Instance M_bind : MBind M := fun A B k m =>
  mkM (fun w =>
    match run m w with
    | (Ok a, w') => run (k a) w'
    | (Throw, w') => (Throw, w')
    end).

Definition throw {A} : M A := mkM (fun w => (Throw, w)).

(** [try { m } catch { }]: [Some] the value, [None] when [m] threw. *)
Definition tryCatch {A} (m : M A) : M (option A) :=
  mkM (fun w =>
    match run m w with
    | (Ok a, w') => (Ok (Some a), w')
    | (Throw, w') => (Ok None, w')
    end).

(** An awaited call of the remote API. *)
Definition await {A} (r : Result A) : M A :=
  match r with Ok a => mret a | Throw => throw end.

Definition getVault : M (list TAbstractFile) := mkM (fun w => (Ok (vault w), w)).

Definition putVault (v : list TAbstractFile) (op : list VaultOp) : M unit :=
  mkM (fun w => (Ok tt, {| vault := v; oplog := oplog w ++ op |})).

Definition getAbstractFileByPath (path : jsstring) : M (option TAbstractFile) :=
  v ← getVault; mret (lookupSegs (split path SLASH) v).

Definition parentSegs (path : jsstring) : list jsstring :=
  removelast (split path SLASH).
Definition leafName (path : jsstring) : jsstring :=
  List.last (split path SLASH) [].

(** The folder at [segs], as its children. *)
Definition folderAt (segs : list jsstring) (v : list TAbstractFile)
    : option (list TAbstractFile) :=
  match segs with
  | [] => Some v
  | _ :: _ =>
      match lookupSegs segs v with
      | Some (TFolder _ ch) => Some ch
      | _ => None
      end
  end.

(** [vault.create] / [vault.createBinary] / [vault.createFolder]: the
    path must be free and its parent an existing folder. *)
Definition vault_add (path : jsstring) (node : TAbstractFile) (op : VaultOp)
    : M unit :=
  v ← getVault;
  match lookupSegs (split path SLASH) v, folderAt (parentSegs path) v with
  | None, Some _ =>
      putVault (alterChildren (parentSegs path) (fun ch => ch ++ [node]) v) [op]
  | _, _ => throw
  end.

Definition vault_create (path data : jsstring) : M unit :=
  vault_add path (TFile (leafName path) data) (OpCreate path data).
Definition vault_createBinary (path : jsstring) (bytes : list N) : M unit :=
  vault_add path (TFile (leafName path) bytes) (OpCreateBinary path bytes).
Definition vault_createFolder (path : jsstring) : M unit :=
  vault_add path (TFolder (leafName path) []) (OpCreateFolder path).

Definition setData (n data : jsstring) (c : TAbstractFile) : TAbstractFile :=
  match c with
  | TFile n' _ => if bool_decide (n' = n) then TFile n' data else c
  | TFolder _ _ => c
  end.

(** [vault.modify] / [vault.modifyBinary]: the path must be a file. *)
Definition vault_write (path data : jsstring) (op : VaultOp) : M unit :=
  v ← getVault;
  match lookupSegs (split path SLASH) v with
  | Some (TFile _ _) =>
      putVault (alterChildren (parentSegs path)
                  (List.map (setData (leafName path) data)) v) [op]
  | _ => throw
  end.

Definition vault_modify (path data : jsstring) : M unit :=
  vault_write path data (OpModify path data).
Definition vault_modifyBinary (path : jsstring) (bytes : list N) : M unit :=
  vault_write path bytes (OpModifyBinary path bytes).

Definition removeChild (n : jsstring) (children : list TAbstractFile)
    : list TAbstractFile :=
  List.filter (fun c => negb (bool_decide (fileName c = n))) children.

(** [vault.delete]. *)
Definition vault_delete (path : jsstring) : M unit :=
  v ← getVault;
  match lookupSegs (split path SLASH) v with
  | Some _ =>
      putVault (alterChildren (parentSegs path) (removeChild (leafName path)) v)
        [OpDelete path]
  | None => throw
  end.

(** [vault.read]. *)
Definition vault_read (path : jsstring) : M jsstring :=
  v ← getVault;
  match lookupSegs (split path SLASH) v with
  | Some (TFile _ data) => mret data
  | _ => throw
  end.

(** ** The reconciler, the pruning pass and the cleanup pass
       ([src/main.ts]) *)

Section Plugin.

(** The collaborators: the host's case mapping and base64 decoder, the
    remote API (a call that fails is [Throw]) and the clock read while a
    file is processed ([new Date().toISOString()]). *)
Variable toLowerCase : jsstring -> jsstring.
Variable atob : jsstring -> Result jsstring.
Variable getBranchSHA : jsstring -> jsstring -> jsstring -> Result jsstring.
Variable getTree : jsstring -> jsstring -> jsstring -> Result (list GitHubTreeItem).
Variable getBlob : jsstring -> jsstring -> jsstring -> Result GitHubBlob.
Variable dateNow : jsstring -> jsstring -> GitHubTreeItem -> jsstring.

Variable settings : Settings.

Definition getAllSyncableFiles (owner repo branch : jsstring)
    (includeMedia : bool) : Result (list GitHubTreeItem) :=
  match getBranchSHA owner repo branch with
  | Throw => Throw
  | Ok branchSHA =>
      match getTree owner repo branchSHA with
      | Throw => Throw
      | Ok items =>
          Ok (List.filter (fun item =>
                match item_type item with
                | tree => false
                | blob =>
                    if endsWith (item_path item) (lit ".md")
                       || endsWith (item_path item) (lit ".mdx")
                    then true
                    else if includeMedia
                            && isMediaFile toLowerCase (item_path item)
                    then true
                    else false
                end) items)
      end
  end.

(** Text for a Markdown file ([inl]), an [ArrayBuffer] for media ([inr]). *)
Definition getFileContent (owner repo : jsstring) (item : GitHubTreeItem)
    : Result (jsstring + list N) :=
  match getBlob owner repo (item_sha item) with
  | Throw => Throw
  | Ok b =>
      match blob_encoding b with
      | base64 =>
          if isMediaFile toLowerCase (item_path item) then
            match atob (blob_content b) with
            | Ok binaryString => Ok (inr binaryString)
            | Throw => Throw
            end
          else
            match atob (blob_content b) with
            | Ok text => Ok (inl text)
            | Throw => Throw
            end
      | utf8 => Ok (inl (blob_content b))
      end
  end.

(** The [for (const folder of folders)] loop; the state is [currentPath]. *)
Fixpoint ensureFolderExists_loop (folders : list jsstring)
    (currentPath : jsstring) : M unit :=
  match folders with
  | [] => mret tt
  | folder :: rest =>
      if negb (truthy folder) then ensureFolderExists_loop rest currentPath
      else
        let currentPath :=
          if truthy currentPath then currentPath ++ [SLASH] ++ folder
          else folder in
        existingFolder ← getAbstractFileByPath currentPath;
        match existingFolder with
        | Some _ => mret tt
        | None => vault_createFolder currentPath
        end;;
        ensureFolderExists_loop rest currentPath
  end.

Definition ensureFolderExists (path : jsstring) : M unit :=
  ensureFolderExists_loop (split path SLASH) [].

Definition syncFile (owner repo branch : jsstring) (fileItem : GitHubTreeItem)
    (baseFolderPath : jsstring) : M unit :=
  content ← await (getFileContent owner repo fileItem);
  let localFilePath := getLocalFilePath baseFolderPath (item_path fileItem) in
  let parentPath :=
    substring localFilePath 0 (lastIndexOf localFilePath SLASH) in
  ensureFolderExists parentPath;;
  match content with
  | inr bytes =>
      existingFile ← getAbstractFileByPath localFilePath;
      match existingFile with
      | Some _ => vault_modifyBinary localFilePath bytes
      | None => vault_createBinary localFilePath bytes
      end
  | inl content =>
      let metadata :=
        {| owner := owner; repo := repo; branch := branch;
           path := item_path fileItem;
           githubUrl := buildFileUrl owner repo (item_path fileItem) branch |} in
      let backlinkTarget :=
        if addBacklinks settings
        then Some (calculateBacklinkTarget settings baseFolderPath
                     (item_path fileItem))
        else None in
      let processedContent :=
        processFileContent content metadata
          {| optAddFrontmatter := addFrontmatter settings;
             optAddReadonlyBanner := addReadonlyBanner_ settings;
             optAddBacklinks := addBacklinks settings;
             optBacklinkTarget := backlinkTarget |}
          (dateNow owner repo fileItem) in
      existingFile ← getAbstractFileByPath localFilePath;
      shouldUpdate ←
        match existingFile with
        | Some (TFile _ _) =>
            existingContent ← vault_read localFilePath;
            mret (negb (bool_decide (processedContent = existingContent)))
        | _ => mret true
        end;
      if shouldUpdate : bool then
        match existingFile with
        | Some _ => vault_modify localFilePath processedContent
        | None => vault_create localFilePath processedContent
        end
      else mret tt
  end.

(** One folder of the pruning walk: what is left of its children. The
    path of a child is its folder's path, ["/"], its name. *)
Definition pruneFile (syncedFiles : gset jsstring) (childPath data : jsstring)
    : bool :=
  if negb (bool_decide (childPath ∈ syncedFiles)) then
    let isMarkdown :=
      endsWith childPath (lit ".md") || endsWith childPath (lit ".mdx") in
    let isMedia := isMediaFile toLowerCase childPath in
    if isMarkdown then
      match extractGitHubMetadata data with
      | Some _ => true
      | None => false
      end
    else if isMedia then
      let pathParts := split childPath SLASH in
      (3 <=? length pathParts)
      && bool_decide (pathParts !! 0 = Some (baseFolder settings))
    else false
  else false.

Fixpoint pruneFolder (folder : TAbstractFile) (folderPath : jsstring)
    (syncedFiles : gset jsstring) : list TAbstractFile :=
  match folder with
  | TFile _ _ => []
  | TFolder _ children =>
      List.flat_map (fun child =>
        match child with
        | TFile n data =>
            if pruneFile syncedFiles (folderPath ++ [SLASH] ++ n) data
            then [] else [child]
        | TFolder n _ =>
            match pruneFolder child (folderPath ++ [SLASH] ++ n) syncedFiles with
            | [] => []
            | c :: cs => [TFolder n (c :: cs)]
            end
        end) children
  end.

(** The deletions of the walk, in the order the source issues them: the
    files of the folder, then each subfolder's own, then the subfolder
    when it was left empty. *)
Fixpoint pruneFolder_ops (folder : TAbstractFile) (folderPath : jsstring)
    (syncedFiles : gset jsstring) : list VaultOp :=
  match folder with
  | TFile _ _ => []
  | TFolder _ children =>
      List.flat_map (fun child =>
        match child with
        | TFile n data =>
            if pruneFile syncedFiles (folderPath ++ [SLASH] ++ n) data
            then [OpDelete (folderPath ++ [SLASH] ++ n)] else []
        | TFolder _ _ => []
        end) children
      ++ List.flat_map (fun child =>
        match child with
        | TFile _ _ => []
        | TFolder n _ =>
            pruneFolder_ops child (folderPath ++ [SLASH] ++ n) syncedFiles
            ++ match pruneFolder child (folderPath ++ [SLASH] ++ n) syncedFiles with
               | [] => [OpDelete (folderPath ++ [SLASH] ++ n)]
               | _ :: _ => []
               end
        end) children
  end.

Definition pruneExtraneousFiles (baseFolderPath : jsstring)
    (syncedFiles : gset jsstring) : M unit :=
  baseFolder ← getAbstractFileByPath baseFolderPath;
  match baseFolder with
  | Some (TFolder n ch) =>
      v ← getVault;
      putVault
        (alterChildren (split baseFolderPath SLASH)
           (fun ch => pruneFolder (TFolder n ch) baseFolderPath syncedFiles) v)
        (pruneFolder_ops (TFolder n ch) baseFolderPath syncedFiles)
  | _ => mret tt
  end.

(** The [for (const fileItem of syncableFiles)] loop with its [try]. *)
Fixpoint syncFiles_loop (owner repo branch : jsstring)
    (syncableFiles : list GitHubTreeItem) (baseFolderPath : jsstring)
    (syncedFiles : gset jsstring) : M (gset jsstring) :=
  match syncableFiles with
  | [] => mret syncedFiles
  | fileItem :: rest =>
      r ← tryCatch (syncFile owner repo branch fileItem baseFolderPath);
      let syncedFiles :=
        match r with
        | Some _ =>
            {[ getLocalFilePath baseFolderPath (item_path fileItem) ]}
            ∪ syncedFiles
        | None => syncedFiles
        end in
      syncFiles_loop owner repo branch rest baseFolderPath syncedFiles
  end.

Definition syncRepository (repoConfig : RepoConfig) : M unit :=
  let owner := cfg_owner repoConfig in
  let repo := cfg_repo repoConfig in
  let branch := cfg_branch repoConfig in
  syncableFiles ←
    await (getAllSyncableFiles owner repo branch (syncMediaFiles settings));
  if length syncableFiles =? 0 then mret tt
  else
    let baseFolderPath := baseFolder settings ++ [SLASH] ++ owner ++ [SLASH] ++ repo in
    ensureFolderExists baseFolderPath;;
    syncedFiles ← syncFiles_loop owner repo branch syncableFiles baseFolderPath ∅;
    if pruneExtraneousFiles_ settings
    then pruneExtraneousFiles baseFolderPath syncedFiles
    else mret tt.

Definition scanExistingRepositories : M (list jsstring) :=
  baseFolder ← getAbstractFileByPath (baseFolder settings);
  match baseFolder with
  | Some (TFolder _ children) =>
      mret (List.flat_map (fun ownerChild =>
              match ownerChild with
              | TFile _ _ => []
              | TFolder owner ownerChildren =>
                  List.flat_map (fun repoChild =>
                    match repoChild with
                    | TFile _ _ => []
                    | TFolder repo _ => [owner ++ [SLASH] ++ repo]
                    end) ownerChildren
              end) children)
  | _ => mret []
  end.

(** [for (const child of children) { await body(child) }]. *)
Definition forEach {A} (body : A -> M unit) : list A -> M unit :=
  fix loop (l : list A) : M unit :=
    match l with
    | [] => mret tt
    | a :: l' => body a ;; loop l'
    end.

(** [recursiveDeleteFolder], call by call: the children are deleted in
    their order, a file by [vault.delete] and a folder by the function
    itself, and the folder, then empty, by [vault.delete]. (The source
    takes a [TFolder]; on a file nothing is called.) *)
Fixpoint recursiveDeleteFolder_calls (folder : TAbstractFile)
    (folderPath : jsstring) : M unit :=
  match folder with
  | TFile _ _ => mret tt
  | TFolder _ children =>
      forEach (fun child =>
        match child with
        | TFile n _ => vault_delete (folderPath ++ [SLASH] ++ n)
        | TFolder n _ =>
            recursiveDeleteFolder_calls child (folderPath ++ [SLASH] ++ n)
        end) children;;
      vault_delete folderPath
  end.

(** The deletions of [recursiveDeleteFolder], depth first. *)
Fixpoint recursiveDeleteFolder_ops (folder : TAbstractFile)
    (folderPath : jsstring) : list VaultOp :=
  match folder with
  | TFile _ _ => []
  | TFolder _ children =>
      List.flat_map (fun child =>
        match child with
        | TFile n _ => [OpDelete (folderPath ++ [SLASH] ++ n)]
        | TFolder n _ =>
            recursiveDeleteFolder_ops child (folderPath ++ [SLASH] ++ n)
        end) children
      ++ [OpDelete folderPath]
  end.

(** What these calls come to, in one step: the folder leaves its parent
    and the deletions are logged. *)
Definition recursiveDeleteFolder (folder : TAbstractFile)
    (folderPath : jsstring) : M unit :=
  v ← getVault;
  putVault
    (alterChildren (parentSegs folderPath) (removeChild (leafName folderPath)) v)
    (recursiveDeleteFolder_ops folder folderPath).

(** [removedRepoIds] as [cleanupRemovedRepositories] computes it from
    the previous baseline, the scan of the vault and the current set. *)
Definition removedRepoIds (previousRepoIds existingRepoIds currentRepoIds
    : list jsstring) : list jsstring :=
  let removed :=
    List.filter (fun repoId => negb (bool_decide (repoId ∈ currentRepoIds)))
      previousRepoIds in
  let untrackedExistingRepos :=
    List.filter (fun repoId => negb (bool_decide (repoId ∈ currentRepoIds)))
      existingRepoIds in
  if 0 <? length untrackedExistingRepos
  then removed ++ untrackedExistingRepos
  else removed.

Definition cleanupRepo (repoId : jsstring) : M unit :=
  match split repoId SLASH with
  | owner :: repo :: _ =>
      if negb (truthy owner) || negb (truthy repo) then mret tt
      else
        let repoFolderPath :=
          baseFolder settings ++ [SLASH] ++ owner ++ [SLASH] ++ repo in
        repoFolder ← getAbstractFileByPath repoFolderPath;
        match repoFolder with
        | Some (TFolder n ch) =>
            _ ← tryCatch (recursiveDeleteFolder (TFolder n ch) repoFolderPath);
            mret tt
        | _ => mret tt
        end;;
        let ownerFolderPath := baseFolder settings ++ [SLASH] ++ owner in
        ownerFolder ← getAbstractFileByPath ownerFolderPath;
        match ownerFolder with
        | Some (TFolder _ []) =>
            _ ← tryCatch (vault_delete ownerFolderPath); mret tt
        | _ => mret tt
        end
  | _ => mret tt
  end.

Fixpoint cleanup_loop (removed : list jsstring) : M unit :=
  match removed with
  | [] => mret tt
  | repoId :: rest => cleanupRepo repoId;; cleanup_loop rest
  end.

Definition cleanupRemovedRepositories (currentRepoIds : list jsstring)
    : M unit :=
  let previousRepoIds := lastSyncedRepos settings in
  existingRepoIds ← scanExistingRepositories;
  let removed := removedRepoIds previousRepoIds existingRepoIds currentRepoIds in
  if length removed =? 0 then mret tt
  else cleanup_loop removed.

Definition repoId (config : RepoConfig) : jsstring :=
  cfg_owner config ++ [SLASH] ++ cfg_repo config.

(** The [for (const repoConfig of repoConfigs)] loop; the state is
    [(syncedCount, errorCount)]. *)
Fixpoint syncAll_loop (repoConfigs : list RepoConfig) (counts : nat * nat)
    : M (nat * nat) :=
  match repoConfigs with
  | [] => mret counts
  | repoConfig :: rest =>
      r ← tryCatch (syncRepository repoConfig);
      syncAll_loop rest
        (match r with
         | Some _ => (S (fst counts), snd counts)
         | None => (fst counts, S (snd counts))
         end)
  end.

Definition withLastSyncedRepos (s : Settings) (ids : list jsstring) : Settings :=
  {| autoDefaults := autoDefaults s;
     addFrontmatter := addFrontmatter s;
     addReadonlyBanner_ := addReadonlyBanner_ s;
     addBacklinks := addBacklinks s;
     pruneExtraneousFiles_ := pruneExtraneousFiles_ s;
     baseFolder := baseFolder s;
     syncMediaFiles := syncMediaFiles s;
     lastSyncedRepos := ids |}.

(** [syncAll] once the repositories are resolved: the settings it leaves
    behind and the counts it reports. *)
Definition syncAll (repoConfigs : list RepoConfig) : M (Settings * (nat * nat)) :=
  if length repoConfigs =? 0 then mret (settings, (0, 0))
  else
    let currentRepoIds := List.map repoId repoConfigs in
    cleanupRemovedRepositories currentRepoIds;;
    counts ← syncAll_loop repoConfigs (0, 0);
    mret (withLastSyncedRepos settings currentRepoIds, counts).

End Plugin.

(** ** Notions used in the statements *)

(** The offset just past the first ["\n---\n"] of a content that begins
    with ["---\n"]: where the source cuts the header block off. *)
Definition headerEnd (content : jsstring) : option nat :=
  if startsWith content FM_OPEN
  then (fun k => k + 5) <$> find_sub FM_CLOSE content
  else None.

(** What [addReadonlyBanner] and [addBacklink] do to the text after the
    header block. *)
Definition insertBanner (rest : jsstring) (m : FileMetadata) : jsstring :=
  if includes rest BANNER_MARKER then rest else bannerBlock m ++ rest.

Definition backlinkOffset (rest : jsstring) : nat :=
  if startsWith rest BANNER_MARKER then
    match find_sub BLANK rest with Some j => j + 2 | None => 0 end
  else 0.

Definition insertBacklink (rest target : jsstring) : jsstring :=
  let off := backlinkOffset rest in
  match matchBacklink (drop off rest) with
  | Some _ => rest
  | None => take off rest ++ backlinkLine target ++ drop off rest
  end.

(** A backlink target the pattern's [.*?] can run over. *)
Definition noLineTerminator (s : jsstring) : Prop :=
  Forall (fun c => isLineTerminator c = false) s.

(** The pipeline with every toggle on. *)
Definition allOn (target : jsstring) : ProcessOptions :=
  {| optAddFrontmatter := true; optAddReadonlyBanner := true;
     optAddBacklinks := true; optBacklinkTarget := Some target |}.

(** The lines of the header block, between its two delimiters. *)
Definition headerLines (m : FileMetadata) (now : jsstring) : list jsstring :=
  [lit "github_repo: " ++ owner m ++ [SLASH] ++ repo m;
   lit "github_path: " ++ path m;
   lit "github_url: " ++ githubUrl m;
   lit "synced_at: " ++ now;
   lit "readonly: true"].

(** A text without a line feed. *)
Definition noLF (s : jsstring) : Prop := Forall (fun c => c <> LF) s.

(** Sample inputs. *)
Definition ex_meta : FileMetadata :=
  {| owner := lit "octo"; repo := lit "notes"; branch := lit "main";
     path := lit "docs/guide.md";
     githubUrl :=
       buildFileUrl (lit "octo") (lit "notes") (lit "docs/guide.md") (lit "main") |}.
Definition ex_target : jsstring := lit "Projects/octo/notes/README".
Definition ex_now1 : jsstring := lit "2025-01-15T10:30:00.000Z".
Definition ex_now2 : jsstring := lit "2025-01-16T10:30:00.000Z".

(** The lines of the banner, before its closing blank line. *)
Definition bannerLines (m : FileMetadata) : list jsstring :=
  [BANNER_MARKER;
   lit "> This file is synced from GitHub. Any local changes will be overwritten.";
   lit "> View source: [" ++ owner m ++ [SLASH] ++ repo m ++ lit "]("
     ++ githubUrl m ++ lit ")"].

Definition ex_settings : Settings :=
  {| autoDefaults :=
       {| includePrivate := false; includeForks := false;
          includeArchived := false; repoGlob := lit "*" |};
     addFrontmatter := true; addReadonlyBanner_ := true; addBacklinks := true;
     pruneExtraneousFiles_ := true; baseFolder := lit "Projects";
     syncMediaFiles := false; lastSyncedRepos := [] |}.

(** A remote file with frontmatter of its own, and one that was itself
    produced by a sync and committed to a repository. *)
Definition ex_foreign : jsstring :=
  join [lit "---"; lit "title: Guide"; lit "---"; lit "Body"] [LF].
Definition ex_reimported : jsstring :=
  join [lit "---"; lit "github_repo: someone/vault";
        lit "github_path: notes/a.md";
        lit "github_url: https://github.com/someone/vault/blob/main/notes/a.md";
        lit "---"; lit "Body"] [LF].

(** Metadata and clock reading that fit on the lines of the header. *)
Definition lineSafe (m : FileMetadata) (now : jsstring) : Prop :=
  noLF (owner m) /\ noLF (repo m) /\ noLF (path m) /\ noLF (githubUrl m)
  /\ noLF now.

(** [stripSyncedContent] after its first step: the banner, the backlink
    and the leading white space. *)
Definition stripBody (strippedContent : jsstring) : jsstring :=
  let bannerStart := indexOf strippedContent BANNER_MARKER in
  let strippedContent :=
    if (bannerStart =? -1)%Z then strippedContent
    else
      let bannerEnd := indexOfFrom strippedContent BLANK bannerStart in
      if (bannerEnd =? -1)%Z then strippedContent
      else substring strippedContent 0 bannerStart
           ++ substringFrom strippedContent (bannerEnd + 2) in
  let strippedContent :=
    match matchBacklink strippedContent with
    | Some n => drop n strippedContent
    | None => strippedContent
    end in
  trimStart strippedContent.

(** The header block up to its closing delimiter. *)
Definition headerBlock (m : FileMetadata) (now : jsstring) : jsstring :=
  FM_OPEN ++ join (headerLines m now) [LF] ++ FM_CLOSE.

(** A path segment: a text without a slash. *)
Definition noSlash (s : jsstring) : Prop := Forall (fun c => c <> SLASH) s.

(** The repositories of the filter example; the glob matches the names. *)
Definition ex_repo (n : jsstring) (priv frk : bool) : GitHubRepo :=
  {| name := n; full_name := lit "octo/" ++ n; owner_login := lit "octo";
     default_branch := lit "main"; private := priv; fork := frk;
     archived := false; clone_url := [] |}.

(** The text between the delimiters of the leading header block, as
    [extractGitHubMetadata] cuts it out, and whether one of its lines
    has the key [k]. *)
Definition frontmatterOf (content : jsstring) : jsstring :=
  substring content 4 (indexOf content FM_CLOSE).

Definition lineKey (line : jsstring) : jsstring :=
  trim (hd [] (split line COLON)).

Definition hasKey (k : jsstring) (content : jsstring) : bool :=
  existsb (fun line => bool_decide (lineKey line = k))
    (split (frontmatterOf content) LF).

(** An owner or repository name: not empty, no white space, no slash. *)
Definition token (s : jsstring) : Prop :=
  s <> [] /\ Forall (fun c => isWhiteSpace c = false /\ c <> SLASH) s.

(** Metadata the header template renders into a header that extracts
    back: names that are tokens, a path and a URL that are not blank,
    nothing with a line feed. *)
Definition provenance (m : FileMetadata) (now : jsstring) : Prop :=
  lineSafe m now /\ token (owner m) /\ token (repo m)
  /\ truthy (trim (path m)) = true /\ truthy (trim (githubUrl m)) = true.

(** [node] sits at the path [segs] below a folder with these children. *)
Fixpoint occursAt (segs : list jsstring) (node : TAbstractFile)
    (children : list TAbstractFile) : Prop :=
  match segs with
  | [] => False
  | s :: rest =>
      match rest with
      | [] => In node children /\ fileName node = s
      | _ :: _ =>
          exists chs, In (TFolder s chs) children /\ occursAt rest node chs
      end
  end.

(** What one child of a folder leaves behind in [pruneFolder]. *)
Definition pruneFolder_child (toLowerCase : jsstring -> jsstring)
    (settings : Settings) (syncedFiles : gset jsstring)
    (folderPath : jsstring) (child : TAbstractFile) : list TAbstractFile :=
  match child with
  | TFile n data =>
      if pruneFile toLowerCase settings syncedFiles
           (folderPath ++ [SLASH] ++ n) data
      then [] else [child]
  | TFolder n _ =>
      match pruneFolder toLowerCase settings child
              (folderPath ++ [SLASH] ++ n) syncedFiles with
      | [] => []
      | c :: cs => [TFolder n (c :: cs)]
      end
  end.

(** A repository folder of the sample vault: a synced README, and under
    [docs] a file synced earlier and a note of the user's. *)
Definition ex_synced (p body : string) : jsstring :=
  processFileContent (lit body)
    {| owner := lit "octo"; repo := lit "notes"; branch := lit "main";
       path := lit p;
       githubUrl := buildFileUrl (lit "octo") (lit "notes") (lit p) (lit "main") |}
    (allOn ex_target) ex_now1.

Definition ex_repoFolder : list TAbstractFile :=
  [TFile (lit "README.md") (ex_synced "README.md" "Notes");
   TFolder (lit "docs")
     [TFile (lit "old.md") (ex_synced "docs/old.md" "Old page");
      TFile (lit "mine.md") (lit "my own notes")]].

(** The sample repository [octo/notes] on the remote side: two Markdown
    files, of which only the README can be fetched, and a vault that
    holds the repository folder. *)
Definition ex_item (p sha : string) : GitHubTreeItem :=
  {| item_path := lit p; item_mode := lit "100644"; item_type := blob;
     item_sha := lit sha; item_size := None; item_url := [] |}.

Definition ex_getBlob (owner repo sha : jsstring) : Result GitHubBlob :=
  if bool_decide (sha = lit "sha-readme")
  then Ok {| blob_sha := sha; blob_content := lit "Notes";
             blob_encoding := utf8; blob_size := 5 |}
  else Throw.

Definition ex_dateNow (owner repo : jsstring) (item : GitHubTreeItem) : jsstring :=
  ex_now1.

(** What the reconciler makes of the README of the sample repository. *)
Definition ex_processed : jsstring :=
  processFileContent (lit "Notes")
    {| owner := lit "octo"; repo := lit "notes"; branch := lit "main";
       path := lit "README.md";
       githubUrl :=
         buildFileUrl (lit "octo") (lit "notes") (lit "README.md") (lit "main") |}
    {| optAddFrontmatter := true; optAddReadonlyBanner := true;
       optAddBacklinks := true;
       optBacklinkTarget :=
         Some (calculateBacklinkTarget ex_settings (lit "Projects/octo/notes")
                 (lit "README.md")) |}
    ex_now1.

Definition ex_world (readme : jsstring) : World :=
  {| vault :=
       [TFolder (lit "Projects")
          [TFolder (lit "octo")
             [TFolder (lit "notes")
                [TFile (lit "README.md") readme;
                 TFolder (lit "docs")
                   [TFile (lit "old.md") (ex_synced "docs/old.md" "Old page");
                    TFile (lit "mine.md") (lit "my own notes")]]]]];
     oplog := [] |}.

(** The vault holds the file [TFile nm data] at the path [segs]. *)
Definition holdsFile (segs : list jsstring) (nm data : jsstring) (w : World)
    : Prop :=
  lookupSegs segs (vault w) = Some (TFile nm data).

(** [m] keeps a property of the world, whether it returns or throws. *)
Definition preserves {A} (I : World -> Prop) (m : M A) : Prop :=
  forall w, I w -> I (run m w).2.

(** [f], applied to the children of a folder, leaves every folder among
    them in place, and every file whose name is not in [avoid]. *)
Definition stable (f : list TAbstractFile -> list TAbstractFile)
    (avoid : jsstring -> Prop) : Prop :=
  forall children n x,
    findChild n children = Some x ->
    match x with TFolder _ _ => True | TFile _ _ => ~ avoid n end ->
    findChild n (f children) = Some x.

(** A name of the file tree: not empty, no slash. *)
Definition wfName (n : jsstring) : Prop := n <> [] /\ noSlash n.

(** A well-formed tree: names are names, and no two children of a
    folder share one. *)
Fixpoint wfTree (t : TAbstractFile) : Prop :=
  match t with
  | TFile n _ => wfName n
  | TFolder n children =>
      wfName n /\ NoDup (List.map fileName children)
      /\ fold_right (fun c acc => wfTree c /\ acc) True children
  end.

Definition wfVault (v : list TAbstractFile) : Prop :=
  NoDup (List.map fileName v) /\ Forall wfTree v.

(** The identities [scanExistingRepositories] collects below the base
    folder: from one owner folder, from the children of the base folder,
    and from the vault down the segments of the base folder's path. *)
Definition repoIds (owner : jsstring) (ownerChildren : list TAbstractFile)
    : list jsstring :=
  List.flat_map (fun repoChild =>
    match repoChild with
    | TFile _ _ => []
    | TFolder repo _ => [owner ++ [SLASH] ++ repo]
    end) ownerChildren.

Definition scanChildren (children : list TAbstractFile) : list jsstring :=
  List.flat_map (fun ownerChild =>
    match ownerChild with
    | TFile _ _ => []
    | TFolder owner ownerChildren => repoIds owner ownerChildren
    end) children.

Fixpoint scanAt (segs : list jsstring) (children : list TAbstractFile)
    : list jsstring :=
  match segs with
  | [] => scanChildren children
  | s :: rest =>
      match findChild s children with
      | Some (TFolder _ ch) => scanAt rest ch
      | _ => []
      end
  end.

(** Every repository folder in the vault belongs to the current set. *)
Definition tracked (settings : Settings) (currentRepoIds : list jsstring)
    (w : World) : Prop :=
  forall id, In id (scanAt (split (baseFolder settings) SLASH) (vault w)) ->
             id ∈ currentRepoIds.

(** A node without children of its own. *)
Definition leafless (node : TAbstractFile) : Prop :=
  match node with TFile _ _ => True | TFolder _ ch => ch = [] end.

(** A vault that still holds the folder of a repository that is no
    longer configured, next to the folder of the sample repository. *)
Definition ex_world_stale : World :=
  {| vault :=
       [TFolder (lit "Projects")
          [TFolder (lit "octo")
             [TFolder (lit "notes") [TFile (lit "README.md") (lit "stale")]];
           TFolder (lit "gone")
             [TFolder (lit "legacy") [TFile (lit "README.md") (lit "old")]]]];
     oplog := [] |}.

(** ** The rest of the remote API ([src/github.ts]) *)

(** [getOrgRepos]: the loop of [getUserRepos], on the listing endpoint of
    an organisation. *)
Definition getOrgRepos (request : nat -> Result (list GitHubRepo))
    (fuel : nat) : option (Result (list GitHubRepo) * list nat) :=
  getUserRepos_loop request fuel 1 [] [].

Section Listing.
Variable atob : jsstring -> Result jsstring.
Variable getBranchSHA : jsstring -> jsstring -> jsstring -> Result jsstring.
Variable getTree : jsstring -> jsstring -> jsstring -> Result (list GitHubTreeItem).
Variable getBlob : jsstring -> jsstring -> jsstring -> Result GitHubBlob.

Definition getAllMarkdownFiles (owner repo branch : jsstring)
    : Result (list GitHubTreeItem) :=
  match getBranchSHA owner repo branch with
  | Throw => Throw
  | Ok branchSHA =>
      match getTree owner repo branchSHA with
      | Throw => Throw
      | Ok items =>
          Ok (List.filter (fun item =>
                match item_type item with
                | blob => endsWith (item_path item) (lit ".md")
                          || endsWith (item_path item) (lit ".mdx")
                | tree => false
                end) items)
      end
  end.

Definition getMarkdownFileContent (owner repo : jsstring)
    (item : GitHubTreeItem) : Result jsstring :=
  match getBlob owner repo (item_sha item) with
  | Throw => Throw
  | Ok b =>
      match blob_encoding b with
      | base64 => atob (blob_content b)
      | utf8 => Ok (blob_content b)
      end
  end.

End Listing.

(** ** The list of repositories to sync ([src/main.ts])

    [namespaces] and [repos] are the fields of the settings with these
    names. The listing endpoints take the namespace and the page. The
    API client is there ([discoverRepositories] is only reached from a
    [syncAll] that has one), and the [source] tag of a configuration,
    which nothing reads, is left out. *)

Record ManualRepo := {
  manual_owner : jsstring;
  manual_repo : jsstring;
  manual_branch : option jsstring
}.

Section Discovery.
Variable isMatch : jsstring -> jsstring -> bool.
Variable userRequest : jsstring -> nat -> Result (list GitHubRepo).
Variable orgRequest : jsstring -> nat -> Result (list GitHubRepo).
Variable fuel : nat.
Variable settings : Settings.

(** The two nested [try] blocks of one namespace: the repositories, or
    [None] when both listings threw ([continue]). The outer [option] is
    the fuel of the listing loops. *)
Definition namespaceRepos (namespace : jsstring)
    : option (option (list GitHubRepo)) :=
  match getUserRepos (userRequest namespace) fuel with
  | None => None
  | Some (Ok repos, _) => Some (Some repos)
  | Some (Throw, _) =>
      match getOrgRepos (orgRequest namespace) fuel with
      | None => None
      | Some (Ok repos, _) => Some (Some repos)
      | Some (Throw, _) => Some None
      end
  end.

(** The [for (const namespace of this.settings.namespaces)] loop; the
    state is [allRepos]. *)
Fixpoint discoverRepositories_loop (namespaces : list jsstring)
    (allRepos : list GitHubRepo) : option (list GitHubRepo) :=
  match namespaces with
  | [] => Some allRepos
  | namespace :: rest =>
      match namespaceRepos namespace with
      | None => None
      | Some None => discoverRepositories_loop rest allRepos
      | Some (Some repos) =>
          if length repos =? 0 then discoverRepositories_loop rest allRepos
          else
            let filteredRepos :=
              filterRepositories isMatch repos (autoDefaults settings) in
            discoverRepositories_loop rest (allRepos ++ filteredRepos)
      end
  end.

Definition discoverRepositories (namespaces : list jsstring)
    : option (list GitHubRepo) :=
  discoverRepositories_loop namespaces [].

(** [branch: manualRepo.branch || 'main']. *)
Definition manualConfig (manualRepo : ManualRepo) : RepoConfig :=
  {| cfg_owner := manual_owner manualRepo;
     cfg_repo := manual_repo manualRepo;
     cfg_branch :=
       match manual_branch manualRepo with
       | Some b => if truthy b then b else lit "main"
       | None => lit "main"
       end |}.

(** The [for (const repo of autoRepos)] loop; the state is [configs]. *)
Fixpoint getAllRepoConfigs_loop (autoRepos : list GitHubRepo)
    (configs : list RepoConfig) : list RepoConfig :=
  match autoRepos with
  | [] => configs
  | repo :: rest =>
      let exists_ :=
        existsb (fun config =>
                   bool_decide (cfg_owner config = owner_login repo)
                   && bool_decide (cfg_repo config = name repo)) configs in
      getAllRepoConfigs_loop rest
        (if negb exists_
         then configs ++ [{| cfg_owner := owner_login repo;
                             cfg_repo := name repo;
                             cfg_branch := default_branch repo |}]
         else configs)
  end.

Definition getAllRepoConfigs (repos : list ManualRepo)
    (namespaces : list jsstring) : option (list RepoConfig) :=
  let configs := List.map manualConfig repos in
  if 0 <? length namespaces then
    match discoverRepositories namespaces with
    | None => None
    | Some autoRepos => Some (getAllRepoConfigs_loop autoRepos configs)
    end
  else Some configs.

End Discovery.

(** [stripProcessedContent] of [src/main.ts]: the header block goes
    whatever its keys are. *)
Definition stripProcessedContent (content : jsstring) : jsstring :=
  let strippedContent := content in
  let strippedContent :=
    if startsWith strippedContent FM_OPEN then
      let frontmatterEnd := indexOf strippedContent FM_CLOSE in
      if (frontmatterEnd =? -1)%Z then strippedContent
      else substringFrom strippedContent (frontmatterEnd + 5)
    else strippedContent in
  let bannerStart := indexOf strippedContent BANNER_MARKER in
  let strippedContent :=
    if (bannerStart =? -1)%Z then strippedContent
    else
      let bannerEnd := indexOfFrom strippedContent BLANK bannerStart in
      if (bannerEnd =? -1)%Z then strippedContent
      else substring strippedContent 0 bannerStart
           ++ substringFrom strippedContent (bannerEnd + 2) in
  let strippedContent :=
    match matchBacklink strippedContent with
    | Some n => drop n strippedContent
    | None => strippedContent
    end in
  trimStart strippedContent.

(** ** The manual repositories of the settings tab ([src/settings.ts])

    The text area shows one line for each repository and parses its
    lines back when it changes. *)

Definition AT : N := 64.

(** The value the text area is given ([setValue]). *)
Definition manualReposValue (repos : list ManualRepo) : jsstring :=
  join (List.map (fun repo =>
          match manual_branch repo with
          | Some b =>
              if truthy b && negb (bool_decide (b = lit "main"))
              then manual_owner repo ++ [SLASH] ++ manual_repo repo ++ [AT] ++ b
              else manual_owner repo ++ [SLASH] ++ manual_repo repo
          | None => manual_owner repo ++ [SLASH] ++ manual_repo repo
          end) repos) [LF].

(** One line of the text area: the repository, or [None] for [null]. *)
Definition manualRepoOfLine (line : jsstring) : option ManualRepo :=
  match split line AT with
  | [] => None
  | repoPath :: rest =>
      let branch :=
        match rest with
        | [] => lit "main"
        | b :: _ => if truthy b then b else lit "main"
        end in
      match split repoPath SLASH with
      | owner :: repo :: _ =>
          if truthy owner && truthy repo
          then Some {| manual_owner := owner; manual_repo := repo;
                       manual_branch := Some branch |}
          else None
      | _ => None
      end
  end.

(** What [onChange] stores in [settings.repos]. *)
Definition manualReposOnChange (value : jsstring) : list ManualRepo :=
  omap manualRepoOfLine
    (List.filter (fun line => 0 <? length line)
       (List.map trim (split value LF))).

(** A listing whose first page is full; [second] answers every later
    request. *)
Definition ex_pages (second : Result (list GitHubRepo)) (page : nat)
    : Result (list GitHubRepo) :=
  if page =? 1 then Ok (replicate perPage (ex_repo (lit "api") false false))
  else second.

(** The listings of the sample namespaces: the user [octo] has a public,
    a private and a forked repository, the organisation [acme] has one
    repository, and nothing else can be listed. *)
Definition ex_userRequest (namespace : jsstring) (page : nat)
    : Result (list GitHubRepo) :=
  if bool_decide (namespace = lit "octo") then
    if page =? 1
    then Ok [ex_repo (lit "alpha") false false; ex_repo (lit "beta") true false;
             ex_repo (lit "gamma") false true]
    else Ok []
  else Throw.

Definition ex_orgRequest (namespace : jsstring) (page : nat)
    : Result (list GitHubRepo) :=
  if bool_decide (namespace = lit "acme") then
    if page =? 1
    then Ok [{| name := lit "delta"; full_name := lit "acme/delta";
                owner_login := lit "acme"; default_branch := lit "trunk";
                private := false; fork := false; archived := false;
                clone_url := [] |}]
    else Ok []
  else Throw.

(** Settings with a base folder two levels down. *)
Definition ex_settings_nested : Settings :=
  {| autoDefaults := autoDefaults ex_settings;
     addFrontmatter := true; addReadonlyBanner_ := true; addBacklinks := true;
     pruneExtraneousFiles_ := true; baseFolder := lit "Vault/Projects";
     syncMediaFiles := true; lastSyncedRepos := [] |}.

(** A name as the text area round-trips it: not empty, and without white
    space, slash or at sign. *)
Definition plainName (s : jsstring) : Prop :=
  s <> []
  /\ Forall (fun c => isWhiteSpace c = false /\ c <> SLASH /\ c <> AT) s.

(** A manual repository with such names, and a branch that is given,
    not empty and without white space or at sign. *)
Definition plainRepo (r : ManualRepo) : Prop :=
  plainName (manual_owner r) /\ plainName (manual_repo r)
  /\ exists b, manual_branch r = Some b /\ b <> []
               /\ Forall (fun c => isWhiteSpace c = false /\ c <> AT) b.

(** No folder of the tree is empty. *)
Fixpoint noEmptyFolder (t : TAbstractFile) : Prop :=
  match t with
  | TFile _ _ => True
  | TFolder _ children =>
      children <> []
      /\ fold_right (fun c acc => noEmptyFolder c /\ acc) True children
  end.

(** What the call-by-call deletion comes to on a folder that is in the
    vault at its path. *)
Definition deletes_at_once (folder : TAbstractFile) : Prop :=
  forall folderPath w,
    wfTree folder ->
    lookupSegs (split folderPath SLASH) (vault w) = Some folder ->
    match folder with
    | TFile _ _ => True
    | TFolder _ _ =>
        run (recursiveDeleteFolder_calls folder folderPath) w
        = (Ok tt,
           {| vault := alterChildren (parentSegs folderPath)
                         (removeChild (leafName folderPath)) (vault w);
              oplog := oplog w ++ recursiveDeleteFolder_ops folder folderPath |})
    end.

(** * Facts about the string primitives *)

Section StringFacts.
Implicit Types (s p t : jsstring) (c : N).

Lemma isPrefix_app p s : isPrefix p (p ++ s) = true.
Proof.
  induction p as [|c p IH]; simpl; [done|].
  by rewrite N.eqb_refl, IH.
Qed.

Lemma isPrefix_true p s : isPrefix p s = true -> s = p ++ drop (length p) s.
Proof.
  revert s; induction p as [|c p IH]; intros [|d s]; simpl; try done.
  intros [Hc Hp]%andb_prop. apply N.eqb_eq in Hc as ->.
  f_equal. by apply IH.
Qed.

Lemma isPrefix_iff p s : isPrefix p s = true <-> exists r, s = p ++ r.
Proof.
  split.
  - intros H. eexists. by apply isPrefix_true.
  - intros [r ->]. apply isPrefix_app.
Qed.

(** Only the first [length p] units of [s] matter. *)
Lemma isPrefix_ext p a b b' :
  length p <= length a -> isPrefix p (a ++ b) = isPrefix p (a ++ b').
Proof.
  revert a; induction p as [|c p IH]; intros [|d a] Hl; simpl in *; try done; try lia.
  f_equal. apply IH. lia.
Qed.

Lemma isPrefix_length p s : isPrefix p s = true -> length p <= length s.
Proof.
  intros H%isPrefix_true. rewrite H, length_app. lia.
Qed.

Lemma isPrefix_hd c p d s : c <> d -> isPrefix (c :: p) (d :: s) = false.
Proof. intros H. simpl. by apply N.eqb_neq in H as ->. Qed.

Lemma find_sub_bound p s n : find_sub p s = Some n -> n + length p <= length s.
Proof.
  revert n; induction s as [|d s IH]; intros n; simpl.
  - destruct (isPrefix p []) eqn:E; [|done].
    intros [= <-]. apply isPrefix_length in E. simpl in *. lia.
  - destruct (isPrefix p (d :: s)) eqn:E.
    + intros [= <-]. apply isPrefix_length in E. simpl in *. lia.
    + destruct (find_sub p s) as [k|] eqn:F; [|done].
      intros [= <-]. specialize (IH k eq_refl). lia.
Qed.

Lemma find_sub_at p s n :
  find_sub p s = Some n -> isPrefix p (drop n s) = true.
Proof.
  revert n; induction s as [|d s IH]; intros n; simpl.
  - destruct (isPrefix p []) eqn:E; [|done]. by intros [= <-].
  - destruct (isPrefix p (d :: s)) eqn:E.
    + by intros [= <-].
    + destruct (find_sub p s) as [k|] eqn:F; [|done].
      intros [= <-]. simpl. by apply IH.
Qed.

(** The text up to the end of the first occurrence fixes the answer. *)
Lemma find_sub_ext p a b b' n :
  find_sub p (a ++ b) = Some n -> n + length p <= length a ->
  find_sub p (a ++ b') = Some n.
Proof.
  revert n; induction a as [|d a IH]; intros n; simpl.
  - intros H Hn. assert (n = 0) as -> by lia.
    assert (p = []) as -> by (destruct p; simpl in *; [done|lia]).
    by destruct b'.
  - intros H Hn.
    assert (isPrefix p (d :: a ++ b') = isPrefix p (d :: a ++ b)) as ->
      by (apply (isPrefix_ext p (d :: a)); simpl in *; lia).
    destruct (isPrefix p (d :: a ++ b)) eqn:E; [done|].
    destruct (find_sub p (a ++ b)) as [k|] eqn:F; [|done].
    injection H as <-.
    rewrite (IH k); [done|done|simpl in *; lia].
Qed.

Lemma find_sub_split p s n :
  find_sub p s = Some n -> s = take n s ++ p ++ drop (n + length p) s.
Proof.
  intros H. pose proof (find_sub_at _ _ _ H) as Hp%isPrefix_true.
  rewrite <- (take_drop n s) at 1. f_equal.
  rewrite Hp at 1. f_equal. by rewrite drop_drop.
Qed.

Lemma find_sub_None_app p a b : find_sub p (a ++ b) = None -> find_sub p b = None.
Proof.
  induction a as [|d a IH]; simpl; [done|].
  destruct (isPrefix p (d :: a ++ b)); [done|].
  destruct (find_sub p (a ++ b)); [done|]. auto.
Qed.

Lemma find_sub_Some_app p a b :
  find_sub p b <> None -> find_sub p (a ++ b) <> None.
Proof. intros H H'. by apply find_sub_None_app in H'. Qed.

Lemma find_sub_here p s : find_sub p (p ++ s) = Some 0.
Proof. destruct p; simpl; [by destruct s|]. by rewrite N.eqb_refl, isPrefix_app. Qed.

(** No occurrence starts inside a run that lacks the first unit of the
    pattern. *)
Lemma find_sub_skip c p a s :
  Forall (fun d => d <> c) a ->
  find_sub (c :: p) (a ++ s) = (fun k => length a + k) <$> find_sub (c :: p) s.
Proof.
  induction 1 as [|d a Hd Ha IH].
  - simpl. by destruct (find_sub _ s).
  - cbn [app find_sub]. rewrite isPrefix_hd by done.
    rewrite IH. by destruct (find_sub (c :: p) s).
Qed.

Lemma includes_app_r s t p : includes t p = true -> includes (s ++ t) p = true.
Proof.
  unfold includes. destruct (find_sub p t) eqn:E; [|done]. intros _.
  destruct (find_sub p (s ++ t)) eqn:F; [done|].
  apply find_sub_None_app in F. congruence.
Qed.

Lemma includes_app_l s t p : includes s p = true -> includes (s ++ t) p = true.
Proof.
  unfold includes. destruct (find_sub p s) as [n|] eqn:E; [|done]. intros _.
  rewrite <- (app_nil_r s) in E.
  by rewrite (find_sub_ext p s [] t n E (find_sub_bound _ _ _ ltac:(by rewrite app_nil_r in E))).
Qed.

Lemma clampIndex_nat s (n : nat) : n <= length s -> clampIndex s (Z.of_nat n) = n.
Proof. unfold clampIndex. lia. Qed.

Lemma clampIndex_neg s z : (z <= 0)%Z -> clampIndex s z = 0.
Proof. unfold clampIndex. lia. Qed.

Lemma substring_0 s (n : nat) :
  n <= length s -> substring s 0 (Z.of_nat n) = take n s.
Proof.
  intros H. unfold substring. rewrite clampIndex_nat, clampIndex_neg by (done || lia).
  by rewrite Nat.max_r, Nat.min_l, Nat.sub_0_r by lia.
Qed.

Lemma substringFrom_nat s (n : nat) :
  n <= length s -> substringFrom s (Z.of_nat n) = drop n s.
Proof. intros H. unfold substringFrom. by rewrite clampIndex_nat. Qed.

End StringFacts.

(** * The codec, block by block *)

Section CodecFacts.
Implicit Types (content rest target : jsstring) (m : FileMetadata).

Lemma indexOf_Some s p n : find_sub p s = Some n -> indexOf s p = Z.of_nat n.
Proof. unfold indexOf. by intros ->. Qed.

Lemma indexOf_None s p : find_sub p s = None -> indexOf s p = (-1)%Z.
Proof. unfold indexOf. by intros ->. Qed.

Lemma headerEnd_Some content e :
  headerEnd content = Some e ->
  startsWith content FM_OPEN = true
  /\ find_sub FM_CLOSE content = Some (e - 5)
  /\ 5 <= e <= length content.
Proof.
  unfold headerEnd. destruct (startsWith content FM_OPEN); [|done].
  destruct (find_sub FM_CLOSE content) as [k|] eqn:F; [|done].
  intros [= <-]. apply find_sub_bound in F as Hb. simpl in Hb.
  repeat split; try lia. f_equal. lia.
Qed.

(** Rewriting the text after the header block keeps the block. *)
Lemma headerEnd_ext content e rest :
  headerEnd content = Some e -> headerEnd (take e content ++ rest) = Some e.
Proof.
  intros (Hs & Hf & He)%headerEnd_Some. unfold headerEnd, startsWith in *.
  rewrite <- (take_drop e content) in Hs, Hf.
  rewrite (isPrefix_ext _ _ rest (drop e content)), Hs
    by (rewrite length_take; simpl; lia).
  rewrite (find_sub_ext _ _ _ rest _ Hf) by (rewrite length_take; simpl; lia).
  simpl. f_equal. lia.
Qed.

Lemma addReadonlyBanner_closed content m e :
  headerEnd content = Some e ->
  addReadonlyBanner content m = take e content ++ insertBanner (drop e content) m.
Proof.
  intros (Hs & Hf & He)%headerEnd_Some. unfold addReadonlyBanner, insertBanner.
  rewrite Hs, (indexOf_Some _ _ _ Hf).
  replace (Z.of_nat (e - 5) + 5)%Z with (Z.of_nat e) by lia.
  rewrite substring_0, substringFrom_nat by lia.
  destruct (includes _ _); [by rewrite take_drop|done].
Qed.

Lemma addReadonlyBanner_open content m :
  startsWith content FM_OPEN = true -> find_sub FM_CLOSE content = None ->
  addReadonlyBanner content m = take 4 content ++ insertBanner (drop 4 content) m.
Proof.
  intros Hs Hf. unfold addReadonlyBanner, insertBanner.
  rewrite Hs, (indexOf_None _ _ Hf).
  apply isPrefix_length in Hs as Hl. simpl in Hl.
  change (-1 + 5)%Z with (Z.of_nat 4).
  rewrite substring_0, substringFrom_nat by lia.
  destruct (includes _ _); [by rewrite take_drop|done].
Qed.

Lemma addReadonlyBanner_plain content m :
  startsWith content FM_OPEN = false ->
  addReadonlyBanner content m = insertBanner content m.
Proof. intros Hs. unfold addReadonlyBanner, insertBanner. by rewrite Hs. Qed.

Lemma backlinkOffset_le rest : backlinkOffset rest <= length rest.
Proof.
  unfold backlinkOffset. destruct (startsWith _ _); [|lia].
  destruct (find_sub BLANK rest) as [j|] eqn:F; [|lia].
  apply find_sub_bound in F. simpl in F. lia.
Qed.

Lemma addBacklink_at content target (e : nat) :
  e <= length content ->
  (if startsWith content FM_OPEN then
     let frontmatterEnd := indexOf content FM_CLOSE in
     if (frontmatterEnd =? -1)%Z then 0%Z else (frontmatterEnd + 5)%Z
   else 0%Z) = Z.of_nat e ->
  addBacklink content target
  = take e content ++ insertBacklink (drop e content) target.
Proof.
  intros He Hpos. unfold addBacklink. cbv zeta in Hpos. rewrite Hpos. clear Hpos.
  cbv zeta. rewrite substringFrom_nat by done.
  pose proof (backlinkOffset_le (drop e content)) as Hoff.
  rewrite length_drop in Hoff.
  assert ((if startsWith (drop e content) BANNER_MARKER
           then if (indexOf (drop e content) BLANK =? -1)%Z then Z.of_nat e
                else (Z.of_nat e + (indexOf (drop e content) BLANK + 2))%Z
           else Z.of_nat e)
          = Z.of_nat (e + backlinkOffset (drop e content))) as ->.
  { unfold backlinkOffset, indexOf.
    destruct (startsWith _ _); [|lia].
    destruct (find_sub BLANK _) as [j|]; simpl.
    - destruct (Z.eqb_spec (Z.of_nat j) (-1)); lia.
    - lia. }
  rewrite substringFrom_nat, substring_0 by lia.
  unfold insertBacklink. rewrite drop_drop.
  destruct (matchBacklink _); [by rewrite take_drop|].
  by rewrite <- take_take_drop, <- app_assoc.
Qed.

Lemma addBacklink_closed content target e :
  headerEnd content = Some e ->
  addBacklink content target
  = take e content ++ insertBacklink (drop e content) target.
Proof.
  intros (Hs & Hf & He)%headerEnd_Some. apply addBacklink_at; [lia|].
  rewrite Hs, (indexOf_Some _ _ _ Hf). cbv zeta.
  destruct (Z.eqb_spec (Z.of_nat (e - 5)) (-1)); lia.
Qed.

Lemma addBacklink_open content target :
  headerEnd content = None ->
  addBacklink content target = insertBacklink content target.
Proof.
  intros H. rewrite (addBacklink_at content target 0); [done|lia|].
  unfold headerEnd in H. destruct (startsWith _ _); [|done].
  unfold indexOf. by destruct (find_sub _ _).
Qed.

End CodecFacts.

Section Idempotence.
Implicit Types (content rest target : jsstring) (m : FileMetadata).

Lemma marker_no_LF : Forall (fun d => d <> LF) BANNER_MARKER.
Proof. unfold BANNER_MARKER, LF. repeat (constructor; [done|]). constructor. Qed.

(** A text that begins with the banner marker has its first blank line
    after the marker. *)
Lemma blank_after_marker rest j :
  startsWith rest BANNER_MARKER = true -> find_sub BLANK rest = Some j ->
  length BANNER_MARKER <= j.
Proof.
  intros Hs%isPrefix_true Hf. rewrite Hs in Hf.
  unfold BLANK in Hf. rewrite (find_sub_skip _ _ _ _ marker_no_LF) in Hf.
  destruct (find_sub _ _); simplify_eq/=. lia.
Qed.

Lemma includes_insertBanner rest m :
  includes (insertBanner rest m) BANNER_MARKER = true.
Proof.
  unfold insertBanner. destruct (includes rest BANNER_MARKER) eqn:E; [done|].
  unfold includes, bannerBlock. rewrite <- (app_assoc BANNER_MARKER).
  by rewrite find_sub_here.
Qed.

Lemma includes_insertBacklink rest target :
  includes rest BANNER_MARKER = true ->
  includes (insertBacklink rest target) BANNER_MARKER = true.
Proof.
  intros Hi. unfold insertBacklink.
  destruct (matchBacklink _); [done|].
  unfold backlinkOffset.
  destruct (startsWith rest BANNER_MARKER) eqn:Hs.
  - destruct (find_sub BLANK rest) as [j|] eqn:Hf.
    + apply includes_app_l.
      pose proof (blank_after_marker _ _ Hs Hf) as Hj.
      apply isPrefix_true in Hs. rewrite Hs.
      rewrite take_app_ge by lia.
      unfold includes. by rewrite find_sub_here.
    + rewrite take_0, drop_0. by apply (includes_app_r (backlinkLine target)).
  - rewrite take_0, drop_0. by apply (includes_app_r (backlinkLine target)).
Qed.

Lemma lazyDotsThen_line target rest :
  noLineTerminator target ->
  lazyDotsThen BACKLINK_CLOSE (target ++ BACKLINK_CLOSE ++ rest)
  = Some (length target + 4).
Proof.
  induction 1 as [|c t Hc Ht IH].
  - done.
  - cbn [app lazyDotsThen]. rewrite Hc.
    assert (isPrefix BACKLINK_CLOSE (c :: t ++ BACKLINK_CLOSE ++ rest) = false) as ->.
    { destruct t as [|x [|y t]]; unfold BACKLINK_CLOSE; cbn [app isPrefix].
      - change (10 =? 93)%N with false. by rewrite !andb_false_r.
      - change (10 =? 93)%N with false. by rewrite !andb_false_r.
      - apply Forall_cons in Ht as [_ [Hy _]%Forall_cons].
        unfold isLineTerminator in Hy.
        destruct (y =? 10)%N eqn:E; [done|].
        rewrite (N.eqb_sym 10 y), E. by rewrite !andb_false_r. }
    rewrite IH. done.
Qed.

Lemma matchBacklink_line target rest :
  noLineTerminator target ->
  matchBacklink (backlinkLine target ++ rest)
  = Some (length (backlinkLine target)).
Proof.
  intros Ht.
  assert (backlinkLine target ++ rest
          = BACKLINK_OPEN ++ target ++ BACKLINK_CLOSE ++ rest) as E.
  { unfold backlinkLine, BACKLINK_OPEN, BACKLINK_CLOSE. simpl.
    by rewrite <- app_assoc. }
  unfold matchBacklink. rewrite E, isPrefix_app, drop_app_length.
  rewrite lazyDotsThen_line by done.
  unfold backlinkLine. simpl. rewrite length_app. simpl. f_equal.
Qed.

Lemma insertBacklink_idem rest target :
  noLineTerminator target ->
  insertBacklink (insertBacklink rest target) target = insertBacklink rest target.
Proof.
  intros Ht. unfold insertBacklink at 2 3.
  destruct (matchBacklink (drop (backlinkOffset rest) rest)) eqn:Hm.
  { unfold insertBacklink. by rewrite Hm. }
  assert (backlinkOffset
            (take (backlinkOffset rest) rest ++ backlinkLine target
             ++ drop (backlinkOffset rest) rest) = backlinkOffset rest
          /\ backlinkOffset rest <= length rest) as [Hoff Hle].
  { split; [|apply backlinkOffset_le].
    unfold backlinkOffset.
    destruct (startsWith rest BANNER_MARKER) eqn:Hs.
    - destruct (find_sub BLANK rest) as [j|] eqn:Hf.
      + pose proof (blank_after_marker _ _ Hs Hf) as Hj.
        pose proof (find_sub_bound _ _ _ Hf) as Hb. simpl in Hb.
        assert (startsWith (take (j + 2) rest ++ backlinkLine target
                            ++ drop (j + 2) rest) BANNER_MARKER = true) as ->.
        { unfold startsWith in *. rewrite <- (take_drop (j + 2) rest) in Hs.
          rewrite <- Hs. apply isPrefix_ext. rewrite length_take. lia. }
        rewrite <- (take_drop (j + 2) rest) in Hf.
        rewrite (find_sub_ext _ _ _ _ _ Hf); [done|].
        rewrite length_take. simpl. lia.
      + done.
    - done. }
  unfold insertBacklink. rewrite Hoff.
  rewrite drop_app_length' by (rewrite length_take; lia).
  by rewrite matchBacklink_line.
Qed.

Lemma frontmatterBlock_eq m now :
  frontmatterBlock m now
  = FM_OPEN ++ join (headerLines m now) [LF] ++ FM_CLOSE ++ [LF].
Proof.
  unfold frontmatterBlock, headerLines. cbn [join].
  by repeat rewrite <- app_assoc.
Qed.

Lemma frontmatterBlock_header m now content :
  exists e, headerEnd (frontmatterBlock m now ++ content) = Some e.
Proof.
  rewrite frontmatterBlock_eq. unfold headerEnd, startsWith.
  rewrite <- (app_assoc FM_OPEN), isPrefix_app.
  destruct (find_sub FM_CLOSE _) as [k|] eqn:F; [by eexists|].
  exfalso. revert F. rewrite <- (app_assoc (join _ _)), <- (app_assoc FM_CLOSE).
  do 2 apply find_sub_Some_app. by rewrite find_sub_here.
Qed.

End Idempotence.

Section Pipeline.
Implicit Types (content rest target : jsstring) (m : FileMetadata).

Lemma insertBanner_present rest m :
  includes rest BANNER_MARKER = true -> insertBanner rest m = rest.
Proof. unfold insertBanner. by intros ->. Qed.

Lemma take_take_app (l k : jsstring) e :
  e <= length l -> take e (take e l ++ k) = take e l.
Proof.
  intros H. rewrite take_app_le by (rewrite length_take; lia).
  rewrite take_take. f_equal. lia.
Qed.

Lemma drop_take_app (l k : jsstring) e :
  e <= length l -> drop e (take e l ++ k) = k.
Proof. intros H. apply drop_app_length'. rewrite length_take. lia. Qed.

(** Banner then backlink on a content with a closed header block. *)
Lemma banner_backlink_closed content m target e :
  headerEnd content = Some e ->
  addBacklink (addReadonlyBanner content m) target
  = take e content
    ++ insertBacklink (insertBanner (drop e content) m) target.
Proof.
  intros H. pose proof (headerEnd_Some _ _ H) as (_ & _ & He).
  rewrite (addReadonlyBanner_closed _ _ _ H).
  rewrite (addBacklink_closed _ _ e) by by apply headerEnd_ext.
  rewrite take_take_app, drop_take_app by lia. done.
Qed.

Lemma allOn_closed content m target now e :
  truthy target = true -> headerEnd content = Some e ->
  processFileContent content m (allOn target) now
  = take e content
    ++ insertBacklink (insertBanner (drop e content) m) target.
Proof.
  intros Ht H. pose proof (headerEnd_Some _ _ H) as (Hs & _ & _).
  unfold processFileContent, allOn, addFrontmatterIfMissing.
  cbn [optAddFrontmatter optAddReadonlyBanner optAddBacklinks optBacklinkTarget].
  rewrite Hs, Ht. by apply banner_backlink_closed.
Qed.

End Pipeline.

(** C3 (as amended). Re-applying the pipeline, all toggles on, to its own
    output changes nothing at all: the document of the first application
    comes back unit for unit, its [synced_at] line included, whatever the
    clock reads at the second application. This holds for every body
    that does not begin with ["---\n"] or whose leading block is closed by
    a ["\n---\n"], every metadata, and every non-empty backlink target
    without a line terminator. *)
Theorem pipeline_reapply_is_noop (b : jsstring) (m : FileMetadata)
    (target now1 now2 : jsstring) :
  truthy target = true ->
  noLineTerminator target ->
  startsWith b FM_OPEN = false \/ includes b FM_CLOSE = true ->
  processFileContent (processFileContent b m (allOn target) now1) m
    (allOn target) now2
  = processFileContent b m (allOn target) now1.
Proof.
  intros Ht Hlt Hb.
  assert (exists e, headerEnd (addFrontmatterIfMissing b m now1) = Some e)
    as [e He].
  { unfold addFrontmatterIfMissing.
    destruct (startsWith b FM_OPEN) eqn:Hs.
    - destruct Hb as [|Hi]; [done|]. unfold headerEnd. rewrite Hs.
      unfold includes in Hi. destruct (find_sub FM_CLOSE b); [by eexists|done].
    - apply frontmatterBlock_header. }
  assert (processFileContent b m (allOn target) now1
          = take e (addFrontmatterIfMissing b m now1)
            ++ insertBacklink
                 (insertBanner (drop e (addFrontmatterIfMissing b m now1)) m)
                 target) as E1.
  { unfold processFileContent, allOn.
    cbn [optAddFrontmatter optAddReadonlyBanner optAddBacklinks optBacklinkTarget].
    rewrite Ht. by apply banner_backlink_closed. }
  pose proof (headerEnd_Some _ _ He) as (_ & _ & Hle).
  rewrite E1.
  rewrite (allOn_closed _ m target now2 e Ht) by by apply headerEnd_ext.
  rewrite take_take_app, drop_take_app by lia. f_equal.
  rewrite insertBanner_present
    by (apply includes_insertBacklink, includes_insertBanner).
  by apply insertBacklink_idem.
Qed.

Lemma pipeline_reapply_witness :
  processFileContent
    (processFileContent (lit "hello") ex_meta (allOn ex_target) ex_now1)
    ex_meta (allOn ex_target) ex_now2
  = processFileContent (lit "hello") ex_meta (allOn ex_target) ex_now1.
Proof.
  apply pipeline_reapply_is_noop;
    [reflexivity | unfold noLineTerminator; repeat constructor
    | left; reflexivity].
Defined.

(** C3, counterexample. The claim has the [synced_at] field refreshed by
    the second application, which would make the result the document of
    a single application at the later time; it is not. *)
Lemma pipeline_timestamp_not_refreshed :
  processFileContent
    (processFileContent (lit "hello") ex_meta (allOn ex_target) ex_now1)
    ex_meta (allOn ex_target) ex_now2
  <> processFileContent (lit "hello") ex_meta (allOn ex_target) ex_now2.
Proof. apply (bool_decide_eq_false_1 _). vm_compute. reflexivity. Qed.

(** A body whose leading ["---\n"] is never closed is outside the
    theorem: the second application adds a header and a second backlink. *)
Example pipeline_unclosed_header_grows :
  length (processFileContent
            (processFileContent (FM_OPEN ++ lit "foo") ex_meta
               (allOn ex_target) ex_now1)
            ex_meta (allOn ex_target) ex_now2)
  > length (processFileContent (FM_OPEN ++ lit "foo") ex_meta
              (allOn ex_target) ex_now1).
Proof. vm_compute. lia. Qed.

(** [Forall] over a literal, unit by unit. *)
Ltac forall_lit :=
  unfold noLF, noLineTerminator, noSlash;
  match goal with
  | |- Forall ?P ?l =>
      let l' := eval vm_compute in l in
      change (Forall P l'); repeat (constructor; [done|]); constructor
  end.

(** Equal texts, up to the nesting of their concatenations. *)
Ltac list_norm := simpl; repeat (rewrite <- app_assoc; simpl); reflexivity.

Section Extraction.
Implicit Types (content rest target : jsstring) (m : FileMetadata).

(** The first ["\n---\n"] of a text, line by line. *)
Lemma find_sub_line (l rest : jsstring) :
  noLF l ->
  find_sub FM_CLOSE (l ++ LF :: rest)
  = if startsWith rest FM_OPEN then Some (length l)
    else (fun k => length l + 1 + k) <$> find_sub FM_CLOSE rest.
Proof.
  intros Hl. change FM_CLOSE with (LF :: FM_OPEN).
  rewrite (find_sub_skip _ _ _ _ Hl).
  cbn [find_sub isPrefix]. rewrite N.eqb_refl. cbn [andb].
  unfold startsWith. destruct (isPrefix FM_OPEN rest).
  - simpl. f_equal. lia.
  - destruct (find_sub (LF :: FM_OPEN) rest); simpl; [f_equal; lia|done].
Qed.

Lemma clampIndex_app (x y : jsstring) (z : Z) :
  (z <= Z.of_nat (length x))%Z -> clampIndex (x ++ y) z = clampIndex x z.
Proof. unfold clampIndex. rewrite length_app. lia. Qed.

Lemma clampIndex_le (x : jsstring) z : clampIndex x z <= length x.
Proof. unfold clampIndex. lia. Qed.

Lemma substring_ext (x y y' : jsstring) (a b : Z) :
  (a <= Z.of_nat (length x))%Z -> (b <= Z.of_nat (length x))%Z ->
  substring (x ++ y) a b = substring (x ++ y') a b.
Proof.
  intros Ha Hb. unfold substring. rewrite !clampIndex_app by done.
  pose proof (clampIndex_le x a). pose proof (clampIndex_le x b).
  rewrite !drop_app_le by lia.
  rewrite !take_app_le by (rewrite length_drop; lia). done.
Qed.

(** Extraction reads the header block only. *)
Lemma extract_ext content e rest :
  headerEnd content = Some e ->
  extractGitHubMetadata (take e content ++ rest) = extractGitHubMetadata content.
Proof.
  intros H. pose proof (headerEnd_ext _ _ rest H) as H'.
  apply headerEnd_Some in H as (Hs & Hf & He).
  apply headerEnd_Some in H' as (Hs' & Hf' & He').
  unfold extractGitHubMetadata.
  rewrite Hs, Hs', (indexOf_Some _ _ _ Hf), (indexOf_Some _ _ _ Hf').
  rewrite <- (take_drop e content) at 2.
  by rewrite (substring_ext _ rest (drop e content))
    by (rewrite length_take; lia).
Qed.

Lemma extract_unclosed content :
  headerEnd content = None -> extractGitHubMetadata content = None.
Proof.
  unfold headerEnd, extractGitHubMetadata.
  destruct (startsWith content FM_OPEN); [|done].
  unfold indexOf. by destruct (find_sub FM_CLOSE content).
Qed.

Lemma headerEnd_backlink content target :
  startsWith content FM_OPEN = true ->
  headerEnd (insertBacklink content target) = None
  \/ insertBacklink content target = content.
Proof.
  intros Hs. unfold insertBacklink.
  assert (backlinkOffset content = 0) as ->.
  { unfold backlinkOffset. apply isPrefix_true in Hs. rewrite Hs. done. }
  rewrite drop_0, take_0.
  destruct (matchBacklink content); [by right|by left].
Qed.

Lemma viewSource_noLF m :
  noLF (owner m) -> noLF (repo m) -> noLF (githubUrl m) ->
  noLF (lit "> View source: [" ++ owner m ++ [SLASH] ++ repo m ++ lit "]("
        ++ githubUrl m ++ lit ")").
Proof.
  intros Ho Hr Hu. unfold noLF in *.
  repeat (apply Forall_app; split); try done;
    repeat (constructor; [done|]); constructor.
Qed.

(** A line is the delimiter text exactly when what follows the line
    break before it begins with ["---\n"]. *)
Lemma startsWith_line (l rest : jsstring) :
  noLF l -> l <> lit "---" -> startsWith (l ++ LF :: rest) FM_OPEN = false.
Proof.
  intros Hl Hne. unfold startsWith, FM_OPEN.
  destruct l as [|a [|b [|c [|d l]]]]; cbn [app isPrefix];
    repeat match goal with
    | |- context [(?x =? ?y)%N] =>
        destruct (N.eqb_spec x y); cbn [andb]; try done
    end; subst.
  - by destruct Hne.
  - by do 3 apply Forall_cons in Hl as [_ Hl]; apply Forall_cons in Hl as [? _].
Qed.

Lemma find_sub_lines (ls : list jsstring) (rest : jsstring) :
  ls <> [] -> Forall noLF ls -> Forall (fun l => l <> lit "---") (tail ls) ->
  find_sub FM_CLOSE (join ls [LF] ++ LF :: rest)
  = if startsWith rest FM_OPEN then Some (length (join ls [LF]))
    else (fun k => length (join ls [LF]) + 1 + k) <$> find_sub FM_CLOSE rest.
Proof.
  induction ls as [|l [|l' ls] IH]; intros Hne Hlf Hd; [done|..].
  - cbn [join]. apply find_sub_line. by apply Forall_cons in Hlf as [? _].
  - apply Forall_cons in Hlf as [Hl Hlf]. cbn [tail] in Hd.
    change (join (l :: l' :: ls) [LF]) with (l ++ LF :: join (l' :: ls) [LF]).
    rewrite <- app_assoc. cbn [app].
    rewrite (find_sub_line _ _ Hl).
    assert (startsWith (join (l' :: ls) [LF] ++ LF :: rest) FM_OPEN = false) as ->.
    { apply Forall_cons in Hd as [Hd _]. apply Forall_cons in Hlf as [Hl' _].
      destruct ls as [|l'' ls].
      - cbn [join]. by apply startsWith_line.
      - change (join (l' :: l'' :: ls) [LF]) with (l' ++ LF :: join (l'' :: ls) [LF]).
        rewrite <- app_assoc. cbn [app]. by apply startsWith_line. }
    rewrite IH; [|done|done|by apply Forall_cons in Hd as [_ ?]].
    rewrite !length_app. cbn [length].
    destruct (startsWith rest FM_OPEN); simpl; [f_equal; lia|].
    destruct (find_sub FM_CLOSE rest); simpl; [f_equal; lia|done].
Qed.

Lemma bannerBlock_eq m :
  bannerBlock m = join (bannerLines m) [LF] ++ BLANK.
Proof.
  unfold bannerBlock, bannerLines. cbn [join].
  by repeat rewrite <- app_assoc.
Qed.

Lemma bannerLines_plain m :
  noLF (owner m) -> noLF (repo m) -> noLF (githubUrl m) ->
  Forall noLF (bannerLines m)
  /\ Forall (fun l => l <> lit "---") (bannerLines m).
Proof.
  intros Ho Hr Hu. split.
  - unfold bannerLines.
    apply Forall_cons; split; [apply marker_no_LF|].
    apply Forall_cons; split; [forall_lit|].
    apply Forall_cons; split; [by apply viewSource_noLF|constructor].
  - by repeat constructor.
Qed.

(** The banner does not close a header block left open. *)
Lemma banner_keeps_unclosed rest m :
  noLF (owner m) -> noLF (repo m) -> noLF (githubUrl m) ->
  find_sub FM_CLOSE (FM_OPEN ++ rest) = None ->
  find_sub FM_CLOSE (FM_OPEN ++ bannerBlock m ++ rest) = None.
Proof.
  intros Ho Hr Hu.
  destruct (bannerLines_plain m Ho Hr Hu) as [Hlf Hd].
  assert (noLF (lit "---")) as H3 by forall_lit.
  change (FM_OPEN ++ rest) with (join [lit "---"] [LF] ++ LF :: rest).
  rewrite find_sub_lines by (done || by repeat constructor).
  destruct (startsWith rest FM_OPEN) eqn:Hs; [done|].
  destruct (find_sub FM_CLOSE rest) eqn:Hf; [done|]. intros _.
  rewrite bannerBlock_eq.
  assert (FM_OPEN ++ (join (bannerLines m) [LF] ++ BLANK) ++ rest
          = join (lit "---" :: bannerLines m ++ [[]]) [LF] ++ LF :: rest) as ->.
  { unfold bannerLines, FM_OPEN, BLANK. list_norm. }
  rewrite find_sub_lines, Hs, Hf; [done|done|..].
  - constructor; [done|]. apply Forall_app. split; [done|by repeat constructor].
  - cbn [tail]. apply Forall_app. split; [done|by repeat constructor].
Qed.

End Extraction.

(** A content that begins with ["---\n"] goes through the pipeline
    without a header of the system's, and what the pipeline makes of it
    extracts to what the content itself extracts to. *)
Lemma own_frontmatter_extracts (content : jsstring)
    (m : FileMetadata) (options : ProcessOptions) (now : jsstring) :
  startsWith content FM_OPEN = true ->
  noLF (owner m) -> noLF (repo m) -> noLF (githubUrl m) ->
  addFrontmatterIfMissing content m now = content
  /\ extractGitHubMetadata (processFileContent content m options now)
     = extractGitHubMetadata content.
Proof.
  intros Hs Ho Hr Hu.
  assert (addFrontmatterIfMissing content m now = content) as E1
    by (unfold addFrontmatterIfMissing; by rewrite Hs).
  split; [done|].
  unfold processFileContent.
  assert ((if optAddFrontmatter options
           then addFrontmatterIfMissing content m now else content) = content)
    as -> by (rewrite E1; by destruct (optAddFrontmatter options)).
  destruct (headerEnd content) as [e|] eqn:He.
  - (* closed header: every stage rewrites the text after it *)
    pose proof (headerEnd_Some _ _ He) as (_ & _ & Hle).
    assert (exists rest,
      (if optAddReadonlyBanner options then addReadonlyBanner content m
       else content) = take e content ++ rest) as [rest ->].
    { destruct (optAddReadonlyBanner options).
      - rewrite (addReadonlyBanner_closed _ _ _ He). by eexists.
      - exists (drop e content). by rewrite take_drop. }
    assert (forall target,
      addBacklink (take e content ++ rest) target
      = take e content ++ insertBacklink rest target) as Hb.
    { intros target.
      rewrite (addBacklink_closed _ _ e) by by apply headerEnd_ext.
      by rewrite take_take_app, drop_take_app by lia. }
    destruct (optAddBacklinks options), (optBacklinkTarget options) as [t|];
      try destruct (truthy t); rewrite ?Hb; by apply extract_ext.
  - (* header left open: it stays open, or the text no longer begins
       with the delimiter *)
    rewrite (extract_unclosed _ He).
    assert (find_sub FM_CLOSE content = None) as Hf.
    { unfold headerEnd in He. rewrite Hs in He.
      by destruct (find_sub FM_CLOSE content). }
    set (c2 := if optAddReadonlyBanner options
               then addReadonlyBanner content m else content).
    assert (startsWith c2 FM_OPEN = true /\ headerEnd c2 = None) as [Hs2 He2].
    { subst c2. destruct (optAddReadonlyBanner options); [|done].
      rewrite (addReadonlyBanner_open _ _ Hs Hf).
      pose proof (isPrefix_true _ _ Hs) as Hc.
      change (length FM_OPEN) with 4 in Hc.
      unfold insertBanner. destruct (includes _ _); [by rewrite take_drop|].
      assert (take 4 content = FM_OPEN) as ->.
      { rewrite Hc at 1. done. }
      split; [apply isPrefix_app|].
      unfold headerEnd, startsWith. rewrite isPrefix_app.
      rewrite banner_keeps_unclosed; [done..|]. by rewrite <- Hc. }
    assert (forall target,
      extractGitHubMetadata (addBacklink c2 target) = None) as Hb.
    { intros target. apply extract_unclosed.
      rewrite (addBacklink_open _ _ He2).
      by destruct (headerEnd_backlink c2 target Hs2) as [?| ->]. }
    destruct (optAddBacklinks options), (optBacklinkTarget options) as [t|];
      try destruct (truthy t); rewrite ?Hb; by try apply extract_unclosed.
Qed.

Section RoundTrip.
Implicit Types (content rest target b : jsstring) (m : FileMetadata).

Lemma find_blank_lines (ls : list jsstring) (rest : jsstring) :
  ls <> [] -> Forall noLF ls -> Forall (fun l => l <> []) (tail ls) ->
  find_sub BLANK (join ls [LF] ++ LF :: LF :: rest)
  = Some (length (join ls [LF])).
Proof.
  induction ls as [|l [|l' ls] IH]; intros Hne Hlf Hd; [done|..].
  - cbn [join]. apply Forall_cons in Hlf as [Hl _].
    unfold BLANK. rewrite (find_sub_skip _ _ _ _ Hl).
    cbn. f_equal. lia.
  - apply Forall_cons in Hlf as [Hl Hlf]. cbn [tail] in Hd.
    change (join (l :: l' :: ls) [LF]) with (l ++ LF :: join (l' :: ls) [LF]).
    rewrite <- app_assoc. cbn [app].
    unfold BLANK. rewrite (find_sub_skip _ _ _ _ Hl).
    assert (exists c tl, join (l' :: ls) [LF] ++ LF :: LF :: rest = c :: tl
                          /\ c <> LF) as (c & tl & E & Hc).
    { apply Forall_cons in Hd as [Hd _]. apply Forall_cons in Hlf as [Hl' _].
      destruct l' as [|c l']; [done|]. apply Forall_cons in Hl' as [Hc _].
      destruct ls; cbn [join app]; by eexists _, _. }
    specialize (IH ltac:(done) Hlf ltac:(by apply Forall_cons in Hd as [_ ?])).
    unfold BLANK in IH. rewrite E in IH |- *.
    cbn [find_sub isPrefix]. rewrite N.eqb_refl.
    apply N.eqb_neq in Hc. rewrite (N.eqb_sym LF c), Hc. cbn [andb].
    cbn [find_sub isPrefix] in IH. rewrite (N.eqb_sym LF c), Hc in IH.
    cbn [andb] in IH. rewrite IH. cbn. rewrite !length_app. cbn. f_equal; lia.
Qed.

Lemma headerLines_plain m now :
  lineSafe m now ->
  Forall noLF (headerLines m now)
  /\ Forall (fun l => l <> lit "---") (headerLines m now).
Proof.
  intros (Ho & Hr & Hp & Hu & Hn). split.
  - unfold headerLines.
    repeat (apply Forall_cons; split; [|]); try apply Forall_nil;
      unfold noLF in *; repeat (apply Forall_app; split); try done;
      try forall_lit.
  - by repeat constructor.
Qed.

Lemma headerBlock_end m now rest :
  lineSafe m now ->
  headerEnd (headerBlock m now ++ rest) = Some (length (headerBlock m now)).
Proof.
  intros Hsafe. destruct (headerLines_plain m now Hsafe) as [Hlf Hd].
  unfold headerEnd, headerBlock, startsWith.
  rewrite <- (app_assoc FM_OPEN), isPrefix_app.
  assert (FM_OPEN ++ (join (headerLines m now) [LF] ++ FM_CLOSE) ++ rest
          = join (lit "---" :: headerLines m now) [LF]
            ++ LF :: (FM_OPEN ++ rest)) as ->.
  { unfold headerLines, FM_OPEN, FM_CLOSE. list_norm. }
  rewrite find_sub_lines; [|done|constructor; [forall_lit|done]|done].
  unfold startsWith. rewrite isPrefix_app. cbn [fmap option_fmap option_map].
  f_equal. unfold headerLines, FM_OPEN, FM_CLOSE. cbn [join].
  rewrite !length_app. simpl. lia.
Qed.

Lemma frontmatterBlock_headerBlock m now :
  frontmatterBlock m now = headerBlock m now ++ [LF].
Proof.
  rewrite frontmatterBlock_eq. unfold headerBlock.
  by repeat rewrite <- app_assoc.
Qed.

Lemma bannerBlock_blank m rest :
  noLF (owner m) -> noLF (repo m) -> noLF (githubUrl m) ->
  find_sub BLANK (bannerBlock m ++ rest) = Some (length (bannerBlock m) - 2).
Proof.
  intros Ho Hr Hu. destruct (bannerLines_plain m Ho Hr Hu) as [Hlf _].
  rewrite bannerBlock_eq, <- app_assoc.
  change (BLANK ++ rest) with (LF :: LF :: rest).
  rewrite find_blank_lines; [|done|done|].
  - f_equal. rewrite length_app. cbn [length BLANK]. lia.
  - unfold bannerLines. cbn [tail]. by repeat constructor.
Qed.

Lemma bannerBlock_length m : 2 <= length (bannerBlock m).
Proof. rewrite bannerBlock_eq, length_app. cbn. lia. Qed.

Lemma bannerBlock_marker m rest :
  startsWith (bannerBlock m ++ rest) BANNER_MARKER = true.
Proof.
  unfold bannerBlock, startsWith.
  rewrite <- (app_assoc BANNER_MARKER). apply isPrefix_app.
Qed.

(** The document the pipeline builds from a plain body. *)
Lemma pipeline_shape b m target now :
  lineSafe m now -> truthy target = true ->
  startsWith b FM_OPEN = false -> includes b BANNER_MARKER = false ->
  processFileContent b m (allOn target) now
  = headerBlock m now ++ bannerBlock m ++ backlinkLine target ++ LF :: b.
Proof.
  intros Hsafe Ht Hs Hi.
  pose proof Hsafe as (Ho & Hr & _ & Hu & _).
  pose proof (headerBlock_end m now (LF :: b) Hsafe) as He.
  assert (addFrontmatterIfMissing b m now = headerBlock m now ++ LF :: b) as E1.
  { unfold addFrontmatterIfMissing. rewrite Hs, frontmatterBlock_headerBlock.
    by rewrite <- app_assoc. }
  unfold processFileContent, allOn.
  cbn [optAddFrontmatter optAddReadonlyBanner optAddBacklinks optBacklinkTarget].
  rewrite Ht, E1, (banner_backlink_closed _ _ _ _ He).
  rewrite take_app_length, drop_app_length. f_equal.
  assert (insertBanner (LF :: b) m = bannerBlock m ++ LF :: b) as ->.
  { unfold insertBanner, includes in *. cbn [find_sub isPrefix BANNER_MARKER].
    change (62 =? LF)%N with false. cbn [andb].
    by destruct (find_sub BANNER_MARKER b). }
  unfold insertBacklink, backlinkOffset.
  rewrite bannerBlock_marker, bannerBlock_blank by done.
  pose proof (bannerBlock_length m).
  replace (length (bannerBlock m) - 2 + 2) with (length (bannerBlock m)) by lia.
  by rewrite drop_app_length, take_app_length.
Qed.

Lemma strip_header content e :
  headerEnd content = Some e ->
  includes (substring content 4 (Z.of_nat (e - 5))) (K_REPO ++ [COLON]) = true ->
  stripSyncedContent content = stripBody (drop e content).
Proof.
  intros (Hs & Hf & He)%headerEnd_Some Hi.
  unfold stripSyncedContent, stripBody. cbv zeta.
  rewrite Hs, (indexOf_Some _ _ _ Hf), Hi.
  destruct (Z.eqb_spec (Z.of_nat (e - 5)) (-1)); [lia|].
  replace (Z.of_nat (e - 5) + 5)%Z with (Z.of_nat e) by lia.
  by rewrite substringFrom_nat by lia.
Qed.

Lemma stripBody_blocks m target b :
  noLF (owner m) -> noLF (repo m) -> noLF (githubUrl m) ->
  noLineTerminator target ->
  stripBody (bannerBlock m ++ backlinkLine target ++ LF :: b) = trimStart b.
Proof.
  intros Ho Hr Hu Ht. unfold stripBody. cbv zeta.
  pose proof (bannerBlock_length m) as Hl.
  assert (indexOf (bannerBlock m ++ backlinkLine target ++ LF :: b)
            BANNER_MARKER = 0%Z) as ->.
  { apply (indexOf_Some _ _ 0). unfold bannerBlock.
    rewrite <- (app_assoc BANNER_MARKER). apply find_sub_here. }
  cbn [Z.eqb].
  assert (indexOfFrom (bannerBlock m ++ backlinkLine target ++ LF :: b)
            BLANK 0 = Z.of_nat (length (bannerBlock m) - 2)) as ->.
  { unfold indexOfFrom. rewrite clampIndex_neg by lia. rewrite drop_0.
    by rewrite bannerBlock_blank. }
  destruct (Z.eqb_spec (Z.of_nat (length (bannerBlock m) - 2)) (-1)); [lia|].
  replace (Z.of_nat (length (bannerBlock m) - 2) + 2)%Z
    with (Z.of_nat (length (bannerBlock m))) by lia.
  rewrite (substring_0 _ 0), take_0 by lia.
  rewrite substringFrom_nat by (rewrite length_app; lia).
  rewrite drop_app_length. cbn [app].
  rewrite matchBacklink_line by done.
  by rewrite drop_app_length.
Qed.

Lemma headerBlock_has_key m now rest :
  includes
    (substring (headerBlock m now ++ rest) 4
       (Z.of_nat (length (headerBlock m now) - 5)))
    (K_REPO ++ [COLON]) = true.
Proof.
  assert (length (headerBlock m now)
          = 4 + length (join (headerLines m now) [LF]) + 5) as Hlen.
  { unfold headerBlock. rewrite !length_app. simpl. lia. }
  unfold substring.
  rewrite (clampIndex_nat _ 4), clampIndex_nat by (rewrite length_app; lia).
  rewrite Nat.max_r, Nat.min_l by lia.
  replace (length (headerBlock m now) - 5 - 4)
    with (length (join (headerLines m now) [LF])) by lia.
  unfold headerBlock. rewrite <- (app_assoc FM_OPEN).
  rewrite (drop_app_length' FM_OPEN) by done.
  rewrite take_app3_length. reflexivity.
Qed.

End RoundTrip.

(** C2 (as amended). Stripping the pipeline's output gives the body back
    exactly, for every body that does not begin with ["---\n"], does not
    contain the banner marker and does not begin with white space (the
    last step of the strip trims it), every metadata and clock reading
    without a line feed, and every non-empty backlink target without a
    line terminator. That the body has no backlink line is not needed. *)
Theorem strip_pipeline_roundtrip (b : jsstring) (m : FileMetadata)
    (target now : jsstring) :
  startsWith b FM_OPEN = false ->
  includes b BANNER_MARKER = false ->
  trimStart b = b ->
  lineSafe m now ->
  truthy target = true ->
  noLineTerminator target ->
  stripSyncedContent (processFileContent b m (allOn target) now) = b.
Proof.
  intros Hs Hi Htrim Hsafe Ht Hlt.
  pose proof Hsafe as (Ho & Hr & _ & Hu & _).
  rewrite pipeline_shape by done.
  rewrite (strip_header _ (length (headerBlock m now)));
    [|by apply headerBlock_end|apply headerBlock_has_key].
  by rewrite drop_app_length, stripBody_blocks.
Qed.

Lemma strip_pipeline_witness :
  stripSyncedContent
    (processFileContent (lit "hello") ex_meta (allOn ex_target) ex_now1)
  = lit "hello".
Proof.
  apply strip_pipeline_roundtrip;
    [reflexivity | reflexivity | reflexivity
    | repeat split; forall_lit | reflexivity | forall_lit].
Defined.

(** C2, counterexample. A body that begins with white space has no
    header, no banner and no backlink line, and does not come back: the
    strip trims it. *)
Lemma strip_pipeline_trims_body :
  startsWith (lit " hello") FM_OPEN = false
  /\ includes (lit " hello") BANNER_MARKER = false
  /\ matchBacklink (lit " hello") = None
  /\ stripSyncedContent
       (processFileContent (lit " hello") ex_meta (allOn ex_target) ex_now1)
     = lit "hello"
  /\ stripSyncedContent
       (processFileContent (lit " hello") ex_meta (allOn ex_target) ex_now1)
     <> lit " hello".
Proof.
  split; [reflexivity|]. split; [reflexivity|]. split; [reflexivity|].
  split; [vm_compute; reflexivity|vm_compute; discriminate].
Qed.

(** * Paths: [split] and [join] *)

Section Segments.
Implicit Types (s a : jsstring) (sep : N) (segs : list jsstring).

Lemma split_nonempty s sep : split s sep <> [].
Proof. destruct s as [|c s]; simpl; [done|]. destruct (c =? sep)%N; [done|]. by destruct (split s sep). Qed.

Lemma split_sep a s sep :
  Forall (fun c => c <> sep) a -> split (a ++ sep :: s) sep = a :: split s sep.
Proof.
  induction 1 as [|c a Hc Ha IH]; simpl.
  - by rewrite N.eqb_refl.
  - apply N.eqb_neq in Hc as ->. by rewrite IH.
Qed.

Lemma split_plain a sep : Forall (fun c => c <> sep) a -> split a sep = [a].
Proof.
  induction 1 as [|c a Hc Ha IH]; simpl; [done|].
  apply N.eqb_neq in Hc as ->. by rewrite IH.
Qed.

Lemma split_join segs sep :
  segs <> [] -> Forall (Forall (fun c => c <> sep)) segs ->
  split (join segs [sep]) sep = segs.
Proof.
  induction segs as [|a [|a' segs] IH]; intros Hne Hs; [done|..].
  - cbn [join]. apply split_plain. by apply Forall_cons in Hs as [? _].
  - apply Forall_cons in Hs as [Ha Hs].
    change (join (a :: a' :: segs) [sep]) with (a ++ sep :: join (a' :: segs) [sep]).
    rewrite split_sep by done. f_equal. by apply IH.
Qed.

Lemma join_split s sep : join (split s sep) [sep] = s.
Proof.
  induction s as [|c s IH]; simpl; [done|].
  destruct (c =? sep)%N eqn:E.
  - apply N.eqb_eq in E as ->.
    destruct (split s sep) eqn:Es; [by apply split_nonempty in Es|].
    cbn [join app] in *. by rewrite IH.
  - destruct (split s sep) as [|w ws] eqn:Es; [by apply split_nonempty in Es|].
    destruct ws; cbn [join app] in *; by rewrite <- IH.
Qed.

Lemma split_segments s sep : Forall (Forall (fun c => c <> sep)) (split s sep).
Proof.
  induction s as [|c s IH]; simpl; [by repeat constructor|].
  destruct (N.eqb_spec c sep) as [->|Hne]; [by constructor|].
  destruct (split s sep) as [|w ws]; [by repeat constructor|].
  apply Forall_cons in IH as [Hw Hws]. by repeat constructor.
Qed.

End Segments.

(** C8. The backlink target as a function of the remote path: a file at
    the root of the repository points to the base folder, a file one
    directory down to the README of the repository root, and a file two
    or more directories down to the README one directory up. *)
Theorem backlink_target_by_depth (settings : Settings)
    (owner repo : jsstring) (dirs : list jsstring) (file : jsstring) :
  let baseFolderPath := baseFolder settings ++ [SLASH] ++ owner ++ [SLASH] ++ repo in
  calculateBacklinkTarget settings baseFolderPath (lit "README.md")
  = baseFolder settings
  /\ calculateBacklinkTarget settings baseFolderPath (lit "docs/guide.md")
     = baseFolderPath ++ lit "/README"
  /\ calculateBacklinkTarget settings baseFolderPath (lit "docs/guides/deploy.md")
     = baseFolderPath ++ lit "/docs/README"
  /\ (Forall noSlash dirs -> noSlash file ->
      calculateBacklinkTarget settings baseFolderPath
        (join (dirs ++ [file]) [SLASH])
      = match dirs with
        | [] => baseFolder settings
        | [_] => baseFolderPath ++ lit "/README"
        | _ :: _ :: _ =>
            baseFolderPath ++ [SLASH] ++ join (removelast dirs) [SLASH]
            ++ lit "/README"
        end).
Proof.
  intros bfp. split; [reflexivity|]. split; [reflexivity|]. split; [reflexivity|].
  intros Hd Hf. unfold calculateBacklinkTarget.
  rewrite split_join;
    [|by destruct dirs|apply Forall_app; split; [done|by constructor]].
  rewrite removelast_last.
  destruct dirs as [|d [|d' dirs]]; [done|done|].
  assert (removelast (d :: d' :: dirs) <> []) as Hne by done.
  destruct (removelast (d :: d' :: dirs)); [done|]. done.
Qed.

Lemma backlink_target_witness :
  calculateBacklinkTarget ex_settings (lit "Projects/octo/notes")
    (lit "a/b/c/d.md")
  = lit "Projects/octo/notes/a/b/README".
Proof.
  pose proof (backlink_target_by_depth ex_settings (lit "octo") (lit "notes")
                [lit "a"; lit "b"; lit "c"] (lit "d.md")) as (_ & _ & _ & H).
  apply H; [|forall_lit].
  repeat (apply Forall_cons; split; [forall_lit|]). constructor.
Defined.

(** * Discovery: filtering and pagination *)

Section Filter.
Variable isMatch : jsstring -> jsstring -> bool.

Lemma filter_body (priv ip arch ia fk ifk g mt : bool) :
  (if negb ip && priv then false
   else if negb ia && arch then false
   else if negb ifk && fk then false
   else if g then (if negb mt then false else true)
   else true) = true
  <-> (priv = false \/ ip = true) /\ (arch = false \/ ia = true)
      /\ (fk = false \/ ifk = true) /\ (g = false \/ mt = true).
Proof.
  transitivity ((ip || negb priv) && (ia || negb arch) && (ifk || negb fk)
                && (negb g || mt) = true).
  { by destruct priv, ip, arch, ia, fk, ifk, g, mt. }
  rewrite !andb_true_iff, !orb_true_iff, !negb_true_iff. tauto.
Qed.

Lemma glob_filters (glob : jsstring) :
  truthy glob && negb (bool_decide (glob = lit "*")) = false
  <-> glob = [] \/ glob = lit "*".
Proof.
  destruct glob as [|c g]; cbn [truthy andb]; [by intuition|].
  case_bool_decide; cbn [negb]; intuition congruence.
Qed.

Lemma filterRepositories_In (repos : list GitHubRepo) (filters : AutoDefaults)
    (r : GitHubRepo) :
  In r (filterRepositories isMatch repos filters)
  <-> In r repos
      /\ (private r = false \/ includePrivate filters = true)
      /\ (archived r = false \/ includeArchived filters = true)
      /\ (fork r = false \/ includeForks filters = true)
      /\ (repoGlob filters = [] \/ repoGlob filters = lit "*"
          \/ isMatch (name r) (repoGlob filters) = true).
Proof.
  unfold filterRepositories. rewrite filter_In, filter_body, glob_filters.
  intuition.
Qed.

End Filter.

(** C9 (as amended). The example of the spec: of a public repository, a
    private one and a fork, none archived and all with names the glob
    matches, the filter with [includePrivate = false] and
    [includeForks = false] keeps the public one alone. In general a
    repository passes iff it is not private or private ones are
    included, not archived or archived ones are included, not a fork or
    forks are included, and the glob is empty, is ["*"], or matches its
    name: an empty glob filters nothing, like ["*"]. *)
Theorem filter_composition (isMatch : jsstring -> jsstring -> bool)
    (withArchived : bool) (glob : jsstring) (na nb nc : jsstring) :
  let filters := {| includePrivate := false; includeForks := false;
                    includeArchived := withArchived; repoGlob := glob |} in
  let a := ex_repo na false false in
  let b := ex_repo nb true false in
  let c := ex_repo nc false true in
  ((forall r, In r [a; b; c] -> isMatch (name r) glob = true) ->
   filterRepositories isMatch [a; b; c] filters = [a])
  /\ forall (repos : list GitHubRepo) (f : AutoDefaults) (r : GitHubRepo),
       In r (filterRepositories isMatch repos f)
       <-> In r repos
           /\ (private r = false \/ includePrivate f = true)
           /\ (archived r = false \/ includeArchived f = true)
           /\ (fork r = false \/ includeForks f = true)
           /\ (repoGlob f = [] \/ repoGlob f = lit "*"
               \/ isMatch (name r) (repoGlob f) = true).
Proof.
  intros filters a b c. split; [|apply filterRepositories_In].
  intros Hm. pose proof (Hm a ltac:(by left)) as Ha.
  unfold filterRepositories, filters, a, b, c, ex_repo in *.
  cbn [List.filter includePrivate includeForks includeArchived
       repoGlob negb andb private fork archived name] in *.
  rewrite andb_false_r, Ha. cbn [negb].
  by destruct (truthy glob && negb (bool_decide (glob = lit "*"))).
Qed.

Lemma filter_composition_witness :
  filterRepositories wildcardMatch
    [ex_repo (lit "api") false false; ex_repo (lit "app") true false;
     ex_repo (lit "art") false true]
    {| includePrivate := false; includeForks := false;
       includeArchived := false; repoGlob := lit "a*" |}
  = [ex_repo (lit "api") false false].
Proof.
  pose proof (filter_composition wildcardMatch false (lit "a*")
                (lit "api") (lit "app") (lit "art")) as [H _].
  apply H. intros r [<-|[<-|[<-|[]]]]; reflexivity.
Defined.

(** C9, counterexample. With an empty glob the filter keeps a repository
    although the glob is not ["*"] and does not match its name. *)
Lemma filter_empty_glob_keeps_all :
  let filters := {| includePrivate := false; includeForks := false;
                    includeArchived := false; repoGlob := [] |} in
  let a := ex_repo (lit "api") false false in
  In a (filterRepositories wildcardMatch [a] filters)
  /\ repoGlob filters <> lit "*"
  /\ wildcardMatch (name a) (repoGlob filters) = false.
Proof. split; [by left|]. split; [discriminate|reflexivity]. Qed.


Section Pagination.
Variable request : nat -> Result (list GitHubRepo).

(** A page shorter than the page size ends the loop at once. *)
Lemma getUserRepos_short_page fuel page repos asked pageRepos :
  request page = Ok pageRepos -> length pageRepos < perPage ->
  getUserRepos_loop request (S fuel) page repos asked
  = Some (Ok (repos ++ pageRepos), asked ++ [page]).
Proof.
  intros Hr Hl. cbn [getUserRepos_loop]. rewrite Hr.
  destruct pageRepos as [|r rs]; cbn [length Nat.eqb].
  - by rewrite app_nil_r.
  - apply Nat.ltb_lt in Hl. cbn [length] in Hl. by rewrite Hl.
Qed.

(** A full page sends the loop to the next page. *)
Lemma getUserRepos_full_page fuel page repos asked pageRepos :
  request page = Ok pageRepos -> length pageRepos = perPage ->
  getUserRepos_loop request (S fuel) page repos asked
  = getUserRepos_loop request fuel (page + 1) (repos ++ pageRepos)
      (asked ++ [page]).
Proof.
  intros Hr Hl. cbn [getUserRepos_loop]. rewrite Hr, Hl.
  by change (perPage =? 0) with false; change (perPage <? perPage) with false.
Qed.

End Pagination.

(** C7. A full first page followed by an empty second page: the call
    returns the two pages concatenated after exactly the requests for
    pages 1 and 2. And wherever the loop stands, a page shorter than the
    page size ends it with that request as the last. *)
Theorem pagination_stops (request : nat -> Result (list GitHubRepo)) :
  (forall page1 fuel,
     request 1 = Ok page1 -> length page1 = perPage -> request 2 = Ok [] ->
     2 <= fuel ->
     getUserRepos request fuel = Some (Ok (page1 ++ []), [1; 2]))
  /\ (forall fuel page repos asked pageRepos,
       request page = Ok pageRepos -> length pageRepos < perPage ->
       getUserRepos_loop request (S fuel) page repos asked
       = Some (Ok (repos ++ pageRepos), asked ++ [page])).
Proof.
  split; [|apply getUserRepos_short_page].
  intros page1 fuel H1 Hl H2 Hf.
  destruct fuel as [|[|fuel]]; [lia..|].
  unfold getUserRepos.
  rewrite (getUserRepos_full_page _ _ _ _ _ _ H1 Hl).
  rewrite (getUserRepos_short_page _ _ _ _ _ _ H2) by (cbn; unfold perPage; lia).
  done.
Qed.

Lemma pagination_witness :
  getUserRepos
    (fun page => if page =? 1
                 then Ok (replicate perPage (ex_repo (lit "api") false false))
                 else Ok [])
    5
  = Some (Ok (replicate perPage (ex_repo (lit "api") false false) ++ []), [1; 2]).
Proof.
  pose proof (pagination_stops
    (fun page => if page =? 1
                 then Ok (replicate perPage (ex_repo (lit "api") false false))
                 else Ok [])) as [H _].
  apply H; [reflexivity|apply length_replicate|reflexivity|lia].
Defined.

(** * What [extractGitHubMetadata] accepts *)

Section Provenance.
Implicit Types (content rest line : jsstring) (m : FileMetadata).

Lemma scanLine_repo acc line :
  lineKey line <> K_REPO -> (scanLine acc line).1.1 = acc.1.1.
Proof.
  intros Hk. unfold scanLine, lineKey in *. destruct acc as [[a b] c].
  destruct (split line COLON) as [|key parts]; [done|]. cbn [hd] in Hk.
  rewrite bool_decide_eq_false_2 by done.
  by repeat case_bool_decide.
Qed.

Lemma scanLine_path acc line :
  lineKey line <> K_PATH -> (scanLine acc line).1.2 = acc.1.2.
Proof.
  intros Hk. unfold scanLine, lineKey in *. destruct acc as [[a b] c].
  destruct (split line COLON) as [|key parts]; [done|]. cbn [hd] in Hk.
  case_bool_decide; [done|]. rewrite bool_decide_eq_false_2 by done.
  by case_bool_decide.
Qed.

Lemma scanLine_url acc line :
  lineKey line <> K_URL -> (scanLine acc line).2 = acc.2.
Proof.
  intros Hk. unfold scanLine, lineKey in *. destruct acc as [[a b] c].
  destruct (split line COLON) as [|key parts]; [done|]. cbn [hd] in Hk.
  do 2 (case_bool_decide; [done|]). by rewrite bool_decide_eq_false_2.
Qed.

Lemma scan_without_key (f : jsstring * jsstring * jsstring -> jsstring) k lines acc :
  (forall a line, lineKey line <> k -> f (scanLine a line) = f a) ->
  existsb (fun line => bool_decide (lineKey line = k)) lines = false ->
  f (foldl scanLine acc lines) = f acc.
Proof.
  intros Hf. revert acc. induction lines as [|l lines IH]; intros acc; [done|].
  cbn [existsb foldl]. intros [Hl Hls]%orb_false_elim.
  rewrite IH by done. apply Hf. by apply bool_decide_eq_false_1 in Hl.
Qed.

(** A header block without one of the three keys is no provenance. *)
Lemma extract_missing_key content :
  hasKey K_REPO content = false \/ hasKey K_PATH content = false
  \/ hasKey K_URL content = false ->
  extractGitHubMetadata content = None.
Proof.
  intros H. unfold extractGitHubMetadata, hasKey, frontmatterOf in *.
  destruct (startsWith content FM_OPEN); [|done]. cbn [negb].
  destruct (indexOf content FM_CLOSE =? -1)%Z; [done|].
  set (lines := split (substring content 4 (indexOf content FM_CLOSE)) LF) in *.
  destruct (foldl scanLine ([], [], []) lines) as [[r p] u] eqn:E.
  destruct H as [H|[H|H]].
  - pose proof (scan_without_key (fun a => a.1.1) _ _ ([], [], [])
                  (fun a l => scanLine_repo a l) H) as Hr.
    rewrite E in Hr. cbn in Hr. by subst r.
  - pose proof (scan_without_key (fun a => a.1.2) _ _ ([], [], [])
                  (fun a l => scanLine_path a l) H) as Hp.
    rewrite E in Hp. cbn in Hp. subst p. cbn. by rewrite orb_true_r.
  - pose proof (scan_without_key (fun a => a.2) _ _ ([], [], [])
                  (fun a l => scanLine_url a l) H) as Hu.
    rewrite E in Hu. cbn in Hu. subst u. cbn. by rewrite !orb_true_r.
Qed.

Lemma trimStart_solid s :
  Forall (fun c => isWhiteSpace c = false) s -> trimStart s = s.
Proof. destruct 1 as [|c s Hc _]; [done|]. cbn. by rewrite Hc. Qed.

Lemma trim_solid s :
  Forall (fun c => isWhiteSpace c = false) s -> trim s = s.
Proof.
  intros H. unfold trim, trimEnd. rewrite (trimStart_solid s H).
  rewrite trimStart_solid by by apply Forall_rev. apply rev_involutive.
Qed.

Lemma scanLine_kv acc key v :
  Forall (fun c => c <> COLON) key ->
  scanLine acc (key ++ COLON :: v)
  = let '(r, p, u) := acc in
    if bool_decide (trim key = K_REPO) then (trim v, p, u)
    else if bool_decide (trim key = K_PATH) then (r, trim v, u)
    else if bool_decide (trim key = K_URL) then (r, p, trim v)
    else acc.
Proof.
  intros Hk. unfold scanLine. destruct acc as [[r p] u].
  by rewrite split_sep, join_split.
Qed.

Lemma headerBlock_frontmatter m now rest :
  substring (headerBlock m now ++ rest) 4
    (Z.of_nat (length (headerBlock m now) - 5))
  = join (headerLines m now) [LF].
Proof.
  assert (length (headerBlock m now)
          = 4 + length (join (headerLines m now) [LF]) + 5) as Hlen.
  { unfold headerBlock. rewrite !length_app. simpl. lia. }
  unfold substring.
  rewrite (clampIndex_nat _ 4), clampIndex_nat by (rewrite length_app; lia).
  rewrite Nat.max_r, Nat.min_l by lia.
  replace (length (headerBlock m now) - 5 - 4)
    with (length (join (headerLines m now) [LF])) by lia.
  unfold headerBlock. rewrite <- (app_assoc FM_OPEN).
  rewrite (drop_app_length' FM_OPEN) by done.
  by rewrite take_app3_length.
Qed.

Lemma token_solid s : token s -> Forall (fun c => isWhiteSpace c = false) s.
Proof. intros [_ H]. eapply Forall_impl; [done|]. by intros c [? _]. Qed.

Lemma token_noSlash s : token s -> Forall (fun c => c <> SLASH) s.
Proof. intros [_ H]. eapply Forall_impl; [done|]. by intros c [_ ?]. Qed.

(** The header the template renders extracts back. *)
Lemma extract_generated m now rest :
  provenance m now ->
  exists br,
    extractGitHubMetadata (frontmatterBlock m now ++ rest)
    = Some {| owner := owner m; repo := repo m; branch := br;
              path := trim (path m); githubUrl := trim (githubUrl m) |}.
Proof.
  intros (Hsafe & Ho & Hr & Hp & Hu).
  rewrite frontmatterBlock_headerBlock, <- app_assoc.
  pose proof (headerBlock_end m now ([LF] ++ rest) Hsafe)
    as (Hs & Hf & _)%headerEnd_Some.
  destruct (headerLines_plain m now Hsafe) as [Hlf _].
  unfold extractGitHubMetadata.
  rewrite Hs, (indexOf_Some _ _ _ Hf). cbn [negb].
  destruct (Z.eqb_spec (Z.of_nat (length (headerBlock m now) - 5)) (-1)); [lia|].
  rewrite headerBlock_frontmatter, split_join by done.
  unfold headerLines. cbn [foldl].
  change (lit "github_repo: " ++ ?x) with (K_REPO ++ COLON :: 32%N :: x).
  change (lit "github_path: " ++ ?x) with (K_PATH ++ COLON :: 32%N :: x).
  change (lit "github_url: " ++ ?x) with (K_URL ++ COLON :: 32%N :: x).
  change (lit "synced_at: " ++ ?x) with (lit "synced_at" ++ COLON :: 32%N :: x).
  change (lit "readonly: true") with (lit "readonly" ++ COLON :: lit " true").
  rewrite !scanLine_kv by forall_lit. cbn [fst snd].
  change (bool_decide (trim K_REPO = K_REPO)) with true.
  change (bool_decide (trim K_PATH = K_REPO)) with false.
  change (bool_decide (trim K_PATH = K_PATH)) with true.
  change (bool_decide (trim K_URL = K_REPO)) with false.
  change (bool_decide (trim K_URL = K_PATH)) with false.
  change (bool_decide (trim K_URL = K_URL)) with true.
  change (bool_decide (trim (lit "synced_at") = ?k)) with false.
  change (bool_decide (trim (lit "readonly") = ?k)) with false.
  cbv iota.
  change (trim (32%N :: ?x)) with (trim x).
  assert (trim (owner m ++ [SLASH] ++ repo m) = owner m ++ SLASH :: repo m) as ->.
  { apply trim_solid, Forall_app. split; [by apply token_solid|].
    constructor; [done|by apply token_solid]. }
  rewrite Hp, Hu.
  assert (truthy (owner m ++ SLASH :: repo m) = true) as ->
    by (destruct Ho as [Hne _]; by destruct (owner m)).
  cbn [negb orb].
  rewrite split_sep by by apply token_noSlash.
  rewrite split_plain by by apply token_noSlash.
  assert (truthy (owner m) = true) as ->
    by (destruct Ho as [Hne _]; by destruct (owner m)).
  assert (truthy (repo m) = true) as ->
    by (destruct Hr as [Hne _]; by destruct (repo m)).
  cbn [negb orb]. by eexists.
Qed.

End Provenance.

(** * The pruning walk *)

Section Pruning.
Variable toLowerCase : jsstring -> jsstring.
Variable settings : Settings.
Variable syncedFiles : gset jsstring.
Implicit Types (segs : list jsstring) (children : list TAbstractFile)
  (folderPath nm data : jsstring).

#[local] Abbreviation prune := (pruneFolder toLowerCase settings).
#[local] Abbreviation prune_ops := (pruneFolder_ops toLowerCase settings).
#[local] Abbreviation doomed := (pruneFile toLowerCase settings syncedFiles).
#[local] Abbreviation pruneChild :=
  (pruneFolder_child toLowerCase settings syncedFiles).

Lemma pruneFolder_eq n children folderPath :
  prune (TFolder n children) folderPath syncedFiles
  = List.flat_map (pruneChild folderPath) children.
Proof. reflexivity. Qed.

Lemma occursAt_nil segs node : ~ occursAt segs node [].
Proof.
  destruct segs as [|s [|s' segs]]; cbn; intros H;
    [done|by destruct H as [[] _]|by destruct H as (? & [] & _)].
Qed.

Lemma path_step folderPath s s' segs :
  folderPath ++ [SLASH] ++ join (s :: s' :: segs) [SLASH]
  = (folderPath ++ [SLASH] ++ s) ++ [SLASH] ++ join (s' :: segs) [SLASH].
Proof.
  change (join (s :: s' :: segs) [SLASH])
    with (s ++ [SLASH] ++ join (s' :: segs) [SLASH]).
  by rewrite <- !app_assoc.
Qed.

(** A file the walk does not pick stays where it is. *)
Lemma prune_keeps segs : forall n children folderPath nm data,
  occursAt segs (TFile nm data) children ->
  doomed (folderPath ++ [SLASH] ++ join segs [SLASH]) data = false ->
  occursAt segs (TFile nm data)
    (prune (TFolder n children) folderPath syncedFiles).
Proof.
  induction segs as [|s [|s' segs] IH]; intros n children folderPath nm data;
    [done|..]; rewrite pruneFolder_eq.
  - cbn [occursAt join fileName]. intros [Hin <-] Hd. split; [|done].
    apply in_flat_map. exists (TFile nm data). split; [done|].
    cbn [pruneFolder_child]. rewrite Hd. by left.
  - intros (chs & Hin & Hocc) Hd. rewrite path_step in Hd.
    specialize (IH s chs _ nm data Hocc Hd).
    exists (prune (TFolder s chs) (folderPath ++ [SLASH] ++ s) syncedFiles).
    split; [|done]. apply in_flat_map. exists (TFolder s chs). split; [done|].
    cbn [pruneFolder_child].
    destruct (prune (TFolder s chs) _ syncedFiles) eqn:E;
      [by apply occursAt_nil in IH|by left].
Qed.

(** A file the walk picks is gone, and its deletion was issued. *)
Lemma prune_removes segs : forall n children folderPath nm data,
  doomed (folderPath ++ [SLASH] ++ join segs [SLASH]) data = true ->
  ~ occursAt segs (TFile nm data)
      (prune (TFolder n children) folderPath syncedFiles).
Proof.
  induction segs as [|s [|s' segs] IH]; intros n children folderPath nm data;
    [by intros _ []|..]; rewrite pruneFolder_eq.
  - cbn [occursAt join fileName]. intros Hd [Hin <-].
    apply in_flat_map in Hin as (child & _ & Hin).
    destruct child as [n' d'|n' chs]; cbn [pruneFolder_child] in Hin.
    + destruct (doomed (folderPath ++ [SLASH] ++ n') d') eqn:E; [done|].
      cbn in Hin. destruct Hin as [[= -> ->]|[]]. congruence.
    + destruct (prune _ _ _); [done|]. cbn in Hin. by destruct Hin as [|[]].
  - intros Hd (chs' & Hin & Hocc). rewrite path_step in Hd.
    apply in_flat_map in Hin as (child & _ & Hin).
    destruct child as [n' d'|n' chs]; cbn [pruneFolder_child] in Hin.
    + destruct (doomed (folderPath ++ [SLASH] ++ n') d'); [done|].
      cbn in Hin. by destruct Hin as [|[]].
    + destruct (prune (TFolder n' chs) _ syncedFiles) eqn:E; [done|].
      cbn in Hin. destruct Hin as [[= -> <-]|[]]. rewrite <- E in Hocc.
      by eapply IH.
Qed.

Lemma pruneFolder_ops_eq n children folderPath :
  prune_ops (TFolder n children) folderPath syncedFiles
  = List.flat_map (fun child =>
      match child with
      | TFile n data =>
          if doomed (folderPath ++ [SLASH] ++ n) data
          then [OpDelete (folderPath ++ [SLASH] ++ n)] else []
      | TFolder _ _ => []
      end) children
    ++ List.flat_map (fun child =>
      match child with
      | TFile _ _ => []
      | TFolder n _ =>
          prune_ops child (folderPath ++ [SLASH] ++ n) syncedFiles
          ++ match prune child (folderPath ++ [SLASH] ++ n) syncedFiles with
             | [] => [OpDelete (folderPath ++ [SLASH] ++ n)]
             | _ :: _ => []
             end
      end) children.
Proof. reflexivity. Qed.

Lemma prune_deletes segs : forall n children folderPath nm data,
  occursAt segs (TFile nm data) children ->
  doomed (folderPath ++ [SLASH] ++ join segs [SLASH]) data = true ->
  In (OpDelete (folderPath ++ [SLASH] ++ join segs [SLASH]))
    (prune_ops (TFolder n children) folderPath syncedFiles).
Proof.
  induction segs as [|s [|s' segs] IH]; intros n children folderPath nm data;
    [done|..]; rewrite pruneFolder_ops_eq.
  - cbn [occursAt join fileName]. intros [Hin <-] Hd.
    apply in_or_app. left.
    apply in_flat_map. exists (TFile nm data). split; [done|].
    rewrite Hd. by left.
  - intros (chs & Hin & Hocc) Hd. apply in_or_app. right.
    rewrite path_step in Hd |- *.
    apply in_flat_map. exists (TFolder s chs). split; [done|].
    apply in_or_app. left. by eapply IH.
Qed.

(** The walk's test on a Markdown file outside the synced set. *)
Lemma pruneFile_markdown p data :
  p ∉ syncedFiles -> isMarkdownFile p = true ->
  doomed p data
  = match extractGitHubMetadata data with Some _ => true | None => false end.
Proof.
  intros Hp Hmd. unfold pruneFile, isMarkdownFile in *.
  rewrite bool_decide_eq_false_2 by done. cbn [negb]. by rewrite Hmd.
Qed.

End Pruning.

(** C1. Pruning safety. A Markdown file below the repository folder whose
    path is not in the synced set stays in place when its content has no
    leading header block (it does not begin with ["---\n"], or the block
    is never closed) or the block lacks one of [github_repo],
    [github_path], [github_url]; and it is deleted (the deletion is
    issued and the file is gone) when its content carries the header the
    system writes for well-formed metadata, or any header block that
    extracts to metadata. *)
Theorem pruning_safety (toLowerCase : jsstring -> jsstring)
    (settings : Settings) (syncedFiles : gset jsstring)
    (n : jsstring) (children : list TAbstractFile) (folderPath : jsstring)
    (segs : list jsstring) (nm data : jsstring) :
  let p := folderPath ++ [SLASH] ++ join segs [SLASH] in
  let kept :=
    pruneFolder toLowerCase settings (TFolder n children) folderPath syncedFiles in
  let deletions :=
    pruneFolder_ops toLowerCase settings (TFolder n children) folderPath
      syncedFiles in
  occursAt segs (TFile nm data) children ->
  p ∉ syncedFiles ->
  isMarkdownFile p = true ->
  ((headerEnd data = None \/ hasKey K_REPO data = false
    \/ hasKey K_PATH data = false \/ hasKey K_URL data = false) ->
   occursAt segs (TFile nm data) kept)
  /\ ((exists m now body,
         provenance m now /\ data = frontmatterBlock m now ++ body) ->
      In (OpDelete p) deletions /\ ~ occursAt segs (TFile nm data) kept)
  /\ (extractGitHubMetadata data <> None ->
      In (OpDelete p) deletions /\ ~ occursAt segs (TFile nm data) kept).
Proof.
  intros p kept deletions Hocc Hp Hmd.
  pose proof (pruneFile_markdown toLowerCase settings syncedFiles p data Hp Hmd)
    as Hd.
  assert (extractGitHubMetadata data <> None ->
          In (OpDelete p) deletions /\ ~ occursAt segs (TFile nm data) kept)
    as Hdel.
  { intros He. destruct (extractGitHubMetadata data); [|done].
    split; [by eapply prune_deletes|by apply prune_removes]. }
  split; [|split; [|done]].
  - intros Hno. apply prune_keeps; [done|]. fold p. rewrite Hd.
    destruct Hno as [Hno|Hno];
      [by rewrite extract_unclosed|by rewrite extract_missing_key].
  - intros (m & now & body & Hprov & ->). apply Hdel.
    by destruct (extract_generated m now body Hprov) as [br ->].
Qed.

Lemma pruning_safety_witness :
  let synced : gset jsstring := {[ lit "Projects/octo/notes/README.md" ]} in
  let kept :=
    pruneFolder (fun s => s) ex_settings (TFolder (lit "notes") ex_repoFolder)
      (lit "Projects/octo/notes") synced in
  let deletions :=
    pruneFolder_ops (fun s => s) ex_settings
      (TFolder (lit "notes") ex_repoFolder)
      (lit "Projects/octo/notes") synced in
  occursAt [lit "docs"; lit "mine.md"]
    (TFile (lit "mine.md") (lit "my own notes")) kept
  /\ In (OpDelete (lit "Projects/octo/notes" ++ [SLASH]
                    ++ join [lit "docs"; lit "old.md"] [SLASH])) deletions.
Proof.
  intros synced kept deletions.
  assert (forall p : jsstring,
            bool_decide (p = lit "Projects/octo/notes/README.md") = false ->
            p ∉ synced) as Hout.
  { intros p Hp ?%elem_of_singleton. by apply bool_decide_eq_false_1 in Hp. }
  split.
  - refine (proj1 (pruning_safety (fun s => s) ex_settings synced (lit "notes")
             ex_repoFolder (lit "Projects/octo/notes")
             [lit "docs"; lit "mine.md"] (lit "mine.md") (lit "my own notes")
             _ _ _) _).
    + eexists. split; [right; left; reflexivity|]. split; [|reflexivity].
      right. left. reflexivity.
    + apply Hout. vm_compute. reflexivity.
    + vm_compute. reflexivity.
    + left. vm_compute. reflexivity.
  - refine (proj1 (proj2 (proj2 (pruning_safety (fun s => s) ex_settings synced
             (lit "notes") ex_repoFolder (lit "Projects/octo/notes")
             [lit "docs"; lit "old.md"] (lit "old.md")
             (ex_synced "docs/old.md" "Old page") _ _ _)) _)).
    + eexists. split; [right; left; reflexivity|]. split; [|reflexivity].
      left. reflexivity.
    + apply Hout. vm_compute. reflexivity.
    + vm_compute. reflexivity.
    + vm_compute. discriminate.
Defined.

(** C10 (as amended). A content that begins with ["---\n"] never receives
    a provenance header, and its synced copy extracts to exactly what
    the remote content itself extracts to. That is nothing when the
    remote frontmatter is unclosed or lacks one of the three keys. The
    pruning walk decides on the Markdown copy by this extraction: where
    it is nothing the copy is never picked and stays below the folder,
    and where it is a metadata record (the remote file's own values) the
    copy is picked as soon as its path is outside the synced set: its
    deletion is issued and it is gone. (The fields of the metadata that
    go into the banner have no line feed.) *)
Theorem own_frontmatter_passes_through (content : jsstring)
    (m : FileMetadata) (options : ProcessOptions) (now : jsstring) :
  startsWith content FM_OPEN = true ->
  noLF (owner m) -> noLF (repo m) -> noLF (githubUrl m) ->
  let copy := processFileContent content m options now in
  addFrontmatterIfMissing content m now = content
  /\ extractGitHubMetadata copy = extractGitHubMetadata content
  /\ ((headerEnd content = None \/ hasKey K_REPO content = false
       \/ hasKey K_PATH content = false \/ hasKey K_URL content = false) ->
      extractGitHubMetadata copy = None)
  /\ forall (toLowerCase : jsstring -> jsstring) (settings : Settings)
       (syncedFiles : gset jsstring) (n : jsstring)
       (children : list TAbstractFile) (folderPath : jsstring)
       (segs : list jsstring) (nm : jsstring),
       let p := folderPath ++ [SLASH] ++ join segs [SLASH] in
       let kept :=
         pruneFolder toLowerCase settings (TFolder n children) folderPath
           syncedFiles in
       let deletions :=
         pruneFolder_ops toLowerCase settings (TFolder n children) folderPath
           syncedFiles in
       occursAt segs (TFile nm copy) children ->
       isMarkdownFile p = true ->
       match extractGitHubMetadata content with
       | None =>
           pruneFile toLowerCase settings syncedFiles p copy = false
           /\ occursAt segs (TFile nm copy) kept
       | Some _ =>
           p ∉ syncedFiles ->
           pruneFile toLowerCase settings syncedFiles p copy = true
           /\ In (OpDelete p) deletions
           /\ ~ occursAt segs (TFile nm copy) kept
       end.
Proof.
  intros Hs Ho Hr Hu copy.
  destruct (own_frontmatter_extracts content m options now Hs Ho Hr Hu)
    as [E1 E2].
  fold copy in E2.
  split; [done|]. split; [done|]. split.
  { intros [Hno|Hno]; rewrite E2;
      [by apply extract_unclosed|by apply extract_missing_key]. }
  intros toLowerCase settings syncedFiles n children folderPath segs nm
    p kept deletions Hocc Hmd.
  destruct (extractGitHubMetadata content) as [found|] eqn:Hex.
  - intros Hp.
    assert (pruneFile toLowerCase settings syncedFiles p copy = true) as Hd.
    { rewrite pruneFile_markdown by done. by rewrite E2. }
    split; [done|]. split.
    + subst deletions p. eapply prune_deletes; [exact Hocc|exact Hd].
    + subst kept p. by apply prune_removes.
  - assert (pruneFile toLowerCase settings syncedFiles p copy = false) as Hd.
    { unfold pruneFile. destruct (negb (bool_decide (p ∈ syncedFiles))); [|done].
      unfold isMarkdownFile in Hmd. rewrite Hmd. by rewrite E2. }
    split; [done|]. subst kept p. by apply prune_keeps.
Qed.

Lemma own_frontmatter_witness :
  addFrontmatterIfMissing ex_foreign ex_meta ex_now1 = ex_foreign
  /\ extractGitHubMetadata
       (processFileContent ex_foreign ex_meta (allOn ex_target) ex_now1)
     = extractGitHubMetadata ex_foreign
  /\ extractGitHubMetadata
       (processFileContent ex_foreign ex_meta (allOn ex_target) ex_now1)
     = None
  /\ pruneFile (fun s => s) ex_settings ∅
       (lit "Projects/octo/notes" ++ [SLASH] ++ join [lit "guide.md"] [SLASH])
       (processFileContent ex_foreign ex_meta (allOn ex_target) ex_now1)
     = false
  /\ occursAt [lit "guide.md"]
       (TFile (lit "guide.md")
          (processFileContent ex_foreign ex_meta (allOn ex_target) ex_now1))
       (pruneFolder (fun s => s) ex_settings
          (TFolder (lit "notes")
             [TFile (lit "guide.md")
                (processFileContent ex_foreign ex_meta (allOn ex_target)
                   ex_now1)])
          (lit "Projects/octo/notes") ∅).
Proof.
  destruct (own_frontmatter_passes_through ex_foreign ex_meta (allOn ex_target)
              ex_now1) as (E1 & E2 & E3 & Hprune);
    [reflexivity|forall_lit..|].
  split; [exact E1|]. split; [exact E2|].
  split; [apply E3; right; left; vm_compute; reflexivity|].
  specialize (Hprune (fun s => s) ex_settings ∅ (lit "notes")
                [TFile (lit "guide.md")
                   (processFileContent ex_foreign ex_meta (allOn ex_target)
                      ex_now1)]
                (lit "Projects/octo/notes") [lit "guide.md"] (lit "guide.md")).
  cbv zeta in Hprune.
  assert (extractGitHubMetadata ex_foreign = None) as Hnone
    by (vm_compute; reflexivity).
  rewrite Hnone in Hprune. apply Hprune.
  - split; [left; reflexivity|reflexivity].
  - vm_compute. reflexivity.
Defined.

(** C10, counterexample. A remote file whose own frontmatter already has
    the three keys begins with ["---\n"], is left without a header of the
    system's, and still its synced copy extracts to a metadata record:
    the pruning pass takes it for a file the system owns. *)
Lemma reimported_copy_is_system_owned :
  startsWith ex_reimported FM_OPEN = true
  /\ addFrontmatterIfMissing ex_reimported ex_meta ex_now1 = ex_reimported
  /\ extractGitHubMetadata
       (processFileContent ex_reimported ex_meta (allOn ex_target) ex_now1)
     <> None
  /\ pruneFile (fun s => s) ex_settings ∅
       (lit "Projects/octo/notes/docs/guide.md")
       (processFileContent ex_reimported ex_meta (allOn ex_target) ex_now1)
     = true.
Proof.
  split; [reflexivity|]. split; [reflexivity|].
  split; [vm_compute; discriminate|vm_compute; reflexivity].
Qed.


(** * Running vault computations *)

Section Running.
Context {A B : Type}.
Implicit Types (w : World) (v : list TAbstractFile).

Lemma run_ret (a : A) w : run (mret a) w = (Ok a, w).
Proof. reflexivity. Qed.

Lemma run_bind (m : M A) (k : A -> M B) w :
  run (m ≫= k) w
  = match run m w with
    | (Ok a, w') => run (k a) w'
    | (Throw, w') => (Throw, w')
    end.
Proof. reflexivity. Qed.

Lemma run_throw w : run (@throw A) w = (Throw, w).
Proof. reflexivity. Qed.

Lemma run_tryCatch (m : M A) w :
  run (tryCatch m) w
  = match run m w with
    | (Ok a, w') => (Ok (Some a), w')
    | (Throw, w') => (Ok None, w')
    end.
Proof. reflexivity. Qed.

Lemma run_await (r : Result A) w :
  run (await r) w = (r, w).
Proof. by destruct r. Qed.

End Running.

Lemma run_getAbstractFileByPath p w :
  run (getAbstractFileByPath p) w = (Ok (lookupSegs (split p SLASH) (vault w)), w).
Proof. reflexivity. Qed.

Section Paths.
Implicit Types (s a leaf : jsstring) (segs : list jsstring)
  (v : list TAbstractFile).

Lemma split_app_sep a s sep :
  split (a ++ sep :: s) sep = split a sep ++ split s sep.
Proof.
  induction a as [|c a IH]; cbn [app split].
  - by rewrite N.eqb_refl.
  - destruct (c =? sep)%N; [by rewrite IH|]. rewrite IH.
    destruct (split a sep) eqn:E; [by apply split_nonempty in E|done].
Qed.

Lemma join_snoc segs leaf sep :
  segs <> [] -> join (segs ++ [leaf]) [sep] = join segs [sep] ++ sep :: leaf.
Proof.
  induction segs as [|a [|a' segs] IH]; intros Hne; [done|done|].
  change (join ((a :: a' :: segs) ++ [leaf]) [sep])
    with (a ++ [sep] ++ join ((a' :: segs) ++ [leaf]) [sep]).
  rewrite IH by done.
  change (join (a :: a' :: segs) [sep]) with (a ++ [sep] ++ join (a' :: segs) [sep]).
  by rewrite <- !app_assoc.
Qed.

Lemma lastIndexOf_leaf a leaf c :
  Forall (fun d => d <> c) leaf ->
  lastIndexOf (a ++ c :: leaf) c = Z.of_nat (length a).
Proof.
  intros Hl. unfold lastIndexOf.
  rewrite rev_app_distr. cbn [rev]. rewrite <- app_assoc. cbn [app].
  rewrite find_sub_skip by by apply Forall_rev.
  cbn [find_sub isPrefix]. rewrite N.eqb_refl. cbn.
  rewrite length_rev, length_app. cbn [length]. f_equal. lia.
Qed.

(** A path with a slash, cut at its last slash. *)
Lemma path_cut s :
  2 <= length (split s SLASH) ->
  s = join (removelast (split s SLASH)) [SLASH] ++ SLASH :: leafName s
  /\ substring s 0 (lastIndexOf s SLASH) = join (parentSegs s) [SLASH]
  /\ split (join (parentSegs s) [SLASH]) SLASH = parentSegs s
  /\ split s SLASH = parentSegs s ++ [leafName s].
Proof.
  intros Hlen. unfold parentSegs, leafName.
  pose proof (split_segments s SLASH) as Hseg.
  pose proof (join_split s SLASH) as Hj.
  assert (split s SLASH <> []) as Hne by apply split_nonempty.
  pose proof (app_removelast_last [] Hne) as Hsnoc.
  set (segs := split s SLASH) in *.
  assert (removelast segs <> []) as Hne'.
  { destruct segs as [|x [|y l]]; cbn in *; [lia|lia|done]. }
  assert (s = join (removelast segs) [SLASH] ++ SLASH :: List.last segs []) as E.
  { rewrite <- join_snoc, <- Hsnoc by done. done. }
  assert (Forall (Forall (fun c => c <> SLASH)) (removelast segs)
          /\ Forall (fun c => c <> SLASH) (List.last segs [])) as [Hp Hl].
  { rewrite Hsnoc in Hseg. by apply Forall_app in Hseg as [? [? _]%Forall_cons]. }
  split; [done|]. split; [|split; [by apply split_join|done]].
  rewrite E at 1 2. rewrite lastIndexOf_leaf by done.
  rewrite substring_0 by (rewrite length_app; lia).
  by rewrite take_app_length.
Qed.

Lemma findChild_name n children node :
  findChild n children = Some node -> fileName node = n /\ In node children.
Proof.
  unfold findChild. intros H. apply find_some in H as [Hin Hn].
  by apply bool_decide_eq_true_1 in Hn.
Qed.

Lemma lookupSegs_app (a b : list jsstring) v node :
  a <> [] -> b <> [] ->
  lookupSegs (a ++ b) v = Some node ->
  exists n ch, lookupSegs a v = Some (TFolder n ch) /\ lookupSegs b ch = Some node.
Proof.
  revert v. induction a as [|s [|s' a] IH]; intros v Ha Hb; [done|..].
  - destruct b as [|t b]; [done|]. cbn [app lookupSegs].
    destruct (findChild s v) as [[n d|n ch]|]; [done| |done].
    intros H. by exists n, ch.
  - cbn [app lookupSegs] in *.
    destruct (findChild s v) as [[n d|n ch]|]; [done| |done].
    by apply IH.
Qed.

Lemma lookupSegs_prefix (a b : list jsstring) v node :
  a <> [] -> lookupSegs (a ++ b) v = Some node -> lookupSegs a v <> None.
Proof.
  intros Ha H. destruct b as [|t b].
  - rewrite app_nil_r in H. by rewrite H.
  - apply lookupSegs_app in H as (n & ch & -> & _); done.
Qed.

End Paths.

(** * The reconciler *)

Section Reconciler.
Variable toLowerCase : jsstring -> jsstring.
Variable atob : jsstring -> Result jsstring.
Variable getBlob : jsstring -> jsstring -> jsstring -> Result GitHubBlob.
Variable dateNow : jsstring -> jsstring -> GitHubTreeItem -> jsstring.
Variable settings : Settings.
Implicit Types (w : World) (pre folders : list jsstring).

Lemma truthy_join pre :
  pre <> [] -> Forall (fun s => truthy s = true) pre ->
  truthy (join pre [SLASH]) = true.
Proof.
  destruct pre as [|a [|a' pre]]; intros Hne Hall; [done|..];
    apply Forall_cons in Hall as [Ha _]; cbn [join]; by destruct a.
Qed.

(** Where every folder on the way exists, nothing is created. *)
Lemma ensureFolderExists_loop_existing folders : forall pre w,
  Forall (fun s => truthy s = true) (pre ++ folders) ->
  Forall noSlash (pre ++ folders) ->
  (forall k, 0 < k <= length folders ->
     lookupSegs (pre ++ take k folders) (vault w) <> None) ->
  run (ensureFolderExists_loop folders (join pre [SLASH])) w = (Ok tt, w).
Proof.
  induction folders as [|folder rest IH]; intros pre w Ht Hs Hl; [done|].
  cbn [ensureFolderExists_loop].
  assert (truthy folder = true) as Hf.
  { apply Forall_app in Ht as [_ Ht]. by apply Forall_cons in Ht as [? _]. }
  rewrite Hf. cbn [negb].
  assert ((if truthy (join pre [SLASH])
           then join pre [SLASH] ++ [SLASH] ++ folder else folder)
          = join (pre ++ [folder]) [SLASH]) as ->.
  { destruct pre as [|a pre]; [done|].
    rewrite truthy_join, join_snoc; [done..|].
    by apply Forall_app in Ht as [? _]. }
  rewrite run_bind, run_getAbstractFileByPath.
  rewrite split_join; [|by destruct pre|].
  2:{ rewrite cons_middle, app_assoc in Hs.
      by apply Forall_app in Hs as [? _]. }
  specialize (Hl 1 ltac:(cbn; lia)) as Hl1. simpl in Hl1. rewrite take_0 in Hl1.
  destruct (lookupSegs (pre ++ [folder]) (vault w)); [|done].
  rewrite run_bind, run_ret. apply IH.
  - by rewrite <- app_assoc.
  - by rewrite <- app_assoc.
  - intros k Hk. rewrite <- app_assoc. apply (Hl (S k)). cbn. lia.
Qed.

Lemma ensureFolderExists_existing p w node :
  2 <= length (split p SLASH) ->
  Forall (fun s => truthy s = true) (split p SLASH) ->
  lookupSegs (split p SLASH) (vault w) = Some node ->
  run (ensureFolderExists (substring p 0 (lastIndexOf p SLASH))) w = (Ok tt, w).
Proof.
  intros Hlen Ht Hl.
  destruct (path_cut p Hlen) as (_ & -> & Hsp & Hsnoc).
  unfold ensureFolderExists. rewrite Hsp.
  pose proof (split_segments p SLASH) as Hseg.
  rewrite Hsnoc in Ht, Hseg, Hl.
  apply Forall_app in Ht as [Ht _]. apply Forall_app in Hseg as [Hseg _].
  apply (ensureFolderExists_loop_existing (parentSegs p) []); [done..|].
  intros k Hk. cbn [app].
  rewrite <- (take_drop k (parentSegs p)), <- app_assoc in Hl.
  eapply lookupSegs_prefix; [|done].
  intros E. apply (f_equal length) in E. rewrite length_take in E. cbn in E. lia.
Qed.

End Reconciler.

Lemma run_vault_read p w n data :
  lookupSegs (split p SLASH) (vault w) = Some (TFile n data) ->
  run (vault_read p) w = (Ok data, w).
Proof. intros H. unfold vault_read. rewrite run_bind. cbn. by rewrite H. Qed.

Lemma run_vault_write p data op w n old :
  lookupSegs (split p SLASH) (vault w) = Some (TFile n old) ->
  run (vault_write p data op) w
  = (Ok tt, {| vault := alterChildren (parentSegs p)
                          (List.map (setData (leafName p) data)) (vault w);
               oplog := oplog w ++ [op] |}).
Proof. intros H. unfold vault_write. rewrite run_bind. cbn. by rewrite H. Qed.

Lemma localFilePath_deep baseFolderPath githubPath :
  2 <= length (split (getLocalFilePath baseFolderPath githubPath) SLASH).
Proof.
  unfold getLocalFilePath. cbn [app]. rewrite split_app_sep, length_app.
  pose proof (split_nonempty baseFolderPath SLASH).
  pose proof (split_nonempty githubPath SLASH).
  destruct (split baseFolderPath SLASH), (split githubPath SLASH); cbn; try done; lia.
Qed.

(** C6. Write gating. For a text file whose local path already holds a
    file, the reconciler compares the processed content with the file's
    content: when they are equal it does nothing at all (no operation is
    issued and the vault is as it was); when they differ it issues one
    [modify] of that path with the processed content, and nothing else. *)
Theorem write_gating (toLowerCase : jsstring -> jsstring)
    (atob : jsstring -> Result jsstring)
    (getBlob : jsstring -> jsstring -> jsstring -> Result GitHubBlob)
    (dateNow : jsstring -> jsstring -> GitHubTreeItem -> jsstring)
    (settings : Settings) (owner repo branch : jsstring)
    (fileItem : GitHubTreeItem) (baseFolderPath : jsstring) (w : World)
    (text nm existing : jsstring) :
  let localFilePath := getLocalFilePath baseFolderPath (item_path fileItem) in
  let processedContent :=
    processFileContent text
      {| owner := owner; repo := repo; branch := branch;
         path := item_path fileItem;
         githubUrl := buildFileUrl owner repo (item_path fileItem) branch |}
      {| optAddFrontmatter := addFrontmatter settings;
         optAddReadonlyBanner := addReadonlyBanner_ settings;
         optAddBacklinks := addBacklinks settings;
         optBacklinkTarget :=
           if addBacklinks settings
           then Some (calculateBacklinkTarget settings baseFolderPath
                        (item_path fileItem))
           else None |}
      (dateNow owner repo fileItem) in
  getFileContent toLowerCase atob getBlob owner repo fileItem = Ok (inl text) ->
  Forall (fun s => truthy s = true) (split localFilePath SLASH) ->
  lookupSegs (split localFilePath SLASH) (vault w) = Some (TFile nm existing) ->
  (processedContent = existing ->
   run (syncFile toLowerCase atob getBlob dateNow settings owner repo branch
          fileItem baseFolderPath) w
   = (Ok tt, w))
  /\ (processedContent <> existing ->
      run (syncFile toLowerCase atob getBlob dateNow settings owner repo branch
             fileItem baseFolderPath) w
      = (Ok tt,
         {| vault :=
              alterChildren (parentSegs localFilePath)
                (List.map (setData (leafName localFilePath) processedContent))
                (vault w);
            oplog := oplog w ++ [OpModify localFilePath processedContent] |})).
Proof.
  intros localFilePath processedContent Hfetch Hsegs Hfile.
  assert (forall b : bool,
    run (syncFile toLowerCase atob getBlob dateNow settings owner repo branch
           fileItem baseFolderPath) w
    = run (if negb (bool_decide (processedContent = existing))
           then vault_modify localFilePath processedContent
           else mret tt) w) as E.
  { intros _. unfold syncFile.
    rewrite run_bind, run_await, Hfetch.
    rewrite run_bind.
    rewrite (ensureFolderExists_existing _ _ (TFile nm existing));
      [|apply localFilePath_deep|done|done].
    rewrite run_bind, run_getAbstractFileByPath.
    fold localFilePath. rewrite Hfile.
    rewrite run_bind, run_bind, (run_vault_read _ _ _ _ Hfile), run_ret.
    done. }
  rewrite (E true). split; intros Hc.
  - by rewrite bool_decide_eq_true_2.
  - rewrite bool_decide_eq_false_2 by done. cbn [negb].
    by apply (run_vault_write _ _ _ _ nm existing).
Qed.

Lemma write_gating_witness :
  let sync w :=
    run (syncFile (fun s => s) (fun s => Ok s) ex_getBlob ex_dateNow ex_settings
           (lit "octo") (lit "notes") (lit "main")
           (ex_item "README.md" "sha-readme") (lit "Projects/octo/notes")) w in
  sync (ex_world ex_processed) = (Ok tt, ex_world ex_processed)
  /\ oplog (sync (ex_world (lit "stale"))).2
     = [OpModify (lit "Projects/octo/notes/README.md") ex_processed].
Proof.
  intros sync. split.
  - refine (proj1 (write_gating (fun s => s) (fun s => Ok s) ex_getBlob
             ex_dateNow ex_settings (lit "octo") (lit "notes") (lit "main")
             (ex_item "README.md" "sha-readme") (lit "Projects/octo/notes")
             (ex_world ex_processed) (lit "Notes") (lit "README.md")
             ex_processed _ _ _) _).
    + reflexivity.
    + vm_compute. repeat constructor.
    + reflexivity.
    + reflexivity.
  - unfold sync.
    rewrite (proj2 (write_gating (fun s => s) (fun s => Ok s) ex_getBlob
             ex_dateNow ex_settings (lit "octo") (lit "notes") (lit "main")
             (ex_item "README.md" "sha-readme") (lit "Projects/octo/notes")
             (ex_world (lit "stale")) (lit "Notes") (lit "README.md")
             (lit "stale") eq_refl ltac:(vm_compute; repeat constructor)
             eq_refl)).
    + reflexivity.
    + apply (bool_decide_eq_false_1 _). vm_compute. reflexivity.
Defined.

(** * Frame: what a sync of one file leaves alone *)

Section Frame.
Implicit Types (w : World) (v children : list TAbstractFile)
  (segs q : list jsstring) (nm data leaf : jsstring).

Lemma findChild_map (g : TAbstractFile -> TAbstractFile) n children :
  (forall c, fileName (g c) = fileName c) ->
  findChild n (List.map g children) = g <$> findChild n children.
Proof.
  intros Hg. unfold findChild.
  induction children as [|c children IH]; [done|].
  cbn [List.map find]. rewrite Hg.
  by destruct (bool_decide (fileName c = n)).
Qed.

Lemma findChild_app n children extra x :
  findChild n children = Some x -> findChild n (children ++ extra) = Some x.
Proof.
  unfold findChild. induction children as [|c children IH]; [done|].
  cbn [app find]. by destruct (bool_decide (fileName c = n)).
Qed.

Lemma stable_append (node : TAbstractFile) :
  stable (fun ch => ch ++ [node]) (fun _ => False).
Proof. intros children n x Hx _. by apply findChild_app. Qed.

Lemma setData_name leaf d c : fileName (setData leaf d c) = fileName c.
Proof. destruct c as [n' ?|]; cbn; [|done]. by case_bool_decide. Qed.

Lemma stable_setData leaf d :
  stable (List.map (setData leaf d)) (fun n => n = leaf).
Proof.
  intros children n x Hx Hok.
  rewrite findChild_map by apply setData_name. rewrite Hx. cbn. f_equal.
  apply findChild_name in Hx as [Hn _].
  destruct x as [n' d'|]; cbn in *; [|done]. subst n'.
  by rewrite bool_decide_eq_false_2.
Qed.

(** A file away from the place that is rewritten stays as it is. *)
Lemma lookupSegs_alter_file f avoid segs : forall q v nm data,
  stable f avoid ->
  (forall n, segs = q ++ [n] -> ~ avoid n) ->
  lookupSegs segs v = Some (TFile nm data) ->
  lookupSegs segs (alterChildren q f v) = Some (TFile nm data).
Proof.
  induction segs as [|s rest IH]; intros q v nm data Hf Hq Hl; [done|].
  cbn [lookupSegs] in Hl.
  destruct (findChild s v) as [node|] eqn:Hc; [|done].
  destruct q as [|t q]; cbn [alterChildren lookupSegs].
  - destruct rest as [|s' rest].
    + injection Hl as ->.
      rewrite (Hf _ _ _ Hc); [done|]. cbn. by apply Hq.
    + destruct node as [|n ch]; [done|].
      by rewrite (Hf _ _ _ Hc).
  - rewrite findChild_map by (intros [|n' ch]; [done|]; by case_bool_decide).
    rewrite Hc. cbn [fmap option_fmap option_map].
    destruct rest as [|s' rest].
    + injection Hl as ->. done.
    + destruct node as [|n ch]; [done|].
      case_bool_decide as Hn; [|done].
      apply IH; [done| |done].
      intros n0 E. apply Hq. cbn [app]. rewrite E. f_equal.
      apply findChild_name in Hc as [Hs _]. cbn in Hs. by subst.
Qed.

Section Keep.
Variables (segs : list jsstring) (nm data : jsstring).
#[local] Abbreviation keeps := (preserves (holdsFile segs nm data)).

Lemma keeps_ret {A} (a : A) : keeps (mret a).
Proof. by intros w H. Qed.

Lemma keeps_throw {A} : keeps (@throw A).
Proof. by intros w H. Qed.

Lemma keeps_await {A} (r : Result A) : keeps (await r).
Proof. intros w H. by rewrite run_await. Qed.

Lemma keeps_bind {A B} (m : M A) (k : A -> M B) :
  keeps m -> (forall a, keeps (k a)) -> keeps (m ≫= k).
Proof.
  intros Hm Hk w H. rewrite run_bind. specialize (Hm w H).
  destruct (run m w) as [[a|] w']; [by apply Hk|done].
Qed.

Lemma keeps_tryCatch {A} (m : M A) : keeps m -> keeps (tryCatch m).
Proof.
  intros Hm w H. rewrite run_tryCatch. specialize (Hm w H).
  by destruct (run m w) as [[a|] w'].
Qed.

Lemma keeps_getAbstractFileByPath p : keeps (getAbstractFileByPath p).
Proof. by intros w H. Qed.

Lemma keeps_vault_read p : keeps (vault_read p).
Proof.
  intros w H. unfold vault_read. rewrite run_bind. cbn.
  by destruct (lookupSegs _ _) as [[|]|].
Qed.

Lemma keeps_vault_add p node op : keeps (vault_add p node op).
Proof.
  intros w H. unfold vault_add. rewrite run_bind. cbn.
  destruct (lookupSegs (split p SLASH) (vault w)); [done|].
  destruct (folderAt (parentSegs p) (vault w)); [|done]. cbn.
  unfold holdsFile in *. cbn.
  apply (lookupSegs_alter_file _ _ _ _ _ _ _ (stable_append node));
    [by intros ? ? []|done].
Qed.

Lemma keeps_vault_write p d op :
  2 <= length (split p SLASH) -> split p SLASH <> segs ->
  keeps (vault_write p d op).
Proof.
  intros Hlen Hp w H. unfold vault_write. rewrite run_bind. cbn.
  destruct (lookupSegs (split p SLASH) (vault w)) as [[|]|]; [|done..]. cbn.
  unfold holdsFile in *. cbn.
  apply (lookupSegs_alter_file _ _ _ _ _ _ _ (stable_setData _ d)); [|done].
  intros n -> ->. apply Hp.
  by destruct (path_cut p Hlen) as (_ & _ & _ & ->).
Qed.

End Keep.
End Frame.

Section SyncFrame.
Variable toLowerCase : jsstring -> jsstring.
Variable atob : jsstring -> Result jsstring.
Variable getBlob : jsstring -> jsstring -> jsstring -> Result GitHubBlob.
Variable dateNow : jsstring -> jsstring -> GitHubTreeItem -> jsstring.
Variable settings : Settings.
Variables (owner repo branch baseFolderPath : jsstring).
Variables (segs : list jsstring) (nm data : jsstring).

#[local] Abbreviation keeps := (preserves (holdsFile segs nm data)).
#[local] Abbreviation sync :=
  (syncFile toLowerCase atob getBlob dateNow settings owner repo branch).
#[local] Abbreviation fetch := (getFileContent toLowerCase atob getBlob owner repo).

Lemma keeps_ensureFolderExists_loop folders :
  forall currentPath, keeps (ensureFolderExists_loop folders currentPath).
Proof.
  induction folders as [|folder rest IH]; intros currentPath;
    cbn [ensureFolderExists_loop]; [apply keeps_ret|].
  destruct (negb (truthy folder)); [apply IH|].
  apply keeps_bind; [apply keeps_getAbstractFileByPath|]. intros existing.
  apply keeps_bind; [|intros _; apply IH].
  destruct existing; [apply keeps_ret|apply keeps_vault_add].
Qed.

Lemma keeps_syncFile (fileItem : GitHubTreeItem) :
  split (getLocalFilePath baseFolderPath (item_path fileItem)) SLASH <> segs ->
  keeps (sync fileItem baseFolderPath).
Proof.
  intros Hp. unfold syncFile.
  pose proof (localFilePath_deep baseFolderPath (item_path fileItem)) as Hd.
  apply keeps_bind; [apply keeps_await|]. intros content.
  apply keeps_bind; [apply keeps_ensureFolderExists_loop|]. intros _.
  destruct content as [text|bytes].
  - apply keeps_bind; [apply keeps_getAbstractFileByPath|]. intros existing.
    apply keeps_bind.
    + destruct existing as [[|]|]; try apply keeps_ret.
      apply keeps_bind; [apply keeps_vault_read|]. intros ?. apply keeps_ret.
    + intros [|]; [|apply keeps_ret].
      destruct existing; [by apply keeps_vault_write|apply keeps_vault_add].
  - apply keeps_bind; [apply keeps_getAbstractFileByPath|]. intros existing.
    destruct existing; [by apply keeps_vault_write|apply keeps_vault_add].
Qed.

Lemma split_inj (a b : jsstring) sep : split a sep = split b sep -> a = b.
Proof.
  intros H. apply (f_equal (fun l => join l [sep])) in H.
  by rewrite !join_split in H.
Qed.

(** The loop over the files of a repository: a file held at a path no
    successful sync writes to is still held after the loop, and its path
    is not in the synced set. *)
Lemma syncFiles_loop_keeps (P : jsstring) (files : list GitHubTreeItem) :
  segs = split P SLASH ->
  (forall g, In g files ->
     getLocalFilePath baseFolderPath (item_path g) = P -> fetch g = Throw) ->
  forall (syncedFiles : gset jsstring) w,
    holdsFile segs nm data w -> P ∉ syncedFiles ->
    exists syncedFiles' w',
      run (syncFiles_loop toLowerCase atob getBlob dateNow settings owner repo
             branch files baseFolderPath syncedFiles) w
      = (Ok syncedFiles', w')
      /\ holdsFile segs nm data w' /\ P ∉ syncedFiles'.
Proof.
  intros Hsegs. induction files as [|g files IH]; intros Hfail S w Hw HS.
  - by exists S, w.
  - cbn [syncFiles_loop]. rewrite run_bind, run_tryCatch.
    assert (forall g', In g' files ->
              getLocalFilePath baseFolderPath (item_path g') = P ->
              fetch g' = Throw) as Hfail'
      by (intros g' Hg'; apply Hfail; by right).
    destruct (decide (getLocalFilePath baseFolderPath (item_path g) = P))
      as [Heq|Hne].
    + assert (run (sync g baseFolderPath) w = (Throw, w)) as ->.
      { unfold syncFile. rewrite run_bind, run_await.
        by rewrite (Hfail g (or_introl eq_refl) Heq). }
      by apply IH.
    + assert (split (getLocalFilePath baseFolderPath (item_path g)) SLASH
              <> segs) as Hp.
      { rewrite Hsegs. intros E. by apply split_inj in E. }
      pose proof (keeps_syncFile g Hp w Hw) as Hw'.
      destruct (run (sync g baseFolderPath) w) as [[[]|] w']; cbn in Hw'.
      * apply IH; [done|done|].
        intros [?%elem_of_singleton|?]%elem_of_union; [congruence|done].
      * by apply IH.
Qed.

End SyncFrame.

Section PruneRun.
Implicit Types (v children : list TAbstractFile) (segs : list jsstring).

Lemma isPrefix_weaken p s t : isPrefix p s = true -> isPrefix p (s ++ t) = true.
Proof. intros [r ->]%isPrefix_iff. rewrite <- app_assoc. apply isPrefix_app. Qed.

Lemma endsWith_app a s p : endsWith s p = true -> endsWith (a ++ s) p = true.
Proof. unfold endsWith. rewrite rev_app_distr. apply isPrefix_weaken. Qed.

Lemma isMarkdownFile_local baseFolderPath p :
  isMarkdownFile p = true ->
  isMarkdownFile (getLocalFilePath baseFolderPath p) = true.
Proof.
  unfold isMarkdownFile, getLocalFilePath. rewrite !orb_true_iff.
  rewrite (app_assoc baseFolderPath).
  intros [H|H]; [left|right]; by apply endsWith_app.
Qed.

Lemma lookupSegs_occursAt segs : forall v x,
  lookupSegs segs v = Some x -> occursAt segs x v.
Proof.
  induction segs as [|s [|s' segs] IH]; intros v x; [done|..];
    cbn [lookupSegs occursAt];
    destruct (findChild s v) as [node|] eqn:Hc; try done;
    apply findChild_name in Hc as [Hn Hin].
  - by intros [= <-].
  - destruct node as [|n ch]; [done|]. cbn in Hn. subst n.
    intros H. exists ch. split; [done|]. by apply IH.
Qed.

(** Below the folder that is rewritten, a lookup sees the rewritten
    children. *)
Lemma lookupSegs_alter_at f (a : list jsstring) : forall (b : list jsstring) v n ch,
  b <> [] ->
  lookupSegs a v = Some (TFolder n ch) ->
  lookupSegs (a ++ b) (alterChildren a f v) = lookupSegs b (f ch).
Proof.
  induction a as [|s a IH]; intros b v n ch Hb; [done|].
  cbn [lookupSegs app alterChildren].
  rewrite findChild_map by (intros [|n' ch']; [done|]; by case_bool_decide).
  destruct (findChild s v) as [node|] eqn:Hc; [|done].
  apply findChild_name in Hc as [Hn _]. cbn [fmap option_fmap option_map].
  destruct a as [|s' a].
  - intros [= ->]. cbn in Hn. subst n.
    rewrite bool_decide_eq_true_2 by done. cbn [app alterChildren].
    by destruct b.
  - destruct node as [|n' ch']; [done|]. cbn in Hn. subst n'.
    rewrite bool_decide_eq_true_2 by done. intros H.
    by apply (IH b ch' n ch).
Qed.

End PruneRun.

(** C4. A file whose sync throws is pruned in the same run. The listing
    of the repository has the file (paths in a listing are distinct), the
    fetch of its content throws, pruning is enabled, and the vault holds
    a Markdown copy of it with provenance from an earlier run, at a local
    path without an empty segment. Then the loop over the files ends with
    a synced set that lacks the local path, and the pruning pass that
    follows issues the deletion of the copy, which is gone from the vault
    when [syncRepository] returns. *)
Theorem failed_sync_is_pruned (toLowerCase : jsstring -> jsstring)
    (atob : jsstring -> Result jsstring)
    (getBranchSHA : jsstring -> jsstring -> jsstring -> Result jsstring)
    (getTree : jsstring -> jsstring -> jsstring -> Result (list GitHubTreeItem))
    (getBlob : jsstring -> jsstring -> jsstring -> Result GitHubBlob)
    (dateNow : jsstring -> jsstring -> GitHubTreeItem -> jsstring)
    (settings : Settings) (repoConfig : RepoConfig) (w : World)
    (syncableFiles : list GitHubTreeItem) (fileItem : GitHubTreeItem)
    (nm data : jsstring) :
  let owner := cfg_owner repoConfig in
  let repo := cfg_repo repoConfig in
  let branch := cfg_branch repoConfig in
  let baseFolderPath :=
    baseFolder settings ++ [SLASH] ++ owner ++ [SLASH] ++ repo in
  let localFilePath := getLocalFilePath baseFolderPath (item_path fileItem) in
  getAllSyncableFiles toLowerCase getBranchSHA getTree owner repo branch
    (syncMediaFiles settings) = Ok syncableFiles ->
  In fileItem syncableFiles ->
  NoDup (List.map item_path syncableFiles) ->
  getFileContent toLowerCase atob getBlob owner repo fileItem = Throw ->
  pruneExtraneousFiles_ settings = true ->
  isMarkdownFile (item_path fileItem) = true ->
  Forall (fun s => truthy s = true) (split baseFolderPath SLASH) ->
  lookupSegs (split localFilePath SLASH) (vault w) = Some (TFile nm data) ->
  extractGitHubMetadata data <> None ->
  exists (syncedFiles : gset jsstring) (w1 w2 : World) (deletions : list VaultOp),
    run (syncFiles_loop toLowerCase atob getBlob dateNow settings owner repo
           branch syncableFiles baseFolderPath ∅) w = (Ok syncedFiles, w1)
    /\ (localFilePath ∉ syncedFiles)
    /\ run (syncRepository toLowerCase atob getBranchSHA getTree getBlob
              dateNow settings repoConfig) w = (Ok tt, w2)
    /\ oplog w2 = oplog w1 ++ deletions
    /\ In (OpDelete localFilePath) deletions
    /\ lookupSegs (split localFilePath SLASH) (vault w2)
       <> Some (TFile nm data).
Proof.
  intros owner repo branch baseFolderPath localFilePath
    Hlist Hin Hnodup Hfetch Hprune Hmd Hsegs Hfile Hprov.
  (* the items that share the path of the failing one fail too *)
  assert (forall g, In g syncableFiles ->
            getLocalFilePath baseFolderPath (item_path g) = localFilePath ->
            getFileContent toLowerCase atob getBlob owner repo g = Throw)
    as Hfail.
  { intros g Hg Hp. unfold localFilePath, getLocalFilePath in Hp.
    apply app_inv_head in Hp. injection Hp as Hp.
    enough (g = fileItem) as -> by done.
    clear -Hg Hin Hnodup Hp. induction syncableFiles as [|x l IH]; [done|].
    cbn in Hnodup. apply NoDup_cons in Hnodup as [Hx Hl].
    destruct Hg as [->|Hg], Hin as [->|Hin]; [done|..|by apply IH].
    - exfalso. apply Hx. rewrite Hp. apply list_elem_of_In. by apply in_map.
    - exfalso. apply Hx. rewrite <- Hp. apply list_elem_of_In. by apply in_map. }
  destruct (syncFiles_loop_keeps toLowerCase atob getBlob dateNow settings
              owner repo branch baseFolderPath _ nm data localFilePath
              syncableFiles eq_refl Hfail ∅ w Hfile ltac:(set_solver))
    as (S & w1 & Hloop & Hfile1 & HS).
  (* the repository folder and the file below it *)
  assert (split localFilePath SLASH
          = split baseFolderPath SLASH ++ split (item_path fileItem) SLASH)
    as Hsplit by apply split_app_sep.
  unfold holdsFile in Hfile1. rewrite Hsplit in Hfile, Hfile1.
  destruct (lookupSegs_app _ _ _ _ (split_nonempty _ _) (split_nonempty _ _)
              Hfile1) as (n & ch & Hfolder & Hbelow).
  assert (pruneFile toLowerCase settings S localFilePath data = true) as Hdoom.
  { rewrite pruneFile_markdown; [|done|by apply isMarkdownFile_local].
    by destruct (extractGitHubMetadata data). }
  assert (localFilePath
          = baseFolderPath ++ [SLASH]
            ++ join (split (item_path fileItem) SLASH) [SLASH]) as HP
    by (by rewrite join_split).
  exists S, w1,
    {| vault :=
         alterChildren (split baseFolderPath SLASH)
           (fun ch => pruneFolder toLowerCase settings (TFolder n ch)
                        baseFolderPath S) (vault w1);
       oplog := oplog w1 ++ pruneFolder_ops toLowerCase settings (TFolder n ch)
                              baseFolderPath S |},
    (pruneFolder_ops toLowerCase settings (TFolder n ch) baseFolderPath S).
  split; [done|]. split; [done|]. split; [|split; [done|split]].
  - unfold syncRepository. fold owner repo branch baseFolderPath.
    rewrite run_bind, run_await, Hlist.
    destruct syncableFiles as [|x l] eqn:El; [done|]. rewrite <- El in *.
    assert ((length syncableFiles =? 0) = false) as -> by (by rewrite El).
    rewrite run_bind.
    assert (run (ensureFolderExists baseFolderPath) w = (Ok tt, w)) as ->.
    { apply (ensureFolderExists_loop_existing (split baseFolderPath SLASH) []);
        [done|apply split_segments|].
      intros k Hk. cbn [app].
      rewrite <- (take_drop k (split baseFolderPath SLASH)), <- app_assoc in Hfile.
      eapply lookupSegs_prefix; [|done].
      intros E. apply (f_equal length) in E. rewrite length_take in E.
      cbn in E. lia. }
    rewrite run_bind, Hloop, Hprune.
    unfold pruneExtraneousFiles.
    rewrite run_bind, run_getAbstractFileByPath, Hfolder. done.
  - rewrite HP. eapply prune_deletes; [by apply lookupSegs_occursAt|].
    by rewrite <- HP.
  - cbn [vault]. rewrite Hsplit.
    rewrite (lookupSegs_alter_at _ _ _ _ n ch) by (done || apply split_nonempty).
    intros Hl%lookupSegs_occursAt. revert Hl.
    apply prune_removes. by rewrite <- HP.
Qed.

Lemma failed_sync_witness :
  exists w2,
    run (syncRepository (fun s => s) (fun s => Ok s)
           (fun _ _ _ => Ok (lit "commit"))
           (fun _ _ _ => Ok [ex_item "README.md" "sha-readme";
                             ex_item "docs/old.md" "sha-old"])
           ex_getBlob ex_dateNow ex_settings
           {| cfg_owner := lit "octo"; cfg_repo := lit "notes";
              cfg_branch := lit "main" |})
      (ex_world (lit "stale"))
    = (Ok tt, w2)
    /\ In (OpDelete (lit "Projects/octo/notes/docs/old.md")) (oplog w2).
Proof.
  destruct (failed_sync_is_pruned (fun s => s) (fun s => Ok s)
              (fun _ _ _ => Ok (lit "commit"))
              (fun _ _ _ => Ok [ex_item "README.md" "sha-readme";
                                ex_item "docs/old.md" "sha-old"])
              ex_getBlob ex_dateNow ex_settings
              {| cfg_owner := lit "octo"; cfg_repo := lit "notes";
                 cfg_branch := lit "main" |}
              (ex_world (lit "stale"))
              [ex_item "README.md" "sha-readme"; ex_item "docs/old.md" "sha-old"]
              (ex_item "docs/old.md" "sha-old") (lit "old.md")
              (ex_synced "docs/old.md" "Old page"))
    as (S & w1 & w2 & ops & _ & _ & Hrun & Hlog & Hdel & _).
  - reflexivity.
  - right. left. reflexivity.
  - apply (bool_decide_unpack _). vm_compute. exact I.
  - reflexivity.
  - reflexivity.
  - vm_compute. reflexivity.
  - vm_compute. repeat constructor.
  - reflexivity.
  - vm_compute. discriminate.
  - exists w2. split; [exact Hrun|]. rewrite Hlog. apply in_or_app. right.
    exact Hdel.
Defined.

(** * The scan of repository folders *)

Section Scan.
Implicit Types (v children ch : list TAbstractFile) (segs q : list jsstring)
  (o r id : jsstring).

Lemma scanAt_nil segs : scanAt segs [] = [].
Proof. by destruct segs. Qed.

Lemma scanAt_lookup segs : forall v,
  segs <> [] ->
  match lookupSegs segs v with
  | Some (TFolder _ ch) => scanChildren ch
  | _ => []
  end = scanAt segs v.
Proof.
  induction segs as [|s [|s' segs] IH]; intros v Hne; [done|..];
    cbn [lookupSegs scanAt].
  - by destruct (findChild s v) as [[|]|].
  - destruct (findChild s v) as [[|n ch]|]; [done| |done]. by apply IH.
Qed.

Lemma run_scanExistingRepositories settings w :
  run (scanExistingRepositories settings) w
  = (Ok (scanAt (split (baseFolder settings) SLASH) (vault w)), w).
Proof.
  unfold scanExistingRepositories.
  rewrite run_bind, run_getAbstractFileByPath.
  rewrite <- scanAt_lookup by apply split_nonempty.
  by destruct (lookupSegs _ _) as [[|]|].
Qed.

(** A rewriting of children that keeps names and kinds keeps the ids. *)
Lemma repoIds_map (g : TAbstractFile -> TAbstractFile) o ch :
  (forall c, match c, g c with
             | TFile _ _, TFile _ _ => True
             | TFolder n _, TFolder n' _ => n = n'
             | _, _ => False
             end) ->
  repoIds o (List.map g ch) = repoIds o ch.
Proof.
  intros Hg. unfold repoIds. induction ch as [|c ch IH]; [done|].
  cbn [List.map flat_map]. rewrite IH. f_equal.
  specialize (Hg c).
  destruct c as [|n x]; destruct (g _) as [|n' x']; try done. by subst.
Qed.

Lemma alter_step_kind (f : list TAbstractFile -> list TAbstractFile) s q c :
  match c, (match c with
            | TFolder n' ch =>
                if bool_decide (n' = s) then TFolder n' (alterChildren q f ch)
                else c
            | TFile _ _ => c
            end) with
  | TFile _ _, TFile _ _ => True
  | TFolder n _, TFolder n' _ => n = n'
  | _, _ => False
  end.
Proof. destruct c as [|n ch]; [done|]. by case_bool_decide. Qed.

(** Rewriting inside a repository folder does not change the scan. *)
Lemma scanChildren_deep f o r q v :
  scanChildren (alterChildren (o :: r :: q) f v) = scanChildren v.
Proof.
  unfold scanChildren. cbn [alterChildren].
  induction v as [|c v IH]; [done|].
  cbn [List.map flat_map]. rewrite IH. f_equal.
  destruct c as [|n ch]; [done|]. case_bool_decide; [|done].
  cbn [alterChildren]. apply repoIds_map. intros c. apply alter_step_kind.
Qed.

Lemma scanAt_deep f segs : forall o r q v,
  scanAt segs (alterChildren (segs ++ o :: r :: q) f v) = scanAt segs v.
Proof.
  induction segs as [|s segs IH]; intros o r q v.
  - apply scanChildren_deep.
  - cbn [scanAt app alterChildren].
    rewrite findChild_map by (intros [|n' ch']; [done|]; by case_bool_decide).
    destruct (findChild s v) as [[|n ch]|] eqn:Hc; cbn; [done| |done].
    apply findChild_name in Hc as [Hn _]. cbn in Hn. subst n.
    rewrite bool_decide_eq_true_2 by done. apply IH.
Qed.


Lemma In_scanChildren id v :
  In id (scanChildren v)
  <-> exists o ch, In (TFolder o ch) v /\ In id (repoIds o ch).
Proof.
  unfold scanChildren. rewrite in_flat_map. split.
  - intros ([|o ch] & Hin & Hid); [done|]. by exists o, ch.
  - intros (o & ch & Hin & Hid). by exists (TFolder o ch).
Qed.

Lemma In_repoIds id o ch :
  In id (repoIds o ch)
  <-> exists r chs, In (TFolder r chs) ch /\ id = o ++ [SLASH] ++ r.
Proof.
  unfold repoIds. rewrite in_flat_map. split.
  - intros ([|r chs] & Hin & Hid); [done|]. exists r, chs.
    cbn in Hid. by destruct Hid as [<-|[]].
  - intros (r & chs & Hin & ->). exists (TFolder r chs). split; [done|].
    by left.
Qed.

Lemma findChild_app_None n children extra :
  findChild n children = None ->
  findChild n (children ++ extra) = findChild n extra.
Proof.
  unfold findChild. induction children as [|c children IH]; [done|].
  cbn [app find]. by destruct (bool_decide (fileName c = n)).
Qed.

(** A node without children appended at [q]: the only id the scan can
    gain is the one of the node itself, when [q] is an owner folder. *)
Lemma scanAt_append node segs : forall q v id,
  leafless node ->
  In id (scanAt segs (alterChildren q (fun ch => ch ++ [node]) v)) ->
  In id (scanAt segs v)
  \/ exists o, q = segs ++ [o] /\ id = o ++ [SLASH] ++ fileName node.
Proof.
  induction segs as [|s segs IH]; intros q v id Hleaf Hin.
  - destruct q as [|o [|r q]].
    + cbn [scanAt alterChildren] in *. left.
      unfold scanChildren in Hin. rewrite flat_map_app in Hin.
      apply in_app_or in Hin as [Hin|Hin]; [done|].
      destruct node as [|n ch]; [done|]. cbn in Hleaf. subst ch. done.
    + cbn [scanAt alterChildren] in *.
      apply In_scanChildren in Hin as (o' & ch' & Hin & Hid).
      apply in_map_iff in Hin as ([|n ch] & Hg & Hin); [done|].
      case_bool_decide as Hn.
      * injection Hg as <- <-. subst n. cbn [alterChildren] in Hid.
        unfold repoIds in Hid. rewrite flat_map_app in Hid.
        apply in_app_or in Hid as [Hid|Hid].
        -- left. apply In_scanChildren. by exists o, ch.
        -- right. exists o. split; [done|].
           apply (In_repoIds id o [node]) in Hid as (r & chs & Hr & ->).
           cbn in Hr. by destruct Hr as [->|[]].
      * injection Hg as <- <-. left. apply In_scanChildren. by exists n, ch.
    + left. cbn [scanAt] in *. by rewrite scanChildren_deep in Hin.
  - destruct q as [|t q].
    + cbn [scanAt alterChildren] in *. left.
      destruct (findChild s v) as [x|] eqn:Hc.
      * by rewrite (findChild_app _ _ _ _ Hc) in Hin.
      * rewrite findChild_app_None in Hin by done.
        unfold findChild in Hin. cbn [find] in Hin.
        destruct (bool_decide _); [|done].
        destruct node as [|n ch]; [done|]. cbn in Hleaf. subst ch.
        by rewrite scanAt_nil in Hin.
    + cbn [scanAt alterChildren] in *.
      rewrite findChild_map in Hin
        by (intros [|n' ch']; [done|]; by case_bool_decide).
      destruct (findChild s v) as [[|n ch]|] eqn:Hc; cbn in Hin; [done| |done].
      apply findChild_name in Hc as [Hn _]. cbn in Hn. subst n.
      case_bool_decide as Hn; [|by left]. subst t.
      apply IH in Hin as [Hin|(o & -> & ->)]; [by left| |done].
      right. by exists o.
Qed.

End Scan.

(** * Invariants of vault computations *)

Section Invariant.
Variable I : World -> Prop.
#[local] Abbreviation inv := (preserves I).

Lemma preserves_ret {A} (a : A) : inv (mret a).
Proof. by intros w H. Qed.

Lemma preserves_throw {A} : inv (@throw A).
Proof. by intros w H. Qed.

Lemma preserves_await {A} (r : Result A) : inv (await r).
Proof. intros w H. by rewrite run_await. Qed.

Lemma preserves_bind {A B} (m : M A) (k : A -> M B) :
  inv m -> (forall a, inv (k a)) -> inv (m ≫= k).
Proof.
  intros Hm Hk w H. rewrite run_bind. specialize (Hm w H).
  destruct (run m w) as [[a|] w']; [by apply Hk|done].
Qed.

Lemma preserves_tryCatch {A} (m : M A) : inv m -> inv (tryCatch m).
Proof.
  intros Hm w H. rewrite run_tryCatch. specialize (Hm w H).
  by destruct (run m w) as [[a|] w'].
Qed.

Lemma preserves_getAbstractFileByPath p : inv (getAbstractFileByPath p).
Proof. by intros w H. Qed.

Lemma preserves_vault_read p : inv (vault_read p).
Proof.
  intros w H. unfold vault_read. rewrite run_bind. cbn.
  by destruct (lookupSegs _ _) as [[|]|].
Qed.

End Invariant.

(** * The sync of a repository keeps the repository folders tracked *)

Section Track.
Variable toLowerCase : jsstring -> jsstring.
Variable atob : jsstring -> Result jsstring.
Variable getBranchSHA : jsstring -> jsstring -> jsstring -> Result jsstring.
Variable getTree : jsstring -> jsstring -> jsstring -> Result (list GitHubTreeItem).
Variable getBlob : jsstring -> jsstring -> jsstring -> Result GitHubBlob.
Variable dateNow : jsstring -> jsstring -> GitHubTreeItem -> jsstring.
Variables (settings : Settings) (cur : list jsstring) (owner repo : jsstring).
Hypothesis Hbase :
  Forall (fun s => truthy s = true) (split (baseFolder settings) SLASH).
Hypothesis Ho : wfName owner.
Hypothesis Hr : wfName repo.
Hypothesis Hid : owner ++ [SLASH] ++ repo ∈ cur.
Implicit Types (w : World) (pre folders segs : list jsstring).

#[local] Abbreviation baseSegs := (split (baseFolder settings) SLASH).
#[local] Abbreviation repoSegs := (baseSegs ++ [owner; repo]).
#[local] Abbreviation bfp :=
  (baseFolder settings ++ [SLASH] ++ owner ++ [SLASH] ++ repo).
#[local] Abbreviation inv := (preserves (tracked settings cur)).
#[local] Abbreviation comparable segs :=
  (segs `prefix_of` repoSegs \/ repoSegs `prefix_of` segs).

Lemma split_repoFolder : split bfp SLASH = repoSegs.
Proof.
  destruct Ho as [_ Ho'], Hr as [_ Hr']. cbn [app].
  rewrite !split_app_sep. by rewrite (split_plain owner), (split_plain repo).
Qed.

Lemma repoSegs_truthy : Forall (fun s => truthy s = true) repoSegs.
Proof.
  apply Forall_app. split; [done|].
  destruct Ho as [Ho' _], Hr as [Hr' _].
  apply Forall_cons; split; [by destruct owner|].
  apply Forall_cons; split; [by destruct repo|]. constructor.
Qed.

Lemma filter_truthy_all segs :
  Forall (fun s => truthy s = true) segs -> List.filter truthy segs = segs.
Proof.
  induction 1 as [|s segs Hs _ IH]; [done|]. cbn [List.filter].
  by rewrite Hs, IH.
Qed.

Lemma comparable_prefix (l1 l2 : list jsstring) :
  l1 `prefix_of` l2 -> comparable l2 -> comparable l1.
Proof.
  intros H12 [H|H].
  - left. by etrans.
  - destruct (prefix_weak_total _ _ _ H12 H); [by left|by right].
Qed.

Lemma tracked_vault_add p node op :
  leafless node -> fileName node = leafName p -> comparable (split p SLASH) ->
  inv (vault_add p node op).
Proof.
  intros Hleaf Hname Hc w H. unfold vault_add. rewrite run_bind. cbn.
  destruct (lookupSegs (split p SLASH) (vault w)); [done|].
  destruct (folderAt (parentSegs p) (vault w)); [|done]. cbn.
  intros id Hin. cbn [vault] in Hin.
  apply scanAt_append in Hin as [Hin|(o & Hq & ->)]; [by apply H| |done].
  assert (split p SLASH = baseSegs ++ [o; leafName p]) as Hp.
  { rewrite (app_removelast_last [] (split_nonempty p SLASH)).
    fold (parentSegs p). fold (leafName p). rewrite Hq.
    by rewrite <- app_assoc. }
  rewrite Hp in Hc.
  assert (baseSegs ++ [o; leafName p] = repoSegs) as E.
  { destruct Hc as [Hc|Hc]; [|symmetry]; apply prefix_length_eq; try done;
      rewrite !length_app; cbn; lia. }
  apply app_inv_head in E. injection E as -> E. rewrite Hname, E. done.
Qed.

Lemma tracked_vault_write p d op :
  repoSegs `prefix_of` parentSegs p -> inv (vault_write p d op).
Proof.
  intros [k Hk] w H. unfold vault_write. rewrite run_bind. cbn.
  destruct (lookupSegs (split p SLASH) (vault w)) as [[|]|]; [|done..]. cbn.
  intros id Hin. cbn [vault] in Hin. apply H.
  rewrite Hk, <- app_assoc in Hin. cbn [app] in Hin.
  by rewrite scanAt_deep in Hin.
Qed.

Lemma tracked_pruneExtraneousFiles syncedFiles :
  inv (pruneExtraneousFiles toLowerCase settings bfp syncedFiles).
Proof.
  intros w H. unfold pruneExtraneousFiles.
  rewrite run_bind, run_getAbstractFileByPath.
  destruct (lookupSegs _ _) as [[|n ch]|]; [done| |done].
  rewrite run_bind. cbn -[split app].
  intros id Hin. cbn [vault] in Hin. apply H.
  rewrite split_repoFolder in Hin.
  by rewrite (scanAt_deep _ baseSegs owner repo []) in Hin.
Qed.

Lemma tracked_ensureFolderExists_loop folders : forall pre,
  Forall (fun s => truthy s = true) pre ->
  Forall noSlash (pre ++ folders) ->
  comparable (pre ++ List.filter truthy folders) ->
  inv (ensureFolderExists_loop folders (join pre [SLASH])).
Proof.
  induction folders as [|folder rest IH]; intros pre Ht Hs Hc.
  { apply preserves_ret. }
  cbn [ensureFolderExists_loop]. cbn [List.filter] in Hc.
  assert (Forall noSlash pre /\ noSlash folder /\ Forall noSlash rest)
    as (Hs1 & Hs2 & Hs3).
  { apply Forall_app in Hs as [? Hs]. by apply Forall_cons in Hs as [? ?]. }
  destruct (truthy folder) eqn:Hf; cbn [negb].
  2:{ apply IH; [done| |done]. by apply Forall_app. }
  assert ((if truthy (join pre [SLASH])
           then join pre [SLASH] ++ [SLASH] ++ folder else folder)
          = join (pre ++ [folder]) [SLASH]) as ->.
  { destruct pre as [|a pre]; [done|]. by rewrite truthy_join, join_snoc. }
  assert (Forall noSlash (pre ++ [folder])) as Hs'.
  { apply Forall_app. split; [done|]. by apply Forall_cons. }
  apply preserves_bind; [apply preserves_getAbstractFileByPath|].
  intros existingFolder. apply preserves_bind.
  - destruct existingFolder as [x|]; [apply preserves_ret|].
    apply tracked_vault_add; [done..|].
    rewrite split_join; [|by destruct pre|done].
    apply (comparable_prefix _ (pre ++ folder :: List.filter truthy rest));
      [|done].
    apply prefix_app. by exists (List.filter truthy rest).
  - intros _. apply IH.
    + apply Forall_app. split; [done|]. by apply Forall_cons.
    + rewrite <- app_assoc. exact Hs.
    + rewrite <- app_assoc. exact Hc.
Qed.

Lemma tracked_ensureFolderExists p :
  comparable (List.filter truthy (split p SLASH)) ->
  inv (ensureFolderExists p).
Proof.
  intros Hc. apply (tracked_ensureFolderExists_loop _ []); [constructor| |done].
  apply split_segments.
Qed.

Lemma tracked_syncFile br fileItem :
  inv (syncFile toLowerCase atob getBlob dateNow settings
         owner repo br fileItem bfp).
Proof.
  unfold syncFile. apply preserves_bind; [apply preserves_await|].
  intros content. cbv zeta.
  set (P := getLocalFilePath bfp (item_path fileItem)).
  destruct (path_cut P (localFilePath_deep _ _)) as (_ & -> & Hsp & Hsnoc).
  assert (split P SLASH = repoSegs ++ split (item_path fileItem) SLASH) as HP.
  { unfold P, getLocalFilePath.
    change (bfp ++ [SLASH] ++ item_path fileItem)
      with (bfp ++ SLASH :: item_path fileItem).
    by rewrite split_app_sep, split_repoFolder. }
  assert (repoSegs `prefix_of` parentSegs P) as Hpre.
  { unfold parentSegs. rewrite HP, removelast_app by apply split_nonempty.
    by eexists. }
  assert (comparable (split P SLASH)) as HcP.
  { right. rewrite HP. by eexists. }
  apply preserves_bind.
  { apply tracked_ensureFolderExists. rewrite Hsp. right.
    destruct Hpre as [k ->]. rewrite List.filter_app.
    rewrite (filter_truthy_all _ repoSegs_truthy). by eexists. }
  intros _. destruct content as [text|bytes].
  - apply preserves_bind; [apply preserves_getAbstractFileByPath|].
    intros existingFile. apply preserves_bind.
    { destruct existingFile as [[|]|]; try apply preserves_ret.
      apply preserves_bind; [apply preserves_vault_read|].
      intros ?. apply preserves_ret. }
    intros [|]; [|apply preserves_ret].
    destruct existingFile.
    + by apply tracked_vault_write.
    + by apply tracked_vault_add.
  - apply preserves_bind; [apply preserves_getAbstractFileByPath|].
    intros [x|].
    + by apply tracked_vault_write.
    + by apply tracked_vault_add.
Qed.

Lemma tracked_syncFiles_loop br files : forall syncedFiles,
  inv (syncFiles_loop toLowerCase atob getBlob dateNow settings
         owner repo br files bfp syncedFiles).
Proof.
  induction files as [|fileItem rest IH]; intros syncedFiles.
  { apply preserves_ret. }
  cbn [syncFiles_loop]. apply preserves_bind.
  - apply preserves_tryCatch, tracked_syncFile.
  - intros r. apply IH.
Qed.

Lemma tracked_syncRepository br :
  inv (syncRepository toLowerCase atob getBranchSHA getTree getBlob dateNow
         settings {| cfg_owner := owner; cfg_repo := repo; cfg_branch := br |}).
Proof.
  unfold syncRepository. cbn [cfg_owner cfg_repo cfg_branch].
  apply preserves_bind; [apply preserves_await|]. intros files.
  destruct (length files =? 0); [apply preserves_ret|].
  apply preserves_bind.
  { apply tracked_ensureFolderExists. left.
    by rewrite split_repoFolder, (filter_truthy_all _ repoSegs_truthy). }
  intros _. apply preserves_bind; [apply tracked_syncFiles_loop|].
  intros syncedFiles. destruct (pruneExtraneousFiles_ settings).
  - apply tracked_pruneExtraneousFiles.
  - apply preserves_ret.
Qed.

End Track.

(** * The cleanup pass on a well-formed vault *)

Section Cleanup.
Implicit Types (v children ch : list TAbstractFile) (segs q : list jsstring)
  (o r id a b : jsstring) (w : World).

Lemma wfTree_children n ch : wfTree (TFolder n ch) <-> wfName n /\ wfVault ch.
Proof.
  cbn [wfTree]. unfold wfVault.
  assert (fold_right (fun c acc => wfTree c /\ acc) True ch <-> Forall wfTree ch)
    as ->; [|tauto].
  induction ch as [|c ch IH]; cbn [fold_right].
  - split; [constructor|done].
  - rewrite Forall_cons. tauto.
Qed.

Lemma findChild_NoDup v c :
  NoDup (List.map fileName v) -> In c v -> findChild (fileName c) v = Some c.
Proof.
  induction v as [|x v IH]; intros Hnd Hin; [done|].
  cbn [List.map] in Hnd. apply NoDup_cons in Hnd as [Hx Hnd].
  unfold findChild. cbn [find]. case_bool_decide as E.
  - destruct Hin as [->|Hin]; [done|]. exfalso. apply Hx.
    rewrite E. apply list_elem_of_In. by apply in_map.
  - destruct Hin as [->|Hin]; [done|]. by apply IH.
Qed.

Lemma NoDup_map_filter (P : TAbstractFile -> bool) v :
  NoDup (List.map fileName v) ->
  NoDup (List.map fileName (List.filter P v)).
Proof.
  induction v as [|x v IH]; intros Hnd; [done|].
  cbn [List.map List.filter] in *. apply NoDup_cons in Hnd as [Hx Hnd].
  destruct (P x); [|by apply IH]. cbn [List.map]. apply NoDup_cons.
  split; [|by apply IH]. intros Hin. apply Hx.
  apply list_elem_of_In, in_map_iff in Hin as (y & Hy & Hin).
  apply List.filter_In in Hin as [Hin _].
  apply list_elem_of_In. rewrite <- Hy. by apply in_map.
Qed.

Lemma wfVault_removeChild l v : wfVault v -> wfVault (removeChild l v).
Proof.
  intros [Hnd Hall]. split; [by apply NoDup_map_filter|].
  apply Forall_forall. intros x Hx. apply list_elem_of_In in Hx.
  apply List.filter_In in Hx as [Hx _].
  rewrite Forall_forall in Hall. by apply Hall, list_elem_of_In.
Qed.

(** Deleting a child anywhere keeps the vault well formed. *)
Lemma wfVault_alter q : forall l v,
  wfVault v -> wfVault (alterChildren q (removeChild l) v).
Proof.
  induction q as [|t q IH]; intros l v Hwf; cbn [alterChildren].
  { by apply wfVault_removeChild. }
  destruct Hwf as [Hnd Hall]. split.
  - rewrite List.map_map.
    erewrite List.map_ext; [exact Hnd|].
    intros [|n' ch']; [done|]. by case_bool_decide.
  - apply Forall_forall. intros x Hx. apply list_elem_of_In in Hx.
    apply in_map_iff in Hx as (c & <- & Hc).
    rewrite Forall_forall in Hall. specialize (Hall c).
    rewrite list_elem_of_In in Hall. specialize (Hall Hc).
    destruct c as [|n' ch']; [done|]. case_bool_decide; [|done].
    apply wfTree_children in Hall as [Hn Hch].
    apply wfTree_children. split; [done|]. by apply IH.
Qed.

Lemma wfVault_findChild s v n ch :
  wfVault v -> findChild s v = Some (TFolder n ch) -> wfName n /\ wfVault ch.
Proof.
  intros [_ Hall] Hc. apply findChild_name in Hc as [_ Hin].
  rewrite Forall_forall in Hall.
  by apply wfTree_children, Hall, list_elem_of_In.
Qed.

Lemma id_inj a b x y :
  noSlash a -> noSlash b ->
  a ++ [SLASH] ++ x = b ++ [SLASH] ++ y -> a = b /\ x = y.
Proof.
  revert b. induction a as [|c a IH]; intros [|d b] Ha Hb E; cbn in E.
  - by injection E as ->.
  - injection E as E _. apply Forall_cons in Hb as [Hd _]. by destruct Hd.
  - injection E as E _. apply Forall_cons in Ha as [Hc _]. by destruct Hc.
  - injection E as -> E. apply Forall_cons in Ha as [_ Ha].
    apply Forall_cons in Hb as [_ Hb].
    destruct (IH b Ha Hb E) as [-> ->]. done.
Qed.

Lemma split_id o r :
  noSlash o -> noSlash r -> split (o ++ [SLASH] ++ r) SLASH = [o; r].
Proof.
  intros Ho Hr. cbn [app]. by rewrite split_app_sep, !split_plain.
Qed.

(** In a well-formed vault every id of the scan names a folder. *)
Lemma In_scanAt_wf segs : forall v id,
  wfVault v -> In id (scanAt segs v) ->
  exists o r chs,
    id = o ++ [SLASH] ++ r /\ wfName o /\ wfName r
    /\ lookupSegs (segs ++ [o; r]) v = Some (TFolder r chs).
Proof.
  induction segs as [|s segs IH]; intros v id Hwf Hin; cbn [scanAt] in Hin.
  - apply In_scanChildren in Hin as (o & ch & Ho & Hin).
    apply In_repoIds in Hin as (r & chs & Hr & ->).
    destruct Hwf as [Hnd Hall].
    rewrite Forall_forall in Hall.
    pose proof (Hall _ (proj2 (list_elem_of_In _ _) Ho)) as Hwo.
    apply wfTree_children in Hwo as [Hno [Hnd' Hall']].
    rewrite Forall_forall in Hall'.
    pose proof (Hall' _ (proj2 (list_elem_of_In _ _) Hr)) as Hwr.
    apply wfTree_children in Hwr as [Hnr _].
    exists o, r, chs. split; [done|]. split; [done|]. split; [done|].
    cbn [app lookupSegs].
    pose proof (findChild_NoDup v (TFolder o ch) Hnd Ho) as H1.
    pose proof (findChild_NoDup ch (TFolder r chs) Hnd' Hr) as H2.
    cbn [fileName] in H1, H2. by rewrite H1, H2.
  - destruct (findChild s v) as [[|n ch]|] eqn:Hc; [done| |done].
    destruct (wfVault_findChild _ _ _ _ Hwf Hc) as [_ Hwch].
    destruct (IH ch id Hwch Hin) as (o & r & chs & E & Ho & Hr & Hl).
    exists o, r, chs. split; [done|]. split; [done|]. split; [done|].
    cbn [app lookupSegs]. rewrite Hc.
    destruct (segs ++ [o; r]) eqn:E'; [by destruct segs|]. done.
Qed.

(** Deleting the repository folder [r] of the owner [o]. *)
Lemma scanAt_remove_repo segs : forall v o r id,
  wfVault v -> noSlash o ->
  In id (scanAt segs (alterChildren (segs ++ [o]) (removeChild r) v)) ->
  In id (scanAt segs v) /\ id <> o ++ [SLASH] ++ r.
Proof.
  induction segs as [|s segs IH]; intros v o r id Hwf Ho Hin;
    cbn [app scanAt alterChildren] in *.
  - apply In_scanChildren in Hin as (o' & ch' & Hin & Hid).
    apply in_map_iff in Hin as ([|n ch] & Hg & Hin); [done|].
    assert (wfName n /\ wfVault ch) as [[_ Hn] _].
    { destruct Hwf as [_ Hall]. rewrite Forall_forall in Hall.
      by apply wfTree_children, Hall, list_elem_of_In. }
    case_bool_decide as En.
    + injection Hg as <- <-. subst n.
      apply In_repoIds in Hid as (r' & chs & Hr & ->).
      apply List.filter_In in Hr as [Hr Hne]. split.
      * apply In_scanChildren. exists o, ch. split; [done|].
        apply In_repoIds. by exists r', chs.
      * intros E. apply app_inv_head in E. injection E as ->.
        cbn in Hne. by rewrite bool_decide_eq_true_2 in Hne.
    + injection Hg as <- <-. split.
      * apply In_scanChildren. by exists n, ch.
      * apply In_repoIds in Hid as (r' & chs & Hr & ->).
        intros E. by apply id_inj in E as [? _].
  - rewrite findChild_map in Hin
      by (intros [|n' ch']; [done|]; by case_bool_decide).
    destruct (findChild s v) as [[|n ch]|] eqn:Hc; cbn in Hin; [done| |done].
    destruct (wfVault_findChild _ _ _ _ Hwf Hc) as [_ Hwch].
    apply findChild_name in Hc as [Hn _]. cbn in Hn. subst n.
    rewrite bool_decide_eq_true_2 in Hin by done. by apply IH.
Qed.

(** Deleting an owner folder. *)
Lemma scanAt_remove_owner segs : forall v o id,
  In id (scanAt segs (alterChildren segs (removeChild o) v)) ->
  In id (scanAt segs v).
Proof.
  induction segs as [|s segs IH]; intros v o id Hin;
    cbn [scanAt alterChildren] in *.
  - apply In_scanChildren in Hin as (o' & ch' & Hin & Hid).
    apply List.filter_In in Hin as [Hin _].
    apply In_scanChildren. by exists o', ch'.
  - rewrite findChild_map in Hin
      by (intros [|n' ch']; [done|]; by case_bool_decide).
    destruct (findChild s v) as [[|n ch]|] eqn:Hc; cbn in Hin; [done| |done].
    apply findChild_name in Hc as [Hn _]. cbn in Hn. subst n.
    rewrite bool_decide_eq_true_2 in Hin by done. by apply IH in Hin.
Qed.

End Cleanup.

Section CleanupRun.
Variable settings : Settings.
Implicit Types (o r id : jsstring) (w : World).

#[local] Abbreviation baseSegs := (split (baseFolder settings) SLASH).
#[local] Abbreviation scan w := (scanAt baseSegs (vault w)).
#[local] Abbreviation ownerPath o := (baseFolder settings ++ [SLASH] ++ o).
#[local] Abbreviation repoPath o r :=
  (baseFolder settings ++ [SLASH] ++ o ++ [SLASH] ++ r).

Lemma split_ownerPath o :
  noSlash o -> split (ownerPath o) SLASH = baseSegs ++ [o].
Proof. intros Ho. cbn [app]. by rewrite split_app_sep, (split_plain o). Qed.

Lemma split_repoPath o r :
  noSlash o -> noSlash r -> split (repoPath o r) SLASH = baseSegs ++ [o; r].
Proof.
  intros Ho Hr. cbn [app].
  by rewrite !split_app_sep, (split_plain o), (split_plain r).
Qed.

Lemma cleanup_repo_step o r w :
  noSlash o -> noSlash r -> wfVault (vault w) ->
  exists w1,
    run (match lookupSegs (split (repoPath o r) SLASH) (vault w) with
         | Some (TFolder n ch) =>
             _ ← tryCatch (recursiveDeleteFolder (TFolder n ch) (repoPath o r));
             mret tt
         | _ => mret tt
         end) w = (Ok tt, w1)
    /\ wfVault (vault w1)
    /\ (forall x, In x (scan w1) -> In x (scan w))
    /\ (forall chs,
          lookupSegs (baseSegs ++ [o; r]) (vault w) = Some (TFolder r chs) ->
          ~ In (o ++ [SLASH] ++ r) (scan w1)).
Proof.
  intros Ho Hr Hwf.
  assert (parentSegs (repoPath o r) = baseSegs ++ [o]
          /\ leafName (repoPath o r) = r) as [Hp Hleaf].
  { unfold parentSegs, leafName. rewrite split_repoPath by done.
    change [o; r] with ([o] ++ [r]). rewrite app_assoc.
    by rewrite removelast_last, last_last. }
  rewrite split_repoPath by done.
  destruct (lookupSegs (baseSegs ++ [o; r]) (vault w)) as [[|n ch]|] eqn:Hl.
  1,3: exists w; split; [done|]; split; [done|]; split; [done|]; done.
  eexists. split.
  { rewrite run_bind, run_tryCatch. unfold recursiveDeleteFolder.
    rewrite run_bind. cbn -[split app]. reflexivity. }
  cbn [vault]. rewrite Hp, Hleaf. split; [by apply wfVault_alter|].
  split.
  - intros x Hx. by apply scanAt_remove_repo in Hx as [? _].
  - intros chs _ Hin. by apply scanAt_remove_repo in Hin as [_ ?].
Qed.

Lemma cleanup_owner_step o w :
  noSlash o -> wfVault (vault w) ->
  exists w',
    run (ownerFolder ← getAbstractFileByPath (ownerPath o);
         match ownerFolder with
         | Some (TFolder _ []) =>
             _ ← tryCatch (vault_delete (ownerPath o)); mret tt
         | _ => mret tt
         end) w = (Ok tt, w')
    /\ wfVault (vault w')
    /\ (forall x, In x (scan w') -> In x (scan w)).
Proof.
  intros Ho Hwf.
  assert (parentSegs (ownerPath o) = baseSegs /\ leafName (ownerPath o) = o)
    as [Hp Hleaf].
  { unfold parentSegs, leafName. rewrite split_ownerPath by done.
    by rewrite removelast_last, last_last. }
  rewrite run_bind, run_getAbstractFileByPath.
  destruct (lookupSegs _ _) as [[|n [|c ch]]|] eqn:Hl.
  1,3,4: exists w; split; [done|]; split; [done|]; done.
  eexists. split.
  { rewrite run_bind, run_tryCatch. unfold vault_delete.
    rewrite run_bind. cbn -[split app]. rewrite Hl. cbn -[split app].
    reflexivity. }
  cbn [vault]. rewrite Hp, Hleaf. split; [by apply wfVault_alter|].
  intros x Hx. by apply scanAt_remove_owner in Hx.
Qed.

Lemma cleanupRepo_spec id w :
  wfVault (vault w) ->
  exists w',
    run (cleanupRepo settings id) w = (Ok tt, w')
    /\ wfVault (vault w')
    /\ (forall x, In x (scan w') -> In x (scan w))
    /\ ~ In id (scan w').
Proof.
  intros Hwf.
  assert (In id (scan w) ->
          exists o r chs, id = o ++ [SLASH] ++ r /\ split id SLASH = [o; r]
            /\ wfName o /\ wfName r
            /\ lookupSegs (baseSegs ++ [o; r]) (vault w) = Some (TFolder r chs))
    as Hnot.
  { intros Hin.
    destruct (In_scanAt_wf _ _ _ Hwf Hin) as (o & r & chs & -> & Ho & Hr & Hl).
    exists o, r, chs. split; [done|]. split; [|done].
    apply split_id; [apply Ho|apply Hr]. }
  unfold cleanupRepo.
  pose proof (split_segments id SLASH) as Hseg.
  destruct (split id SLASH) as [|owner [|repo rest]] eqn:Es.
  1,2: exists w; split; [done|]; split; [done|]; split; [done|];
       intros Hin; by destruct (Hnot Hin) as (? & ? & ? & _ & ? & _).
  apply Forall_cons in Hseg as [Ho Hseg]. apply Forall_cons in Hseg as [Hr _].
  destruct (truthy owner) eqn:Hto; cbn [negb orb].
  2:{ exists w. split; [done|]. split; [done|]. split; [done|].
      intros Hin. destruct (Hnot Hin) as (o' & r' & ? & _ & E & [Hne _] & _).
      injection E as -> -> ->. by destruct o'. }
  destruct (truthy repo) eqn:Htr; cbn [negb].
  2:{ exists w. split; [done|]. split; [done|]. split; [done|].
      intros Hin. destruct (Hnot Hin) as (o' & r' & ? & _ & E & _ & [Hne _] & _).
      injection E as -> -> ->. by destruct r'. }
  rewrite run_bind, run_getAbstractFileByPath. rewrite run_bind.
  destruct (cleanup_repo_step owner repo w Ho Hr Hwf)
    as (w1 & -> & Hwf1 & Hsub1 & Hgone).
  destruct (cleanup_owner_step owner w1 Ho Hwf1) as (w' & -> & Hwf' & Hsub').
  exists w'. split; [done|]. split; [done|]. split; [by auto|].
  intros Hin. pose proof (Hsub' _ Hin) as Hin1.
  destruct (Hnot (Hsub1 _ Hin1)) as (o' & r' & chs & -> & E & _ & _ & Hl).
  injection E as -> -> ->. by apply (Hgone chs).
Qed.

Lemma cleanup_loop_spec removed : forall w,
  wfVault (vault w) ->
  exists w',
    run (cleanup_loop settings removed) w = (Ok tt, w')
    /\ wfVault (vault w')
    /\ (forall x, In x (scan w') -> In x (scan w))
    /\ (forall id, In id removed -> ~ In id (scan w')).
Proof.
  induction removed as [|id rest IH]; intros w Hwf.
  { exists w. split; [done|]. split; [done|]. split; [done|]. by intros ? []. }
  cbn [cleanup_loop]. rewrite run_bind.
  destruct (cleanupRepo_spec id w Hwf) as (w1 & -> & Hwf1 & Hsub1 & Hgone1).
  destruct (IH w1 Hwf1) as (w' & -> & Hwf' & Hsub' & Hgone').
  exists w'. split; [done|]. split; [done|]. split; [by auto|].
  intros x [<-|Hx]; [|by apply Hgone']. intros Hin. by apply Hgone1, Hsub'.
Qed.

(** The cleanup pass never throws, and leaves only tracked repository
    folders below the base folder. *)
Lemma cleanupRemovedRepositories_spec currentRepoIds w :
  wfVault (vault w) ->
  exists w',
    run (cleanupRemovedRepositories settings currentRepoIds) w = (Ok tt, w')
    /\ tracked settings currentRepoIds w'.
Proof.
  intros Hwf. unfold cleanupRemovedRepositories.
  rewrite run_bind, run_scanExistingRepositories.
  unfold removedRepoIds.
  set (nc := fun repoId : jsstring =>
               negb (bool_decide (repoId ∈ currentRepoIds))).
  set (removed := List.filter nc (lastSyncedRepos settings)).
  set (untracked := List.filter nc (scan w)).
  assert (forall l id, In id l -> id ∉ currentRepoIds -> In id (List.filter nc l))
    as Hnc.
  { intros l id Hin Hid. apply List.filter_In. split; [done|]. unfold nc.
    by rewrite bool_decide_eq_false_2. }
  destruct (length (if 0 <? length untracked then removed ++ untracked
                    else removed) =? 0) eqn:Hlen.
  - exists w. split; [done|]. intros id Hin.
    destruct (decide (id ∈ currentRepoIds)) as [|Hid]; [done|]. exfalso.
    pose proof (Hnc _ _ Hin Hid) as Hu. fold untracked in Hu.
    apply Nat.eqb_eq in Hlen.
    destruct untracked as [|u us]; [done|]. cbn [length Nat.ltb Nat.leb] in Hlen.
    rewrite length_app in Hlen. cbn in Hlen. lia.
  - destruct (cleanup_loop_spec
                (if 0 <? length untracked then removed ++ untracked else removed)
                w Hwf) as (w' & -> & _ & Hsub & Hgone).
    exists w'. split; [done|]. intros id Hin.
    destruct (decide (id ∈ currentRepoIds)) as [|Hid]; [done|]. exfalso.
    pose proof (Hnc _ _ (Hsub _ Hin) Hid) as Hu. fold untracked in Hu.
    apply (Hgone id); [|done].
    destruct untracked as [|u us]; [done|]. cbn [length Nat.ltb Nat.leb].
    apply in_or_app. by right.
Qed.

End CleanupRun.

Section Convergence.
Variable toLowerCase : jsstring -> jsstring.
Variable atob : jsstring -> Result jsstring.
Variable getBranchSHA : jsstring -> jsstring -> jsstring -> Result jsstring.
Variable getTree : jsstring -> jsstring -> jsstring -> Result (list GitHubTreeItem).
Variable getBlob : jsstring -> jsstring -> jsstring -> Result GitHubBlob.
Variable dateNow : jsstring -> jsstring -> GitHubTreeItem -> jsstring.
Variables (settings : Settings) (cur : list jsstring).
Hypothesis Hbase :
  Forall (fun s => truthy s = true) (split (baseFolder settings) SLASH).

#[local] Abbreviation syncLoop :=
  (syncAll_loop toLowerCase atob getBranchSHA getTree getBlob dateNow settings).

Lemma syncAll_loop_tracked repoConfigs : forall counts,
  Forall (fun c => wfName (cfg_owner c) /\ wfName (cfg_repo c)) repoConfigs ->
  Forall (fun c => repoId c ∈ cur) repoConfigs ->
  preserves (tracked settings cur) (syncLoop repoConfigs counts).
Proof.
  induction repoConfigs as [|c rest IH]; intros counts Hwf Hcur.
  { apply preserves_ret. }
  apply Forall_cons in Hwf as [[Ho Hr] Hwf].
  apply Forall_cons in Hcur as [Hc Hcur].
  cbn [syncAll_loop]. apply preserves_bind.
  - apply preserves_tryCatch. destruct c as [o r br].
    by apply tracked_syncRepository.
  - intros res. by apply IH.
Qed.

Lemma syncAll_loop_returns repoConfigs : forall counts w,
  exists counts' w', run (syncLoop repoConfigs counts) w = (Ok counts', w').
Proof.
  induction repoConfigs as [|c rest IH]; intros counts w.
  { by exists counts, w. }
  cbn [syncAll_loop]. rewrite run_bind, run_tryCatch.
  destruct (run (syncRepository _ _ _ _ _ _ _ c) w) as [[[]|] w1]; apply IH.
Qed.

Lemma filter_untracked_nil (l : list jsstring) :
  (forall id, In id l -> id ∈ cur) ->
  List.filter (fun id => negb (bool_decide (id ∈ cur))) l = [].
Proof.
  induction l as [|x l IH]; intros Hl; [done|]. cbn [List.filter].
  rewrite bool_decide_eq_true_2 by (apply Hl; by left). cbn [negb].
  apply IH. intros id Hid. apply Hl. by right.
Qed.

End Convergence.

(** C5. Cleanup convergence. A run of [syncAll] over a well-formed vault,
    for a non-empty list of repositories whose owner and repository names
    are names (not empty, no slash) and a base folder whose path has no
    empty segment, completes, and leaves the identities of its
    repositories as [lastSyncedRepos]. On the world it leaves behind, a
    second cleanup with the same identities finds nothing to remove:
    the previous identities that are not current are none, the
    repository folders found by the scan that are not current are none,
    the removed set is empty, and the cleanup returns with the vault and
    the log of operations as they were. *)
Theorem cleanup_convergence (toLowerCase : jsstring -> jsstring)
    (atob : jsstring -> Result jsstring)
    (getBranchSHA : jsstring -> jsstring -> jsstring -> Result jsstring)
    (getTree : jsstring -> jsstring -> jsstring -> Result (list GitHubTreeItem))
    (getBlob : jsstring -> jsstring -> jsstring -> Result GitHubBlob)
    (dateNow : jsstring -> jsstring -> GitHubTreeItem -> jsstring)
    (settings : Settings) (repoConfigs : list RepoConfig) (w : World) :
  let currentRepoIds := List.map repoId repoConfigs in
  let untracked := fun id : jsstring =>
    negb (bool_decide (id ∈ currentRepoIds)) in
  repoConfigs <> [] ->
  Forall (fun c => wfName (cfg_owner c) /\ wfName (cfg_repo c)) repoConfigs ->
  Forall (fun s => truthy s = true) (split (baseFolder settings) SLASH) ->
  wfVault (vault w) ->
  exists (settings' : Settings) (counts : nat * nat) (w1 : World)
         (existingRepoIds : list jsstring),
    run (syncAll toLowerCase atob getBranchSHA getTree getBlob dateNow
           settings repoConfigs) w = (Ok (settings', counts), w1)
    /\ lastSyncedRepos settings' = currentRepoIds
    /\ run (scanExistingRepositories settings') w1 = (Ok existingRepoIds, w1)
    /\ List.filter untracked (lastSyncedRepos settings') = []
    /\ List.filter untracked existingRepoIds = []
    /\ removedRepoIds (lastSyncedRepos settings') existingRepoIds
         currentRepoIds = []
    /\ run (cleanupRemovedRepositories settings' currentRepoIds) w1
       = (Ok tt, w1).
Proof.
  intros currentRepoIds untracked Hne Hnames Hbase Hwf.
  destruct (cleanupRemovedRepositories_spec settings currentRepoIds w Hwf)
    as (w0 & Hclean & Htr0).
  destruct (syncAll_loop_returns toLowerCase atob getBranchSHA getTree getBlob
              dateNow settings repoConfigs (0, 0) w0) as (counts & w1 & Hloop).
  assert (tracked settings currentRepoIds w1) as Htr1.
  { assert (Forall (fun c => repoId c ∈ currentRepoIds) repoConfigs) as Hcur.
    { apply Forall_forall. intros c Hc. unfold currentRepoIds.
      apply list_elem_of_In, in_map. by apply list_elem_of_In. }
    pose proof (syncAll_loop_tracked toLowerCase atob getBranchSHA getTree
                  getBlob dateNow settings currentRepoIds Hbase repoConfigs
                  (0, 0) Hnames Hcur w0 Htr0) as Hinv.
    by rewrite Hloop in Hinv. }
  set (settings' := withLastSyncedRepos settings currentRepoIds).
  assert (List.filter untracked currentRepoIds = []) as Hprev.
  { apply filter_untracked_nil. intros id. apply list_elem_of_In. }
  assert (List.filter untracked
            (scanAt (split (baseFolder settings') SLASH) (vault w1)) = [])
    as Hext by (by apply filter_untracked_nil).
  assert (removedRepoIds (lastSyncedRepos settings')
            (scanAt (split (baseFolder settings') SLASH) (vault w1))
            currentRepoIds = []) as Hrem.
  { unfold removedRepoIds. fold untracked.
    change (lastSyncedRepos settings') with currentRepoIds.
    by rewrite Hext, Hprev. }
  exists settings', counts, w1,
    (scanAt (split (baseFolder settings') SLASH) (vault w1)).
  split; [|split; [done|split; [apply run_scanExistingRepositories|]]].
  - unfold syncAll.
    assert ((length repoConfigs =? 0) = false) as ->
      by (by destruct repoConfigs).
    fold currentRepoIds. rewrite run_bind, Hclean, run_bind, Hloop. done.
  - split; [exact Hprev|]. split; [exact Hext|]. split; [exact Hrem|].
    unfold cleanupRemovedRepositories.
    rewrite run_bind, run_scanExistingRepositories. by rewrite Hrem.
Qed.

Ltac wf_names :=
  repeat match goal with
    | |- wfVault _ => split
    | |- _ /\ _ => split
    | |- True => exact I
    | |- wfName _ => split; [by vm_compute|forall_lit]
    | |- NoDup _ => apply (bool_decide_unpack _); vm_compute; exact I
    | |- Forall wfTree _ => constructor
    | |- Forall (fun c => wfName _ /\ wfName _) _ => constructor
    | |- wfTree _ => cbn [wfTree fold_right]
    end.

Lemma cleanup_convergence_witness :
  exists settings' counts w1,
    run (syncAll (fun s => s) (fun s => Ok s)
           (fun _ _ _ => Ok (lit "commit"))
           (fun _ _ _ => Ok [ex_item "README.md" "sha-readme"])
           ex_getBlob ex_dateNow ex_settings
           [{| cfg_owner := lit "octo"; cfg_repo := lit "notes";
               cfg_branch := lit "main" |}])
      ex_world_stale
    = (Ok (settings', counts), w1)
    /\ run (cleanupRemovedRepositories settings'
              (List.map repoId
                 [{| cfg_owner := lit "octo"; cfg_repo := lit "notes";
                     cfg_branch := lit "main" |}])) w1
       = (Ok tt, w1).
Proof.
  destruct (cleanup_convergence (fun s => s) (fun s => Ok s)
              (fun _ _ _ => Ok (lit "commit"))
              (fun _ _ _ => Ok [ex_item "README.md" "sha-readme"])
              ex_getBlob ex_dateNow ex_settings
              [{| cfg_owner := lit "octo"; cfg_repo := lit "notes";
                  cfg_branch := lit "main" |}]
              ex_world_stale)
    as (settings' & counts & w1 & ids & Hrun & _ & _ & _ & _ & _ & Hclean).
  - discriminate.
  - cbn [cfg_owner cfg_repo]. wf_names.
  - vm_compute. repeat constructor.
  - unfold ex_world_stale. cbn [vault]. wf_names.
  - exists settings', counts, w1. split; [exact Hrun|exact Hclean].
Defined.

(** * Listing the repositories of a namespace, page by page *)

Section Pages.
Variable request : nat -> Result (list GitHubRepo).

Lemma getUserRepos_loop_full (pages : list (list GitHubRepo)) :
  forall fuel page repos asked,
  (forall i p, pages !! i = Some p ->
     request (page + i) = Ok p /\ length p = perPage) ->
  getUserRepos_loop request (length pages + fuel) page repos asked
  = getUserRepos_loop request fuel (page + length pages)
      (repos ++ concat pages) (asked ++ seq page (length pages)).
Proof.
  induction pages as [|p ps IH]; intros fuel page repos asked Hp.
  { cbn [length concat seq Nat.add]. by rewrite Nat.add_0_r, !app_nil_r. }
  destruct (Hp 0 p eq_refl) as [Hr Hl]. rewrite Nat.add_0_r in Hr.
  cbn [length Nat.add]. rewrite (getUserRepos_full_page _ _ _ _ _ p Hr Hl).
  rewrite IH.
  - cbn [concat seq]. rewrite <- !app_assoc.
    replace (page + 1 + length ps) with (page + S (length ps)) by lia.
    by replace (page + 1) with (S page) by lia.
  - intros i q Hq. specialize (Hp (S i) q Hq).
    by replace (page + 1 + i) with (page + S i) by lia.
Qed.

End Pages.

(** X1. The listing is the concatenation of its pages: when the pages
    [1 .. n] are full (100 repositories each) and the page [n + 1] is
    shorter (it may be empty), [getUserRepos] returns the repositories
    of the pages [1 .. n + 1] in order, after exactly [n + 1] requests. *)
Theorem getUserRepos_concatenates_pages
    (request : nat -> Result (list GitHubRepo))
    (pages : list (list GitHubRepo)) (lastPage : list GitHubRepo) (fuel : nat) :
  (forall i p, pages !! i = Some p ->
     request (1 + i) = Ok p /\ length p = perPage) ->
  request (1 + length pages) = Ok lastPage ->
  length lastPage < perPage ->
  length pages < fuel ->
  getUserRepos request fuel
  = Some (Ok (concat pages ++ lastPage), seq 1 (length pages + 1)).
Proof.
  intros Hp Hlast Hshort Hfuel. unfold getUserRepos.
  replace fuel with (length pages + S (fuel - length pages - 1)) by lia.
  rewrite getUserRepos_loop_full by done.
  rewrite (getUserRepos_short_page _ _ _ _ _ lastPage Hlast Hshort).
  cbn [app]. by rewrite seq_app.
Qed.

(** X2. A request that fails fails the listing: when the pages
    [1 .. n] are full and the request for the page [n + 1] throws,
    [getUserRepos] throws, and the repositories of the pages before are
    not returned. *)
Theorem getUserRepos_failed_page
    (request : nat -> Result (list GitHubRepo))
    (pages : list (list GitHubRepo)) (fuel : nat) :
  (forall i p, pages !! i = Some p ->
     request (1 + i) = Ok p /\ length p = perPage) ->
  request (1 + length pages) = Throw ->
  length pages < fuel ->
  getUserRepos request fuel = Some (Throw, seq 1 (length pages + 1)).
Proof.
  intros Hp Hlast Hfuel. unfold getUserRepos.
  replace fuel with (length pages + S (fuel - length pages - 1)) by lia.
  rewrite getUserRepos_loop_full by done.
  cbn [getUserRepos_loop app]. rewrite Hlast. by rewrite seq_app.
Qed.

Lemma getUserRepos_pages_witness :
  getUserRepos (ex_pages (Ok [ex_repo (lit "cli") false false])) 3
  = Some (Ok (concat [replicate perPage (ex_repo (lit "api") false false)]
              ++ [ex_repo (lit "cli") false false]),
          seq 1 (length [replicate perPage (ex_repo (lit "api") false false)] + 1)).
Proof.
  apply (getUserRepos_concatenates_pages
           (ex_pages (Ok [ex_repo (lit "cli") false false]))
           [replicate perPage (ex_repo (lit "api") false false)]
           [ex_repo (lit "cli") false false] 3).
  - intros [|[|i]] p Hp; [|done..]. injection Hp as <-.
    split; reflexivity.
  - reflexivity.
  - cbn. unfold perPage. lia.
  - cbn. lia.
Defined.

Lemma getUserRepos_failed_witness :
  getUserRepos (ex_pages Throw) 3
  = Some (Throw,
          seq 1 (length [replicate perPage (ex_repo (lit "api") false false)] + 1)).
Proof.
  apply (getUserRepos_failed_page (ex_pages Throw)
           [replicate perPage (ex_repo (lit "api") false false)] 3).
  - intros [|[|i]] p Hp; [|done..]. injection Hp as <-.
    split; reflexivity.
  - reflexivity.
  - cbn. lia.
Defined.

(** * The repositories to sync *)

Section Configs.
Variable isMatch : jsstring -> jsstring -> bool.
Variable userRequest : jsstring -> nat -> Result (list GitHubRepo).
Variable orgRequest : jsstring -> nat -> Result (list GitHubRepo).
Variable fuel : nat.
Variable settings : Settings.

#[local] Abbreviation reposOf := (namespaceRepos userRequest orgRequest fuel).
#[local] Abbreviation discoverLoop :=
  (discoverRepositories_loop isMatch userRequest orgRequest fuel settings).
#[local] Abbreviation discover :=
  (discoverRepositories isMatch userRequest orgRequest fuel settings).
#[local] Abbreviation passes r :=
  ((private r = false \/ includePrivate (autoDefaults settings) = true)
   /\ (archived r = false \/ includeArchived (autoDefaults settings) = true)
   /\ (fork r = false \/ includeForks (autoDefaults settings) = true)
   /\ (repoGlob (autoDefaults settings) = []
       \/ repoGlob (autoDefaults settings) = lit "*"
       \/ isMatch (name r) (repoGlob (autoDefaults settings)) = true)).

Lemma discoverRepositories_loop_In namespaces : forall allRepos found r,
  discoverLoop namespaces allRepos = Some found ->
  In r found ->
  In r allRepos
  \/ (passes r
      /\ exists namespace repos,
           In namespace namespaces
           /\ reposOf namespace = Some (Some repos) /\ In r repos).
Proof.
  induction namespaces as [|ns rest IH]; intros allRepos found r Hrun Hin.
  { injection Hrun as <-. by left. }
  cbn [discoverRepositories_loop] in Hrun.
  destruct (reposOf ns) as [[repos|]|] eqn:Hns; [| |done].
  - destruct (length repos =? 0).
    + destruct (IH _ _ _ Hrun Hin) as [?|(Hp & ns' & repos' & Hns' & ? & ?)];
        [by left|]. right. split; [done|]. exists ns', repos'.
      split; [by right|done].
    + destruct (IH _ _ _ Hrun Hin) as [Ha|(Hp & ns' & repos' & Hns' & ? & ?)].
      * apply in_app_or in Ha as [?|Hf]; [by left|]. right.
        apply filterRepositories_In in Hf as [Hr Hp]. split; [done|].
        exists ns, repos. split; [by left|done].
      * right. split; [done|]. exists ns', repos'. split; [by right|done].
  - destruct (IH _ _ _ Hrun Hin) as [?|(Hp & ns' & repos' & Hns' & ? & ?)];
      [by left|]. right. split; [done|]. exists ns', repos'.
    split; [by right|done].
Qed.

Lemma discoverRepositories_loop_skip before : forall namespace after allRepos,
  reposOf namespace = Some None ->
  discoverLoop (before ++ namespace :: after) allRepos
  = discoverLoop (before ++ after) allRepos.
Proof.
  induction before as [|ns before IH]; intros namespace after allRepos Hns;
    cbn [app discoverRepositories_loop].
  { by rewrite Hns. }
  destruct (reposOf ns) as [[repos|]|]; [|by apply IH|done].
  destruct (length repos =? 0); by apply IH.
Qed.

#[local] Abbreviation key c := (cfg_owner c, cfg_repo c).

Lemma existsb_key (repo : GitHubRepo) (configs : list RepoConfig) :
  existsb (fun config =>
             bool_decide (cfg_owner config = owner_login repo)
             && bool_decide (cfg_repo config = name repo)) configs = false ->
  (owner_login repo, name repo) ∉ List.map (fun c => key c) configs.
Proof.
  induction configs as [|c configs IH]; cbn [existsb List.map].
  { intros _. apply not_elem_of_nil. }
  intros [Hc Hrest]%orb_false_elim. apply not_elem_of_cons. split; [|by apply IH].
  intros E. injection E as E1 E2.
  by rewrite E1, E2, !bool_decide_eq_true_2 in Hc.
Qed.

Lemma getAllRepoConfigs_loop_spec autoRepos : forall configs,
  NoDup (List.map (fun c => key c) configs) ->
  NoDup (List.map (fun c => key c) (getAllRepoConfigs_loop autoRepos configs))
  /\ configs `prefix_of` getAllRepoConfigs_loop autoRepos configs.
Proof.
  induction autoRepos as [|repo rest IH]; intros configs Hnd;
    cbn [getAllRepoConfigs_loop].
  { done. }
  destruct (existsb _ configs) eqn:He; cbn [negb].
  { by apply IH. }
  destruct (IH (configs ++ [{| cfg_owner := owner_login repo;
                               cfg_repo := name repo;
                               cfg_branch := default_branch repo |}]))
    as [Hnd' Hpre].
  - rewrite List.map_app. apply NoDup_app. split; [done|]. split.
    + intros x Hx Hx'. apply list_elem_of_singleton in Hx'. subst x.
      by apply (existsb_key repo configs He).
    + apply NoDup_singleton.
  - split; [done|]. etrans; [|done]. by apply prefix_app_r.
Qed.

End Configs.

(** X3. Every repository that discovery returns was listed for one of
    the namespaces and passes the filters of the settings: it is private,
    archived or a fork only when the settings include such repositories,
    and its name matches the glob unless the glob is empty or ["*"]. *)
Theorem discovered_repositories_pass_filters
    (isMatch : jsstring -> jsstring -> bool)
    (userRequest orgRequest : jsstring -> nat -> Result (list GitHubRepo))
    (fuel : nat) (settings : Settings) (namespaces : list jsstring)
    (allRepos : list GitHubRepo) (r : GitHubRepo) :
  discoverRepositories isMatch userRequest orgRequest fuel settings namespaces
  = Some allRepos ->
  In r allRepos ->
  (private r = false \/ includePrivate (autoDefaults settings) = true)
  /\ (archived r = false \/ includeArchived (autoDefaults settings) = true)
  /\ (fork r = false \/ includeForks (autoDefaults settings) = true)
  /\ (repoGlob (autoDefaults settings) = []
      \/ repoGlob (autoDefaults settings) = lit "*"
      \/ isMatch (name r) (repoGlob (autoDefaults settings)) = true)
  /\ exists namespace repos,
       In namespace namespaces
       /\ namespaceRepos userRequest orgRequest fuel namespace
          = Some (Some repos)
       /\ In r repos.
Proof.
  intros Hrun Hin.
  destruct (discoverRepositories_loop_In isMatch userRequest orgRequest fuel
              settings namespaces [] allRepos r Hrun Hin)
    as [[]|((? & ? & ? & ?) & ?)]. done.
Qed.

(** X4. A namespace that can be listed neither as a user nor as an
    organisation is skipped: discovery gives what it gives without that
    namespace, for the namespaces before it and after it alike. *)
Theorem discovery_skips_failed_namespace
    (isMatch : jsstring -> jsstring -> bool)
    (userRequest orgRequest : jsstring -> nat -> Result (list GitHubRepo))
    (fuel : nat) (settings : Settings)
    (before after : list jsstring) (namespace : jsstring)
    (asked1 asked2 : list nat) :
  getUserRepos (userRequest namespace) fuel = Some (Throw, asked1) ->
  getOrgRepos (orgRequest namespace) fuel = Some (Throw, asked2) ->
  discoverRepositories isMatch userRequest orgRequest fuel settings
    (before ++ namespace :: after)
  = discoverRepositories isMatch userRequest orgRequest fuel settings
      (before ++ after).
Proof.
  intros Hu Ho. unfold discoverRepositories.
  apply discoverRepositories_loop_skip. unfold namespaceRepos.
  by rewrite Hu, Ho.
Qed.

(** X5. No repository is configured twice by discovery: when the manual
    repositories are pairwise different (as pairs of owner and name),
    so are the configurations [getAllRepoConfigs] returns, and the
    manual ones come first, in their order, with their own branches. *)
Theorem repo_configs_distinct
    (isMatch : jsstring -> jsstring -> bool)
    (userRequest orgRequest : jsstring -> nat -> Result (list GitHubRepo))
    (fuel : nat) (settings : Settings)
    (repos : list ManualRepo) (namespaces : list jsstring)
    (configs : list RepoConfig) :
  getAllRepoConfigs isMatch userRequest orgRequest fuel settings repos
    namespaces = Some configs ->
  NoDup (List.map (fun r => (manual_owner r, manual_repo r)) repos) ->
  NoDup (List.map (fun c => (cfg_owner c, cfg_repo c)) configs)
  /\ List.map manualConfig repos `prefix_of` configs.
Proof.
  intros Hrun Hnd. unfold getAllRepoConfigs in Hrun.
  assert (NoDup (List.map (fun c => (cfg_owner c, cfg_repo c))
                   (List.map manualConfig repos))) as Hnd'.
  { by rewrite List.map_map. }
  destruct (0 <? length namespaces).
  - destruct (discoverRepositories _ _ _ _ _ _) as [autoRepos|]; [|done].
    injection Hrun as <-. by apply getAllRepoConfigs_loop_spec.
  - injection Hrun as <-. done.
Qed.

Lemma discovered_repositories_witness :
  (private (ex_repo (lit "alpha") false false) = false
   \/ includePrivate (autoDefaults ex_settings) = true)
  /\ (archived (ex_repo (lit "alpha") false false) = false
      \/ includeArchived (autoDefaults ex_settings) = true)
  /\ (fork (ex_repo (lit "alpha") false false) = false
      \/ includeForks (autoDefaults ex_settings) = true)
  /\ (repoGlob (autoDefaults ex_settings) = []
      \/ repoGlob (autoDefaults ex_settings) = lit "*"
      \/ wildcardMatch (name (ex_repo (lit "alpha") false false))
           (repoGlob (autoDefaults ex_settings)) = true)
  /\ exists namespace repos,
       In namespace [lit "octo"; lit "acme"]
       /\ namespaceRepos ex_userRequest ex_orgRequest 2 namespace
          = Some (Some repos)
       /\ In (ex_repo (lit "alpha") false false) repos.
Proof.
  apply (discovered_repositories_pass_filters wildcardMatch ex_userRequest
           ex_orgRequest 2 ex_settings [lit "octo"; lit "acme"]
           [ex_repo (lit "alpha") false false;
            {| name := lit "delta"; full_name := lit "acme/delta";
               owner_login := lit "acme"; default_branch := lit "trunk";
               private := false; fork := false; archived := false;
               clone_url := [] |}]).
  - vm_compute. reflexivity.
  - left. reflexivity.
Defined.

Lemma discovery_skips_witness :
  discoverRepositories wildcardMatch ex_userRequest ex_orgRequest 2 ex_settings
    ([lit "octo"] ++ lit "nobody" :: [lit "acme"])
  = discoverRepositories wildcardMatch ex_userRequest ex_orgRequest 2
      ex_settings ([lit "octo"] ++ [lit "acme"]).
Proof.
  apply (discovery_skips_failed_namespace wildcardMatch ex_userRequest
           ex_orgRequest 2 ex_settings [lit "octo"] [lit "acme"]
           (lit "nobody") [1] [1]).
  - vm_compute. reflexivity.
  - vm_compute. reflexivity.
Defined.

Lemma repo_configs_witness :
  exists configs,
    getAllRepoConfigs wildcardMatch ex_userRequest ex_orgRequest 2 ex_settings
      [{| manual_owner := lit "octo"; manual_repo := lit "alpha";
          manual_branch := Some (lit "dev") |}]
      [lit "octo"; lit "acme"] = Some configs
    /\ NoDup (List.map (fun c => (cfg_owner c, cfg_repo c)) configs)
    /\ List.map manualConfig
         [{| manual_owner := lit "octo"; manual_repo := lit "alpha";
             manual_branch := Some (lit "dev") |}] `prefix_of` configs.
Proof.
  eexists. split; [vm_compute; reflexivity|].
  apply (repo_configs_distinct wildcardMatch ex_userRequest ex_orgRequest 2
           ex_settings
           [{| manual_owner := lit "octo"; manual_repo := lit "alpha";
               manual_branch := Some (lit "dev") |}]
           [lit "octo"; lit "acme"]).
  - vm_compute. reflexivity.
  - apply (bool_decide_unpack _). vm_compute. exact I.
Defined.

(** * The files of a repository *)

(** X6. Without media, the syncable files of a repository are its
    Markdown files: [getAllSyncableFiles] with [includeMedia = false]
    answers what [getAllMarkdownFiles] answers, the failures included. *)
Theorem syncable_files_without_media
    (toLowerCase : jsstring -> jsstring)
    (getBranchSHA : jsstring -> jsstring -> jsstring -> Result jsstring)
    (getTree : jsstring -> jsstring -> jsstring -> Result (list GitHubTreeItem))
    (owner repo branch : jsstring) :
  getAllSyncableFiles toLowerCase getBranchSHA getTree owner repo branch false
  = getAllMarkdownFiles getBranchSHA getTree owner repo branch.
Proof.
  unfold getAllSyncableFiles, getAllMarkdownFiles.
  destruct (getBranchSHA owner repo branch) as [sha|]; [|done].
  destruct (getTree owner repo sha) as [items|]; [|done].
  f_equal. induction items as [|item items IH]; [done|].
  cbn [List.filter]. rewrite IH.
  destruct (item_type item); [|done].
  by destruct (endsWith (item_path item) (lit ".md")
               || endsWith (item_path item) (lit ".mdx")).
Qed.

(** X7. [getFileContent] answers bytes exactly when the path is a media
    path and the blob is base64-encoded (the bytes are the decoded
    content); every other blob that can be read is answered as text, a
    media file with the encoding [utf-8] included. *)
Theorem getFileContent_binary_iff
    (toLowerCase : jsstring -> jsstring) (atob : jsstring -> Result jsstring)
    (getBlob : jsstring -> jsstring -> jsstring -> Result GitHubBlob)
    (owner repo : jsstring) (item : GitHubTreeItem) (bytes : list N) :
  getFileContent toLowerCase atob getBlob owner repo item = Ok (inr bytes)
  <-> isMediaFile toLowerCase (item_path item) = true
      /\ exists b, getBlob owner repo (item_sha item) = Ok b
                   /\ blob_encoding b = base64
                   /\ atob (blob_content b) = Ok bytes.
Proof.
  unfold getFileContent. split.
  - destruct (getBlob owner repo (item_sha item)) as [b|]; [|done].
    destruct (blob_encoding b) eqn:Henc; [|done].
    destruct (isMediaFile toLowerCase (item_path item)).
    + destruct (atob (blob_content b)) as [s|] eqn:Ha; [|done].
      intros [= <-]. split; [done|]. by exists b.
    + by destruct (atob (blob_content b)).
  - intros (-> & b & -> & -> & ->). done.
Qed.

Section Media.
Variable toLowerCase : jsstring -> jsstring.

Lemma lastIndexOf_none (s : jsstring) c :
  Forall (fun d => d <> c) s -> lastIndexOf s c = (-1)%Z.
Proof.
  intros Hs. unfold lastIndexOf.
  enough (find_sub [c] (rev s) = None) as -> by done.
  apply Forall_rev in Hs. induction Hs as [|d l Hd _ IH]; [done|].
  cbn [find_sub isPrefix]. apply N.eqb_neq in Hd.
  rewrite (N.eqb_sym c d), Hd. cbn. by rewrite IH.
Qed.

(** An offset past the end is clamped, and nothing is left either way. *)
Lemma substringFrom_drop (s : jsstring) (n : nat) :
  substringFrom s (Z.of_nat n) = drop n s.
Proof.
  unfold substringFrom, clampIndex.
  destruct (decide (n <= length s)) as [Hn|Hn].
  - f_equal. lia.
  - rewrite !drop_ge by lia. done.
Qed.

(** The offset is that of the last dot of the path as given; the cut is
    made in the lower-case form. *)
Lemma isMediaFile_cut stem e :
  Forall (fun c => c <> DOT) e ->
  isMediaFile toLowerCase (stem ++ DOT :: e)
  = bool_decide
      (drop (length stem) (toLowerCase (stem ++ DOT :: e)) ∈ mediaExtensions).
Proof.
  intros He. unfold isMediaFile. rewrite lastIndexOf_leaf by done.
  by rewrite substringFrom_drop.
Qed.

Lemma isMediaFile_dot stem e :
  Forall (fun c => c <> DOT) e ->
  toLowerCase (stem ++ DOT :: e) = toLowerCase stem ++ toLowerCase (DOT :: e) ->
  length (toLowerCase stem) = length stem ->
  isMediaFile toLowerCase (stem ++ DOT :: e)
  = bool_decide (toLowerCase (DOT :: e) ∈ mediaExtensions).
Proof.
  intros He Happ Hlen. rewrite isMediaFile_cut by done.
  by rewrite Happ, <- Hlen, drop_app_length.
Qed.

Lemma isMediaFile_no_dot p :
  Forall (fun c => c <> DOT) p ->
  isMediaFile toLowerCase p = bool_decide (toLowerCase p ∈ mediaExtensions).
Proof.
  intros Hp. unfold isMediaFile. rewrite lastIndexOf_none by done.
  unfold substringFrom. by rewrite clampIndex_neg.
Qed.

(** A case mapping that makes the part before the dot longer moves the
    dot past the offset, and the media extension is missed: so it is
    with the capital dotted I, which the host lowers to two units. *)
Lemma isMediaFile_longer_stem :
  toLowerCase [304; 46; 112; 110; 103]%N
  = [105; 775; 46; 112; 110; 103]%N ->
  isMediaFile toLowerCase [304; 46; 112; 110; 103]%N = false.
Proof. intros H. unfold isMediaFile. rewrite H. vm_compute. reflexivity. Qed.

End Media.

(** X8. Whatever the case mapping of the host does, a path with a dot is
    a media path exactly when its lower-case form, cut at the offset that
    the last dot has in the path as given, is one of the fifteen media
    extensions. Where the mapping lowers this path piece by piece and
    keeps the length of the part before the last dot (as it does on
    ASCII), that is the lower-case form of the last extension, from the
    dot on. A path without a dot is compared as a whole, in lower case. *)
Theorem isMediaFile_by_extension (toLowerCase : jsstring -> jsstring)
    (stem e : jsstring) :
  Forall (fun c => c <> DOT) e ->
  isMediaFile toLowerCase (stem ++ DOT :: e)
  = bool_decide
      (drop (length stem) (toLowerCase (stem ++ DOT :: e)) ∈ mediaExtensions)
  /\ (toLowerCase (stem ++ DOT :: e)
      = toLowerCase stem ++ toLowerCase (DOT :: e) ->
      length (toLowerCase stem) = length stem ->
      isMediaFile toLowerCase (stem ++ DOT :: e)
      = bool_decide (toLowerCase (DOT :: e) ∈ mediaExtensions))
  /\ isMediaFile toLowerCase e
     = bool_decide (toLowerCase e ∈ mediaExtensions).
Proof.
  intros He. split; [|split].
  - by apply isMediaFile_cut.
  - by apply isMediaFile_dot.
  - by apply isMediaFile_no_dot.
Qed.

Lemma isMediaFile_witness :
  isMediaFile (fun s => s) (lit "docs/img.v2/logo" ++ DOT :: lit "png")
  = bool_decide
      (drop (length (lit "docs/img.v2/logo"))
         (lit "docs/img.v2/logo" ++ DOT :: lit "png") ∈ mediaExtensions)
  /\ isMediaFile (fun s => s) (lit "docs/img.v2/logo" ++ DOT :: lit "png")
     = bool_decide (DOT :: lit "png" ∈ mediaExtensions)
  /\ isMediaFile (fun s => s) (lit "png")
     = bool_decide (lit "png" ∈ mediaExtensions).
Proof.
  destruct (isMediaFile_by_extension (fun s => s) (lit "docs/img.v2/logo")
              (lit "png")) as (H1 & H2 & H3).
  - vm_compute. repeat constructor; discriminate.
  - split; [exact H1|]. split; [|exact H3].
    apply H2; reflexivity.
Defined.

(** * More on the codec *)

Section Backlinks.
Implicit Types (rest target content : jsstring).

Lemma insertBacklink_once rest target target' :
  noLineTerminator target ->
  insertBacklink (insertBacklink rest target) target' = insertBacklink rest target.
Proof.
  intros Ht. unfold insertBacklink at 2 3.
  destruct (matchBacklink (drop (backlinkOffset rest) rest)) eqn:Hm.
  { unfold insertBacklink. by rewrite Hm. }
  assert (backlinkOffset
            (take (backlinkOffset rest) rest ++ backlinkLine target
             ++ drop (backlinkOffset rest) rest) = backlinkOffset rest
          /\ backlinkOffset rest <= length rest) as [Hoff Hle].
  { split; [|apply backlinkOffset_le].
    unfold backlinkOffset.
    destruct (startsWith rest BANNER_MARKER) eqn:Hs; [|done].
    destruct (find_sub BLANK rest) as [j|] eqn:Hf; [|done].
    pose proof (blank_after_marker _ _ Hs Hf) as Hj.
    pose proof (find_sub_bound _ _ _ Hf) as Hb. simpl in Hb.
    assert (startsWith (take (j + 2) rest ++ backlinkLine target
                        ++ drop (j + 2) rest) BANNER_MARKER = true) as ->.
    { unfold startsWith in *. rewrite <- (take_drop (j + 2) rest) in Hs.
      rewrite <- Hs. apply isPrefix_ext. rewrite length_take. lia. }
    rewrite <- (take_drop (j + 2) rest) in Hf.
    rewrite (find_sub_ext _ _ _ _ _ Hf); [done|].
    rewrite length_take. simpl. lia. }
  unfold insertBacklink. rewrite Hoff.
  rewrite drop_app_length' by (rewrite length_take; lia).
  by rewrite matchBacklink_line.
Qed.

Lemma insertBacklink_plain rest target :
  startsWith rest FM_OPEN = false ->
  startsWith (insertBacklink rest target) FM_OPEN = false.
Proof.
  intros Hs. unfold insertBacklink.
  destruct (matchBacklink _); [done|].
  unfold backlinkOffset.
  destruct (startsWith rest BANNER_MARKER) eqn:Hb; [|done].
  destruct (find_sub BLANK rest) as [j|] eqn:Hf; [|done].
  pose proof (blank_after_marker _ _ Hb Hf) as Hj.
  pose proof (find_sub_bound _ _ _ Hf) as Hbd. simpl in Hbd.
  unfold startsWith in *. rewrite <- (take_drop (j + 2) rest) in Hs.
  rewrite <- Hs. apply isPrefix_ext. rewrite length_take.
  change (length BANNER_MARKER) with 22 in Hj. change (length FM_OPEN) with 4.
  lia.
Qed.

End Backlinks.

(** X9. A backlink is never retargeted: once [addBacklink] has put a
    backlink into a content, applying it again leaves the content as it
    is, whatever the new target. (The target of the first link has no
    line terminator, so that the pattern recognises the link.) *)
Theorem addBacklink_never_retargets (content target target' : jsstring) :
  noLineTerminator target ->
  addBacklink (addBacklink content target) target'
  = addBacklink content target.
Proof.
  intros Ht. destruct (headerEnd content) as [e|] eqn:He.
  - pose proof (headerEnd_Some _ _ He) as (_ & _ & Hle).
    rewrite (addBacklink_closed content target e He).
    rewrite (addBacklink_closed _ target' e) by by apply headerEnd_ext.
    rewrite take_take_app, drop_take_app by lia.
    by rewrite insertBacklink_once.
  - rewrite (addBacklink_open content target He).
    rewrite addBacklink_open; [by apply insertBacklink_once|].
    destruct (startsWith content FM_OPEN) eqn:Hs.
    + by destruct (headerEnd_backlink content target Hs) as [?| ->].
    + unfold headerEnd. by rewrite insertBacklink_plain.
Qed.

Lemma addBacklink_witness :
  addBacklink (addBacklink (lit "Body") (lit "Projects"))
    (lit "Projects/octo/notes/README")
  = addBacklink (lit "Body") (lit "Projects").
Proof.
  apply (addBacklink_never_retargets (lit "Body") (lit "Projects")
           (lit "Projects/octo/notes/README")).
  forall_lit.
Defined.

Section Recover.
Implicit Types (content rest now : jsstring) (m : FileMetadata).

(** The branch [extractGitHubMetadata] reports is read off the URL. *)
Lemma extract_branch content m :
  extractGitHubMetadata content = Some m ->
  branch m
  = let urlParts := split (githubUrl m) SLASH in
    let blobIndex :=
      findIndex (fun part => bool_decide (part = lit "blob")) urlParts in
    if (blobIndex =? -1)%Z then lit "main"
    else match urlParts !! Z.to_nat (blobIndex + 1) with
         | Some b => if truthy b then b else lit "main"
         | None => lit "main"
         end.
Proof.
  unfold extractGitHubMetadata.
  destruct (negb (startsWith content FM_OPEN)); [done|].
  destruct (indexOf content FM_CLOSE =? -1)%Z; [done|].
  destruct (foldl scanLine _ _) as [[r p] u].
  destruct (negb (truthy r) || negb (truthy p) || negb (truthy u)); [done|].
  destruct (split r SLASH) as [|o [|r' l]]; [done..|].
  destruct (negb (truthy o) || negb (truthy r')); [done|].
  by intros [= <-].
Qed.

Lemma solid_noLF (s : jsstring) :
  Forall (fun c => isWhiteSpace c = false) s -> noLF s.
Proof.
  intros H. eapply Forall_impl; [done|]. intros c Hc ->. done.
Qed.

Lemma buildFileUrl_parts (o r p b : jsstring) :
  noSlash o -> noSlash r -> noSlash b ->
  split (buildFileUrl o r p b) SLASH
  = [lit "https:"; []; lit "github.com"; o; r; lit "blob"; b] ++ split p SLASH.
Proof.
  intros Ho Hr Hb. unfold buildFileUrl.
  change (lit "https://github.com/" ++ ?x)
    with (lit "https:" ++ SLASH :: [] ++ SLASH :: lit "github.com" ++ SLASH :: x).
  change (lit "/blob/" ++ ?x) with (SLASH :: lit "blob" ++ SLASH :: x).
  change (o ++ [SLASH] ++ ?x) with (o ++ SLASH :: x).
  change (b ++ [SLASH] ++ ?x) with (b ++ SLASH :: x).
  rewrite (split_sep (lit "https:")) by forall_lit.
  rewrite (split_sep [] _ SLASH (Forall_nil_2 _)).
  rewrite (split_sep (lit "github.com")) by forall_lit.
  rewrite (split_sep o), (split_sep r) by done.
  rewrite (split_sep (lit "blob")) by forall_lit.
  by rewrite (split_sep b).
Qed.

Lemma blob_segment (o r b : jsstring) (rest : list jsstring) :
  o <> lit "blob" -> r <> lit "blob" ->
  findIndex (fun part => bool_decide (part = lit "blob"))
    ([lit "https:"; []; lit "github.com"; o; r; lit "blob"; b] ++ rest)
  = 5%Z.
Proof.
  intros Ho Hr. cbn [app findIndex].
  change (bool_decide (lit "https:" = lit "blob")) with false.
  change (bool_decide ([] = lit "blob")) with false.
  change (bool_decide (lit "github.com" = lit "blob")) with false.
  change (bool_decide (lit "blob" = lit "blob")) with true.
  rewrite (bool_decide_eq_false_2 (o = lit "blob")) by done.
  rewrite (bool_decide_eq_false_2 (r = lit "blob")) by done.
  reflexivity.
Qed.

Lemma buildFileUrl_solid (o r p b : jsstring) :
  Forall (fun c => isWhiteSpace c = false) o ->
  Forall (fun c => isWhiteSpace c = false) r ->
  Forall (fun c => isWhiteSpace c = false) p ->
  Forall (fun c => isWhiteSpace c = false) b ->
  Forall (fun c => isWhiteSpace c = false) (buildFileUrl o r p b).
Proof.
  intros Ho Hr Hp Hb. unfold buildFileUrl.
  repeat (apply Forall_app; split); try done;
    try (vm_compute; repeat constructor).
Qed.

End Recover.

(** X10. The header extracts back to the metadata it was rendered from,
    the branch included: for an owner, a repository name and a branch
    that are names (not empty, no white space, no slash), an owner and
    a repository name other than ["blob"], a path without white space,
    and the URL [buildFileUrl] builds, [extractGitHubMetadata] on what
    [addFrontmatterIfMissing] makes of a content without a header of its
    own is the metadata. The branch is the URL segment after the first
    segment ["blob"], which is why the names must differ from it. *)
Theorem extract_recovers_metadata (content o r b p now : jsstring) :
  startsWith content FM_OPEN = false ->
  token o -> token r -> token b ->
  o <> lit "blob" -> r <> lit "blob" ->
  p <> [] -> Forall (fun c => isWhiteSpace c = false) p ->
  noLF now ->
  let m := {| owner := o; repo := r; branch := b; path := p;
              githubUrl := buildFileUrl o r p b |} in
  extractGitHubMetadata (addFrontmatterIfMissing content m now) = Some m.
Proof.
  intros Hs Ho Hr Hb Hob Hrb Hp Hps Hnow m.
  unfold addFrontmatterIfMissing. rewrite Hs.
  pose proof (buildFileUrl_solid o r p b (token_solid _ Ho) (token_solid _ Hr)
                Hps (token_solid _ Hb)) as Hus.
  assert (provenance m now) as Hprov.
  { split; [|split; [done|split; [done|]]].
    - unfold lineSafe. cbn [owner repo path githubUrl].
      split; [by apply solid_noLF, token_solid|].
      split; [by apply solid_noLF, token_solid|].
      split; [by apply solid_noLF|]. split; [by apply solid_noLF|done].
    - cbn [path githubUrl]. rewrite !trim_solid by done.
      split; [by destruct p|done]. }
  destruct (extract_generated m now content Hprov) as [br Hex].
  rewrite Hex. pose proof (extract_branch _ _ Hex) as Hbr.
  subst m. cbn [owner repo branch githubUrl path] in *.
  rewrite !trim_solid in * by done.
  rewrite buildFileUrl_parts in Hbr by by apply token_noSlash.
  rewrite blob_segment in Hbr by done.
  change (5 =? -1)%Z with false in Hbr.
  change (Z.to_nat (5 + 1)) with 6 in Hbr.
  cbn [app lookup list_lookup] in Hbr.
  assert (truthy b = true) as Htb by (destruct Hb as [Hne _]; by destruct b).
  rewrite Htb in Hbr. by rewrite Hbr.
Qed.

Lemma extract_recovers_witness :
  extractGitHubMetadata (addFrontmatterIfMissing (lit "Body") ex_meta ex_now1)
  = Some ex_meta.
Proof.
  refine (extract_recovers_metadata (lit "Body") (lit "octo") (lit "notes")
            (lit "main") (lit "docs/guide.md") ex_now1 _ _ _ _ _ _ _ _ _).
  - reflexivity.
  - split; [discriminate|]. vm_compute. repeat constructor; discriminate.
  - split; [discriminate|]. vm_compute. repeat constructor; discriminate.
  - split; [discriminate|]. vm_compute. repeat constructor; discriminate.
  - discriminate.
  - discriminate.
  - discriminate.
  - vm_compute. repeat constructor.
  - forall_lit.
Defined.

Section StripProcessed.

Lemma stripProcessedContent_header content e :
  headerEnd content = Some e ->
  stripProcessedContent content = stripBody (drop e content).
Proof.
  intros (Hs & Hf & He)%headerEnd_Some.
  unfold stripProcessedContent, stripBody. cbv zeta.
  rewrite Hs, (indexOf_Some _ _ _ Hf).
  destruct (Z.eqb_spec (Z.of_nat (e - 5)) (-1)); [lia|].
  replace (Z.of_nat (e - 5) + 5)%Z with (Z.of_nat e) by lia.
  by rewrite substringFrom_nat by lia.
Qed.

End StripProcessed.

(** X11. [stripProcessedContent], the orchestrator's own inverse of the
    pipeline, gives the body back: for a body without a header of its
    own, without the banner marker and without leading white space,
    metadata and a clock reading without line feeds and a non-empty
    target without a line terminator, it maps the output of the full
    pipeline to the body. *)
Theorem stripProcessedContent_roundtrip (b : jsstring) (m : FileMetadata)
    (target now : jsstring) :
  startsWith b FM_OPEN = false ->
  includes b BANNER_MARKER = false ->
  trimStart b = b ->
  lineSafe m now ->
  truthy target = true ->
  noLineTerminator target ->
  stripProcessedContent (processFileContent b m (allOn target) now) = b.
Proof.
  intros Hs Hi Htrim Hsafe Ht Hlt.
  pose proof Hsafe as (Ho & Hr & _ & Hu & _).
  rewrite pipeline_shape by done.
  rewrite (stripProcessedContent_header _ (length (headerBlock m now)))
    by by apply headerBlock_end.
  by rewrite drop_app_length, stripBody_blocks.
Qed.

Lemma stripProcessedContent_witness :
  stripProcessedContent
    (processFileContent (lit "hello") ex_meta (allOn ex_target) ex_now1)
  = lit "hello".
Proof.
  apply (stripProcessedContent_roundtrip (lit "hello") ex_meta ex_target ex_now1).
  - reflexivity.
  - reflexivity.
  - reflexivity.
  - unfold lineSafe. repeat split; forall_lit.
  - reflexivity.
  - forall_lit.
Defined.

(** * More on the pruning walk *)

Section Spared.
Variable toLowerCase : jsstring -> jsstring.
Variable settings : Settings.
Variable syncedFiles : gset jsstring.

Lemma pruneFile_synced p data :
  p ∈ syncedFiles -> pruneFile toLowerCase settings syncedFiles p data = false.
Proof. intros Hp. unfold pruneFile. by rewrite bool_decide_eq_true_2. Qed.

Lemma pruneFile_other p data :
  isMarkdownFile p = false ->
  isMediaFile toLowerCase p = false \/ ~ noSlash (baseFolder settings) ->
  pruneFile toLowerCase settings syncedFiles p data = false.
Proof.
  intros Hmd Hor. unfold pruneFile, isMarkdownFile in *.
  destruct (negb (bool_decide (p ∈ syncedFiles))); [|done]. rewrite Hmd.
  destruct (isMediaFile toLowerCase p); [|done].
  destruct Hor as [?|Hbase]; [done|].
  apply andb_false_intro2, bool_decide_eq_false_2. intros Hfirst.
  apply Hbase. pose proof (split_segments p SLASH) as Hseg.
  destruct (split p SLASH) as [|s l]; [done|]. injection Hfirst as <-.
  by apply Forall_cons in Hseg as [? _].
Qed.

End Spared.

(** X12. The pruning walk never removes a file of the synced set: a
    file below the folder whose path is among the paths synced in this
    run is below it afterwards, whatever it contains. *)
Theorem pruning_keeps_synced_files (toLowerCase : jsstring -> jsstring)
    (settings : Settings) (syncedFiles : gset jsstring)
    (n : jsstring) (children : list TAbstractFile) (folderPath : jsstring)
    (segs : list jsstring) (nm data : jsstring) :
  occursAt segs (TFile nm data) children ->
  folderPath ++ [SLASH] ++ join segs [SLASH] ∈ syncedFiles ->
  occursAt segs (TFile nm data)
    (pruneFolder toLowerCase settings (TFolder n children) folderPath
       syncedFiles).
Proof.
  intros Hocc Hp. apply prune_keeps; [done|]. by apply pruneFile_synced.
Qed.

Lemma pruning_keeps_synced_witness :
  occursAt [lit "README.md"]
    (TFile (lit "README.md") (ex_synced "README.md" "Notes"))
    (pruneFolder (fun s => s) ex_settings (TFolder (lit "notes") ex_repoFolder)
       (lit "Projects/octo/notes")
       {[ lit "Projects/octo/notes" ++ [SLASH] ++ join [lit "README.md"] [SLASH] ]}).
Proof.
  apply (pruning_keeps_synced_files (fun s => s) ex_settings _ (lit "notes")
           ex_repoFolder (lit "Projects/octo/notes") [lit "README.md"]
           (lit "README.md") (ex_synced "README.md" "Notes")).
  - split; [left; reflexivity|reflexivity].
  - by apply elem_of_singleton.
Defined.

(** X13. What is neither Markdown nor media is never pruned, and with a
    base folder that is itself a path with a slash no media file is
    pruned either: the walk compares the first segment of the file's
    path with the whole base folder. Such a file below the folder is
    below it afterwards. *)
Theorem pruning_spares_other_files (toLowerCase : jsstring -> jsstring)
    (settings : Settings) (syncedFiles : gset jsstring)
    (n : jsstring) (children : list TAbstractFile) (folderPath : jsstring)
    (segs : list jsstring) (nm data : jsstring) :
  let p := folderPath ++ [SLASH] ++ join segs [SLASH] in
  occursAt segs (TFile nm data) children ->
  isMarkdownFile p = false ->
  isMediaFile toLowerCase p = false \/ ~ noSlash (baseFolder settings) ->
  occursAt segs (TFile nm data)
    (pruneFolder toLowerCase settings (TFolder n children) folderPath
       syncedFiles).
Proof.
  intros p Hocc Hmd Hor. apply prune_keeps; [done|]. by apply pruneFile_other.
Qed.

Lemma pruning_spares_witness :
  occursAt [lit "logo.png"] (TFile (lit "logo.png") [137; 80; 78; 71]%N)
    (pruneFolder (fun s => s) ex_settings_nested
       (TFolder (lit "notes") [TFile (lit "logo.png") [137; 80; 78; 71]%N])
       (lit "Vault/Projects/octo/notes") ∅).
Proof.
  apply (pruning_spares_other_files (fun s => s) ex_settings_nested ∅
           (lit "notes") [TFile (lit "logo.png") [137; 80; 78; 71]%N]
           (lit "Vault/Projects/octo/notes") [lit "logo.png"]
           (lit "logo.png") [137; 80; 78; 71]%N).
  - split; [left; reflexivity|reflexivity].
  - vm_compute. reflexivity.
  - right. unfold noSlash. apply (bool_decide_unpack _). vm_compute. exact I.
Defined.

(** * More on the cleanup pass and the run as a whole *)

Section Returns.
Variable toLowerCase : jsstring -> jsstring.
Variable atob : jsstring -> Result jsstring.
Variable getBranchSHA : jsstring -> jsstring -> jsstring -> Result jsstring.
Variable getTree : jsstring -> jsstring -> jsstring -> Result (list GitHubTreeItem).
Variable getBlob : jsstring -> jsstring -> jsstring -> Result GitHubBlob.
Variable dateNow : jsstring -> jsstring -> GitHubTreeItem -> jsstring.
Variable settings : Settings.
Implicit Types (w : World).

Lemma cleanupRepo_returns id w :
  exists w', run (cleanupRepo settings id) w = (Ok tt, w').
Proof.
  unfold cleanupRepo.
  destruct (split id SLASH) as [|owner [|repo rest]]; [by eexists..|].
  destruct (negb (truthy owner) || negb (truthy repo)); [by eexists|].
  rewrite run_bind, run_getAbstractFileByPath, run_bind.
  assert (exists w1,
            run (match lookupSegs
                         (split (baseFolder settings ++ [SLASH] ++ owner
                                 ++ [SLASH] ++ repo) SLASH) (vault w) with
                 | Some (TFolder n ch) =>
                     _ ← tryCatch (recursiveDeleteFolder (TFolder n ch)
                                     (baseFolder settings ++ [SLASH] ++ owner
                                      ++ [SLASH] ++ repo));
                     mret tt
                 | _ => mret tt
                 end) w = (Ok tt, w1)) as [w1 ->].
  { destruct (lookupSegs _ _) as [[|n ch]|]; by eexists. }
  rewrite run_bind, run_getAbstractFileByPath.
  destruct (lookupSegs _ _) as [[|n [|c ch]]|]; [by eexists| |by eexists..].
  rewrite run_bind, run_tryCatch.
  destruct (run (vault_delete _) w1) as [[[]|] w2]; by eexists.
Qed.

Lemma cleanup_loop_returns removed : forall w,
  exists w', run (cleanup_loop settings removed) w = (Ok tt, w').
Proof.
  induction removed as [|id rest IH]; intros w; [by eexists|].
  cbn [cleanup_loop]. rewrite run_bind.
  destruct (cleanupRepo_returns id w) as [w1 ->]. apply IH.
Qed.

Lemma cleanupRemovedRepositories_returns currentRepoIds w :
  exists w',
    run (cleanupRemovedRepositories settings currentRepoIds) w = (Ok tt, w').
Proof.
  unfold cleanupRemovedRepositories.
  rewrite run_bind, run_scanExistingRepositories.
  destruct (length _ =? 0); [by eexists|]. apply cleanup_loop_returns.
Qed.

Lemma syncAll_loop_counts repoConfigs : forall counts w,
  exists synced errors w',
    run (syncAll_loop toLowerCase atob getBranchSHA getTree getBlob dateNow
           settings repoConfigs counts) w = (Ok (synced, errors), w')
    /\ synced + errors = counts.1 + counts.2 + length repoConfigs.
Proof.
  induction repoConfigs as [|c rest IH]; intros [s e] w.
  { exists s, e, w. split; [done|]. cbn. lia. }
  cbn [syncAll_loop]. rewrite run_bind, run_tryCatch.
  destruct (run (syncRepository _ _ _ _ _ _ _ c) w) as [[[]|] w1];
    cbn [fst snd];
    [destruct (IH (S s, e) w1) as (s' & e' & w' & -> & Hsum)
    |destruct (IH (s, S e) w1) as (s' & e' & w' & -> & Hsum)];
    exists s', e', w'; (split; [done|]); cbn in *; lia.
Qed.

End Returns.

(** X14. A run counts every repository once and never throws: whatever
    the remote API answers, [syncAll] returns, a repository whose sync
    throws is counted as an error and the loop goes on, and the two
    counts add up to the number of repositories. After a run over a
    non-empty list the settings hold the identities of its
    repositories; with no repository the run changes nothing. *)
Theorem syncAll_counts_every_repository (toLowerCase : jsstring -> jsstring)
    (atob : jsstring -> Result jsstring)
    (getBranchSHA : jsstring -> jsstring -> jsstring -> Result jsstring)
    (getTree : jsstring -> jsstring -> jsstring -> Result (list GitHubTreeItem))
    (getBlob : jsstring -> jsstring -> jsstring -> Result GitHubBlob)
    (dateNow : jsstring -> jsstring -> GitHubTreeItem -> jsstring)
    (settings : Settings) (repoConfigs : list RepoConfig) (w : World) :
  exists (settings' : Settings) (syncedCount errorCount : nat) (w' : World),
    run (syncAll toLowerCase atob getBranchSHA getTree getBlob dateNow
           settings repoConfigs) w
    = (Ok (settings', (syncedCount, errorCount)), w')
    /\ syncedCount + errorCount = length repoConfigs
    /\ lastSyncedRepos settings'
       = match repoConfigs with
         | [] => lastSyncedRepos settings
         | _ :: _ => List.map repoId repoConfigs
         end.
Proof.
  unfold syncAll. destruct repoConfigs as [|c l] eqn:E.
  { exists settings, 0, 0, w. done. }
  rewrite <- E. assert ((length repoConfigs =? 0) = false) as ->
    by (by rewrite E).
  rewrite run_bind.
  destruct (cleanupRemovedRepositories_returns settings
              (List.map repoId repoConfigs) w) as [w0 ->].
  rewrite run_bind.
  destruct (syncAll_loop_counts toLowerCase atob getBranchSHA getTree getBlob
              dateNow settings repoConfigs (0, 0) w0)
    as (s & e & w' & -> & Hsum).
  exists (withLastSyncedRepos settings (List.map repoId repoConfigs)), s, e, w'.
  split; [done|]. split; [cbn in Hsum; lia|]. by rewrite E.
Qed.

(** X15. What the cleanup pass leaves behind: on a well-formed vault it
    returns, and every repository folder the scan then finds below the
    base folder belongs to a current repository. *)
Theorem cleanup_leaves_current_repositories (settings : Settings)
    (currentRepoIds : list jsstring) (w : World) :
  wfVault (vault w) ->
  exists w',
    run (cleanupRemovedRepositories settings currentRepoIds) w = (Ok tt, w')
    /\ forall id,
         In id (scanAt (split (baseFolder settings) SLASH) (vault w')) ->
         id ∈ currentRepoIds.
Proof. apply cleanupRemovedRepositories_spec. Qed.

Lemma cleanup_leaves_current_witness :
  exists w',
    run (cleanupRemovedRepositories ex_settings [lit "octo/notes"])
      ex_world_stale = (Ok tt, w')
    /\ forall id,
         In id (scanAt (split (baseFolder ex_settings) SLASH) (vault w')) ->
         id ∈ [lit "octo/notes"].
Proof.
  apply (cleanup_leaves_current_repositories ex_settings [lit "octo/notes"]
           ex_world_stale).
  unfold ex_world_stale. cbn [vault]. wf_names.
Defined.

(** X16. The sync of a repository makes no repository folder but its
    own: for an owner and a repository name that are names and a base
    folder path without an empty segment, every repository folder the
    scan finds after [syncRepository] (whether it returned or threw) was
    there before, or is the folder of the repository itself. *)
Theorem syncRepository_adds_own_folder_only
    (toLowerCase : jsstring -> jsstring)
    (atob : jsstring -> Result jsstring)
    (getBranchSHA : jsstring -> jsstring -> jsstring -> Result jsstring)
    (getTree : jsstring -> jsstring -> jsstring -> Result (list GitHubTreeItem))
    (getBlob : jsstring -> jsstring -> jsstring -> Result GitHubBlob)
    (dateNow : jsstring -> jsstring -> GitHubTreeItem -> jsstring)
    (settings : Settings) (repoConfig : RepoConfig) (w : World) (id : jsstring) :
  wfName (cfg_owner repoConfig) -> wfName (cfg_repo repoConfig) ->
  Forall (fun s => truthy s = true) (split (baseFolder settings) SLASH) ->
  In id (scanAt (split (baseFolder settings) SLASH)
           (vault (run (syncRepository toLowerCase atob getBranchSHA getTree
                          getBlob dateNow settings repoConfig) w).2)) ->
  id = repoId repoConfig
  \/ In id (scanAt (split (baseFolder settings) SLASH) (vault w)).
Proof.
  intros Ho Hr Hbase Hin. destruct repoConfig as [o r br].
  cbn [cfg_owner cfg_repo] in *.
  pose proof (tracked_syncRepository toLowerCase atob getBranchSHA getTree
                getBlob dateNow settings
                ((o ++ [SLASH] ++ r)
                 :: scanAt (split (baseFolder settings) SLASH) (vault w))
                o r Hbase Ho Hr ltac:(by left) br w) as Hinv.
  assert (id ∈ (o ++ [SLASH] ++ r)
               :: scanAt (split (baseFolder settings) SLASH) (vault w)) as Hid.
  { apply Hinv; [|done]. intros x Hx. right. by apply list_elem_of_In. }
  apply elem_of_cons in Hid as [->|Hid]; [by left|right].
  by apply list_elem_of_In.
Qed.

Lemma syncRepository_own_folder_witness :
  lit "octo/notes"
  = repoId {| cfg_owner := lit "octo"; cfg_repo := lit "notes";
              cfg_branch := lit "main" |}
  \/ In (lit "octo/notes")
       (scanAt (split (baseFolder ex_settings) SLASH)
          (vault {| vault := []; oplog := [] |})).
Proof.
  apply (syncRepository_adds_own_folder_only (fun s => s) (fun s => Ok s)
           (fun _ _ _ => Ok (lit "commit"))
           (fun _ _ _ => Ok [ex_item "README.md" "sha-readme"])
           ex_getBlob ex_dateNow ex_settings
           {| cfg_owner := lit "octo"; cfg_repo := lit "notes";
              cfg_branch := lit "main" |}
           {| vault := []; oplog := [] |} (lit "octo/notes")).
  - cbn [cfg_owner]. wf_names.
  - cbn [cfg_repo]. wf_names.
  - vm_compute. repeat constructor.
  - vm_compute. left. reflexivity.
Defined.

(** * The manual repositories of the settings tab *)

Section ManualRepos.
Implicit Types (line value : jsstring) (r : ManualRepo).

Lemma manualRepoOfLine_Some line r :
  manualRepoOfLine line = Some r ->
  wfName (manual_owner r) /\ wfName (manual_repo r)
  /\ exists b, manual_branch r = Some b /\ b <> [].
Proof.
  unfold manualRepoOfLine.
  destruct (split line AT) as [|repoPath rest]; [done|].
  pose proof (split_segments repoPath SLASH) as Hseg.
  destruct (split repoPath SLASH) as [|o [|n l]]; [done..|].
  apply Forall_cons in Hseg as [Ho Hseg]. apply Forall_cons in Hseg as [Hn _].
  destruct (truthy o) eqn:Hto; [|done]. destruct (truthy n) eqn:Htn; [|done].
  intros [= <-]. cbn [manual_owner manual_repo manual_branch].
  split; [split; [by destruct o|done]|].
  split; [split; [by destruct n|done]|].
  eexists. split; [done|].
  destruct rest as [|b ?]; [done|]. by destruct b.
Qed.

Lemma plainName_parts s :
  plainName s ->
  s <> [] /\ Forall (fun c => isWhiteSpace c = false) s
  /\ noSlash s /\ Forall (fun c => c <> AT) s.
Proof.
  intros [Hne H]. split; [done|].
  split; [|split]; (eapply Forall_impl; [done|]); by intros c (? & ? & ?).
Qed.

Lemma manualRepoOfLine_plain o n b :
  plainName o -> plainName n ->
  b <> [] -> Forall (fun c => isWhiteSpace c = false /\ c <> AT) b ->
  manualRepoOfLine
    (if truthy b && negb (bool_decide (b = lit "main"))
     then o ++ [SLASH] ++ n ++ [AT] ++ b else o ++ [SLASH] ++ n)
  = Some {| manual_owner := o; manual_repo := n; manual_branch := Some b |}.
Proof.
  intros (Hone & _ & Hos & Hoa)%plainName_parts
         (Hnne & _ & Hns & Hna)%plainName_parts Hb Hbs.
  assert (Forall (fun c => c <> AT) b) as Hba
    by (eapply Forall_impl; [done|]; by intros c [? ?]).
  assert (Forall (fun c => c <> AT) (o ++ SLASH :: n)) as Hpa.
  { apply Forall_app. split; [done|]. by apply Forall_cons. }
  assert (truthy o = true) as Hto by by destruct o.
  assert (truthy n = true) as Htn by by destruct n.
  assert (truthy b = true) as Htb by by destruct b.
  unfold manualRepoOfLine. rewrite Htb. cbn [andb].
  case_bool_decide as Hmain; cbn [negb].
  - change (o ++ [SLASH] ++ n) with (o ++ SLASH :: n).
    rewrite (split_plain _ AT) by done.
    rewrite split_sep, (split_plain n) by done.
    by rewrite Hto, Htn, Hmain.
  - assert (o ++ [SLASH] ++ n ++ [AT] ++ b = (o ++ SLASH :: n) ++ AT :: b)
      as -> by (by rewrite <- app_assoc).
    rewrite (split_sep _ _ AT), (split_plain b) by done.
    rewrite split_sep, (split_plain n) by done.
    by rewrite Hto, Htn, Htb.
Qed.

Lemma omap_map_Some {A B} (f : A -> option B) (g : B -> A) (l : list B) :
  (forall x, In x l -> f (g x) = Some x) -> omap f (List.map g l) = l.
Proof.
  induction l as [|x l IH]; intros H; [done|]. cbn.
  rewrite H by by left. cbn. f_equal. apply IH. intros y Hy. apply H. by right.
Qed.

Lemma filter_all_true {A} (P : A -> bool) (l : list A) :
  Forall (fun x => P x = true) l -> List.filter P l = l.
Proof.
  induction 1 as [|x l Hx _ IH]; [done|]. cbn. by rewrite Hx, IH.
Qed.

Lemma map_id_on {A} (f : A -> A) (l : list A) :
  Forall (fun x => f x = x) l -> List.map f l = l.
Proof. induction 1 as [|x l Hx _ IH]; [done|]. cbn. by rewrite Hx, IH. Qed.

End ManualRepos.

(** X17. Every manual repository the settings tab stores has an owner
    and a name that are not empty and have no slash, and a branch that
    is given and not empty (["main"] when the line names none); a line
    without a slash, or with nothing before or after it, stores
    nothing. *)
Theorem manual_repos_are_well_formed (value : jsstring) (r : ManualRepo) :
  In r (manualReposOnChange value) ->
  wfName (manual_owner r) /\ wfName (manual_repo r)
  /\ exists b, manual_branch r = Some b /\ b <> [].
Proof.
  unfold manualReposOnChange. intros Hin.
  apply list_elem_of_In, list_elem_of_omap in Hin as (line & _ & Hline).
  by apply manualRepoOfLine_Some in Hline.
Qed.

Lemma manual_repos_witness :
  wfName (manual_owner {| manual_owner := lit "octo"; manual_repo := lit "notes";
                          manual_branch := Some (lit "main") |})
  /\ wfName (manual_repo {| manual_owner := lit "octo";
                            manual_repo := lit "notes";
                            manual_branch := Some (lit "main") |})
  /\ exists b, manual_branch {| manual_owner := lit "octo";
                                manual_repo := lit "notes";
                                manual_branch := Some (lit "main") |} = Some b
               /\ b <> [].
Proof.
  apply (manual_repos_are_well_formed
           (lit "  octo/notes " ++ [LF] ++ lit "no-slash" ++ [LF]
            ++ lit "acme/site@gh-pages")).
  vm_compute. left. reflexivity.
Defined.

(** X18. The text area round-trips: for manual repositories whose owner
    and name are plain (not empty, no white space, slash or at sign) and
    whose branch is given, not empty and without white space or at sign,
    parsing the text the tab shows for them gives the repositories
    back. The empty list is shown as the empty text, which parses to
    the empty list. *)
Theorem manual_repos_roundtrip (repos : list ManualRepo) :
  Forall plainRepo repos ->
  manualReposOnChange (manualReposValue repos) = repos.
Proof.
  intros Hplain. unfold manualReposOnChange, manualReposValue.
  destruct repos as [|r0 repos0] eqn:E; [done|]. rewrite <- E in *.
  set (line := fun repo : ManualRepo => _).
  assert (forall r, In r repos ->
            manualRepoOfLine (line r) = Some r
            /\ Forall (fun c => isWhiteSpace c = false) (line r)
            /\ line r <> []) as Hline.
  { intros r Hr. rewrite Forall_forall in Hplain.
    destruct (Hplain r (proj2 (list_elem_of_In _ _) Hr))
      as (Ho & Hn & b & Hb & Hbne & Hbs).
    destruct r as [o n br]. cbn [manual_owner manual_repo manual_branch] in *.
    subst br. unfold line. cbn [manual_owner manual_repo manual_branch].
    split; [by apply manualRepoOfLine_plain|].
    pose proof (plainName_parts _ Ho) as (Hone & Hos & _).
    pose proof (plainName_parts _ Hn) as (_ & Hns & _).
    assert (Forall (fun c => isWhiteSpace c = false) b) as Hbw
      by (eapply Forall_impl; [done|]; by intros c [? ?]).
    split.
    - destruct (truthy b && negb (bool_decide (b = lit "main")));
        repeat (apply Forall_app; split); try done; by repeat constructor.
    - destruct (truthy b && negb (bool_decide (b = lit "main")));
        by destruct o. }
  rewrite split_join.
  - rewrite map_id_on.
    + rewrite filter_all_true.
      * apply omap_map_Some. intros r Hr. by apply Hline.
      * apply Forall_forall. intros l Hl.
        apply list_elem_of_In, in_map_iff in Hl as (r & <- & Hr).
        destruct (Hline r Hr) as (_ & _ & Hne). by destruct (line r).
    + apply Forall_forall. intros l Hl.
      apply list_elem_of_In, in_map_iff in Hl as (r & <- & Hr).
      apply trim_solid. by apply Hline.
  - rewrite E. done.
  - apply Forall_forall. intros l Hl.
    apply list_elem_of_In, in_map_iff in Hl as (r & <- & Hr).
    apply solid_noLF. by apply Hline.
Qed.

Lemma manual_repos_roundtrip_witness :
  manualReposOnChange
    (manualReposValue
       [{| manual_owner := lit "octo"; manual_repo := lit "notes";
           manual_branch := Some (lit "main") |};
        {| manual_owner := lit "acme"; manual_repo := lit "site";
           manual_branch := Some (lit "gh-pages") |}])
  = [{| manual_owner := lit "octo"; manual_repo := lit "notes";
        manual_branch := Some (lit "main") |};
     {| manual_owner := lit "acme"; manual_repo := lit "site";
        manual_branch := Some (lit "gh-pages") |}].
Proof.
  apply manual_repos_roundtrip.
  assert (forall s : jsstring,
            s <> [] ->
            bool_decide
              (Forall (fun c => isWhiteSpace c = false /\ c <> SLASH /\ c <> AT) s)
            = true ->
            plainName s) as Hname.
  { intros s Hne Hs. split; [done|]. by apply bool_decide_eq_true_1 in Hs. }
  apply Forall_cons; split; [|apply Forall_cons; split; [|constructor]].
  - split; [by apply Hname|]. split; [by apply Hname|].
    eexists. split; [reflexivity|]. split; [discriminate|].
    apply (bool_decide_unpack _). vm_compute. exact I.
  - split; [by apply Hname|]. split; [by apply Hname|].
    eexists. split; [reflexivity|]. split; [discriminate|].
    apply (bool_decide_unpack _). vm_compute. exact I.
Defined.

(** * Induction on the file tree *)

Lemma TAbstractFile_ind' (P : TAbstractFile -> Prop) :
  (forall n data, P (TFile n data)) ->
  (forall n children, Forall P children -> P (TFolder n children)) ->
  forall t, P t.
Proof.
  intros Hfile Hfolder. fix IH 1. intros [n data|n children].
  - apply Hfile.
  - apply Hfolder. induction children as [|c children IHc].
    + constructor.
    + constructor; [apply IH|apply IHc].
Qed.

Lemma noEmptyFolder_folder n children :
  noEmptyFolder (TFolder n children)
  <-> children <> [] /\ Forall noEmptyFolder children.
Proof.
  cbn [noEmptyFolder].
  assert (fold_right (fun c acc => noEmptyFolder c /\ acc) True children
          <-> Forall noEmptyFolder children) as ->; [|done].
  induction children as [|c ch IH]; cbn [fold_right].
  - split; [constructor|done].
  - rewrite Forall_cons. tauto.
Qed.

(** X19. The pruning walk leaves no empty folder behind: below the
    folder it was started on, every folder that remains has a child,
    at every depth. A folder that was empty before the walk is deleted
    with the folders the walk has emptied. *)
Theorem pruning_leaves_no_empty_folder (toLowerCase : jsstring -> jsstring)
    (settings : Settings) (syncedFiles : gset jsstring)
    (folder : TAbstractFile) (folderPath : jsstring) :
  Forall noEmptyFolder
    (pruneFolder toLowerCase settings folder folderPath syncedFiles).
Proof.
  revert folderPath. induction folder as [n data|n children IH]
    using TAbstractFile_ind'; intros folderPath.
  { constructor. }
  rewrite pruneFolder_eq. apply Forall_forall. intros x Hx.
  apply list_elem_of_In, in_flat_map in Hx as (c & Hc & Hx).
  rewrite Forall_forall in IH.
  specialize (IH c (proj2 (list_elem_of_In _ _) Hc)).
  destruct c as [n' data|n' ch]; cbn [pruneFolder_child] in Hx.
  - destruct (pruneFile _ _ _ _ _); [done|]. by destruct Hx as [<-|[]].
  - specialize (IH (folderPath ++ [SLASH] ++ n')).
    destruct (pruneFolder _ _ _ _ _) as [|c cs]; [done|].
    destruct Hx as [<-|[]]. by apply noEmptyFolder_folder.
Qed.

Section ScanFolders.

Lemma lookup_scanAt segs : forall v o r x,
  lookupSegs (segs ++ [o; r]) v = Some x ->
  match x with TFolder _ _ => True | TFile _ _ => False end ->
  In (o ++ [SLASH] ++ r) (scanAt segs v).
Proof.
  induction segs as [|s segs IH]; intros v o r x Hl Hx.
  - cbn [app lookupSegs scanAt] in *.
    destruct (findChild o v) as [[|n ch]|] eqn:Ho; [done| |done].
    destruct (findChild r ch) as [y|] eqn:Hr; [|done]. injection Hl as ->.
    apply findChild_name in Ho as [Hn Ho]. cbn in Hn. subst n.
    apply findChild_name in Hr as [Hn Hr].
    destruct x as [|n chs]; [done|]. cbn in Hn. subst n.
    apply In_scanChildren. exists o, ch. split; [done|].
    apply In_repoIds. by exists r, chs.
  - cbn [app lookupSegs scanAt] in *.
    destruct (segs ++ [o; r]) eqn:E; [by destruct segs|]. rewrite <- E in Hl.
    destruct (findChild s v) as [[|n ch]|]; [done| |done].
    by eapply IH.
Qed.

End ScanFolders.

(** X20. What the scan finds: on a well-formed vault
    [scanExistingRepositories] returns, without touching the vault, the
    identity [owner/repo] exactly for the folders [repo] that sit in a
    folder [owner] directly below the base folder. *)
Theorem scan_finds_repository_folders (settings : Settings) (w : World) :
  wfVault (vault w) ->
  exists existingRepoIds,
    run (scanExistingRepositories settings) w = (Ok existingRepoIds, w)
    /\ forall id,
         In id existingRepoIds
         <-> exists o r chs,
               id = o ++ [SLASH] ++ r
               /\ lookupSegs (split (baseFolder settings) SLASH ++ [o; r])
                    (vault w) = Some (TFolder r chs).
Proof.
  intros Hwf. eexists. split; [apply run_scanExistingRepositories|].
  intros id. split.
  - intros Hin.
    destruct (In_scanAt_wf _ _ _ Hwf Hin) as (o & r & chs & -> & _ & _ & Hl).
    by exists o, r, chs.
  - intros (o & r & chs & -> & Hl). by eapply lookup_scanAt.
Qed.

Lemma scan_finds_witness :
  exists existingRepoIds,
    run (scanExistingRepositories ex_settings) ex_world_stale
    = (Ok existingRepoIds, ex_world_stale)
    /\ forall id,
         In id existingRepoIds
         <-> exists o r chs,
               id = o ++ [SLASH] ++ r
               /\ lookupSegs (split (baseFolder ex_settings) SLASH ++ [o; r])
                    (vault ex_world_stale) = Some (TFolder r chs).
Proof.
  apply (scan_finds_repository_folders ex_settings ex_world_stale).
  unfold ex_world_stale. cbn [vault]. wf_names.
Defined.

(** * Lookups after a creation or a write *)

Section Lookups.
Implicit Types (v ch : list TAbstractFile) (segs q : list jsstring)
  (leaf data : jsstring) (node : TAbstractFile) (w : World).

Lemma lookup_append_mono node segs : forall q v,
  lookupSegs segs v <> None ->
  lookupSegs segs (alterChildren q (fun ch => ch ++ [node]) v) <> None.
Proof.
  induction segs as [|s segs IH]; intros q v Hl; [done|].
  cbn [lookupSegs] in *.
  destruct (findChild s v) as [x|] eqn:Hc; [|done].
  destruct q as [|t q]; cbn [alterChildren].
  - by rewrite (findChild_app _ _ _ _ Hc).
  - rewrite findChild_map by (intros [|n' ch']; [done|]; by case_bool_decide).
    rewrite Hc. cbn [fmap option_fmap option_map].
    destruct segs as [|s' segs]; [done|].
    destruct x as [|n ch]; [done|].
    case_bool_decide; [|done]. by apply IH.
Qed.

Lemma folderAt_children q v ch :
  folderAt q v = Some ch ->
  (q = [] /\ ch = v) \/ (q <> [] /\ exists n, lookupSegs q v = Some (TFolder n ch)).
Proof.
  destruct q as [|t q]; cbn [folderAt].
  - intros [= <-]. by left.
  - destruct (lookupSegs (t :: q) v) as [[|n ch']|]; [done| |done].
    intros [= <-]. right. split; [done|]. by exists n.
Qed.

Lemma alterChildren_id q : forall v, alterChildren q (fun c => c) v = v.
Proof.
  induction q as [|t q IH]; intros v; [done|]. cbn [alterChildren].
  induction v as [|x v IHv]; [done|]. cbn [List.map]. rewrite IHv. f_equal.
  destruct x as [|n' ch']; [done|]. case_bool_decide; [|done]. by rewrite IH.
Qed.

Lemma lookup_below q : forall (b : list jsstring) v n ch,
  b <> [] -> lookupSegs q v = Some (TFolder n ch) ->
  lookupSegs (q ++ b) v = lookupSegs b ch.
Proof.
  intros b v n ch Hb Hq.
  pose proof (lookupSegs_alter_at (fun c => c) q b v n ch Hb Hq) as H.
  by rewrite alterChildren_id in H.
Qed.

Lemma lookup_after_add node leaf q v ch :
  folderAt q v = Some ch ->
  lookupSegs (q ++ [leaf]) v = None ->
  fileName node = leaf ->
  lookupSegs (q ++ [leaf]) (alterChildren q (fun c => c ++ [node]) v)
  = Some node.
Proof.
  intros Hf Hl Hn.
  assert (forall c, findChild leaf c = None ->
            lookupSegs [leaf] (c ++ [node]) = Some node) as Hnew.
  { intros c Hc. cbn [lookupSegs]. rewrite findChild_app_None by done.
    unfold findChild. cbn [find]. by rewrite bool_decide_eq_true_2. }
  destruct (folderAt_children _ _ _ Hf) as [[-> ->]|[Hq [n Hlq]]].
  - cbn [app alterChildren] in *. apply Hnew. cbn [lookupSegs] in Hl.
    by destruct (findChild leaf v).
  - rewrite (lookupSegs_alter_at _ _ _ _ n ch) by done.
    rewrite (lookup_below _ _ _ n ch) in Hl by done. apply Hnew.
    cbn [lookupSegs] in Hl. by destruct (findChild leaf ch).
Qed.

Lemma lookup_after_write leaf data q v n d :
  lookupSegs (q ++ [leaf]) v = Some (TFile n d) ->
  lookupSegs (q ++ [leaf]) (alterChildren q (List.map (setData leaf data)) v)
  = Some (TFile leaf data).
Proof.
  intros Hl.
  assert (forall c, lookupSegs [leaf] c = Some (TFile n d) ->
            lookupSegs [leaf] (List.map (setData leaf data) c)
            = Some (TFile leaf data)) as Hset.
  { intros c Hc. cbn [lookupSegs] in *.
    rewrite findChild_map by apply setData_name.
    destruct (findChild leaf c) as [x|] eqn:Hx; [|done]. injection Hc as ->.
    apply findChild_name in Hx as [Hn _]. cbn in Hn. subst n.
    cbn. by rewrite bool_decide_eq_true_2. }
  destruct q as [|t q]; [by apply Hset|].
  destruct (lookupSegs_app (t :: q) [leaf] v _ ltac:(done) ltac:(done) Hl)
    as (n' & ch & Hq & Hleaf).
  rewrite (lookupSegs_alter_at _ _ _ _ n' ch) by done. by apply Hset.
Qed.

Lemma path_snoc p :
  split p SLASH = parentSegs p ++ [leafName p].
Proof.
  unfold parentSegs, leafName.
  apply (app_removelast_last [] (split_nonempty p SLASH)).
Qed.

(** What a successful [vault.create], [vault.createFolder] or write
    leaves at the path. *)
Lemma run_vault_add_Ok p node op w w' :
  fileName node = leafName p ->
  run (vault_add p node op) w = (Ok tt, w') ->
  lookupSegs (split p SLASH) (vault w') = Some node
  /\ oplog w' = oplog w ++ [op].
Proof.
  intros Hn. unfold vault_add. rewrite run_bind. cbn -[split].
  destruct (lookupSegs (split p SLASH) (vault w)) eqn:Hl; [done|].
  destruct (folderAt (parentSegs p) (vault w)) as [ch|] eqn:Hf; [|done].
  cbn -[split]. intros [= <-]. cbn [vault oplog]. split; [|done].
  rewrite path_snoc in *. by eapply lookup_after_add.
Qed.

Lemma run_vault_write_Ok p data op w w' :
  run (vault_write p data op) w = (Ok tt, w') ->
  lookupSegs (split p SLASH) (vault w') = Some (TFile (leafName p) data).
Proof.
  unfold vault_write. rewrite run_bind. cbn -[split].
  destruct (lookupSegs (split p SLASH) (vault w)) as [[n d|]|] eqn:Hl;
    [|done..].
  cbn -[split]. intros [= <-]. cbn [vault].
  rewrite path_snoc in *. by eapply lookup_after_write.
Qed.

End Lookups.

(** * [ensureFolderExists] *)

Section Ensure.
Implicit Types (w : World) (pre folders : list jsstring).

#[local] Abbreviation present segs := (fun w => lookupSegs segs (vault w) <> None).

Lemma present_vault_add segs p node op :
  preserves (present segs) (vault_add p node op).
Proof.
  intros w H. unfold vault_add. rewrite run_bind. cbn -[split].
  destruct (lookupSegs (split p SLASH) (vault w)); [done|].
  destruct (folderAt (parentSegs p) (vault w)); [|done]. cbn -[split].
  by apply lookup_append_mono.
Qed.

Lemma present_ensureFolderExists_loop segs folders : forall currentPath,
  preserves (present segs) (ensureFolderExists_loop folders currentPath).
Proof.
  induction folders as [|folder rest IH]; intros currentPath;
    cbn [ensureFolderExists_loop]; [apply preserves_ret|].
  destruct (negb (truthy folder)); [apply IH|].
  apply preserves_bind; [apply preserves_getAbstractFileByPath|].
  intros existing. apply preserves_bind; [|intros _; apply IH].
  destruct existing; [apply preserves_ret|apply present_vault_add].
Qed.

Lemma currentPath_step pre folder :
  Forall (fun s => truthy s = true) pre ->
  (if truthy (join pre [SLASH])
   then join pre [SLASH] ++ [SLASH] ++ folder else folder)
  = join (pre ++ [folder]) [SLASH].
Proof.
  intros Ht. destruct pre as [|a pre]; [done|].
  by rewrite truthy_join, join_snoc.
Qed.

(** One round of the loop that returns: the folder of the round is
    there afterwards, and the log grew by at most its creation. *)
Lemma ensure_round pre folder w w1 :
  Forall noSlash (pre ++ [folder]) ->
  run (existingFolder ← getAbstractFileByPath (join (pre ++ [folder]) [SLASH]);
       match existingFolder with
       | Some _ => mret tt
       | None => vault_createFolder (join (pre ++ [folder]) [SLASH])
       end) w = (Ok tt, w1) ->
  lookupSegs (pre ++ [folder]) (vault w1) <> None
  /\ (w1 = w
      \/ lookupSegs (pre ++ [folder]) (vault w) = None
         /\ oplog w1
            = oplog w ++ [OpCreateFolder (join (pre ++ [folder]) [SLASH])]).
Proof.
  intros Hs. rewrite run_bind, run_getAbstractFileByPath.
  rewrite split_join by (done || by destruct pre).
  destruct (lookupSegs (pre ++ [folder]) (vault w)) eqn:Hl.
  - intros [= <-]. rewrite Hl. split; [done|by left].
  - intros Hrun. apply run_vault_add_Ok in Hrun as [Hnew Hlog]; [|done].
    rewrite split_join in Hnew by (done || by destruct pre).
    rewrite Hnew. split; [done|]. right. done.
Qed.

Lemma ensure_loop_post folders : forall pre w w',
  Forall (fun s => truthy s = true) pre ->
  Forall noSlash (pre ++ folders) ->
  run (ensureFolderExists_loop folders (join pre [SLASH])) w = (Ok tt, w') ->
  (forall k, 0 < k <= length (List.filter truthy folders) ->
     lookupSegs (pre ++ take k (List.filter truthy folders)) (vault w') <> None)
  /\ exists ops,
       oplog w' = oplog w ++ ops
       /\ Forall (fun op => exists p, op = OpCreateFolder p) ops.
Proof.
  induction folders as [|folder rest IH]; intros pre w w' Ht Hs Hrun.
  { injection Hrun as <-. split; [cbn; lia|]. exists []. by rewrite app_nil_r. }
  cbn [ensureFolderExists_loop List.filter] in *.
  assert (Forall noSlash pre /\ noSlash folder /\ Forall noSlash rest)
    as (Hs1 & Hs2 & Hs3).
  { apply Forall_app in Hs as [? Hs]. by apply Forall_cons in Hs as [? ?]. }
  destruct (truthy folder) eqn:Hf; cbn [negb] in Hrun.
  2:{ apply (IH pre w w'); [done| |done]. by apply Forall_app. }
  rewrite currentPath_step in Hrun by done.
  assert (Forall noSlash (pre ++ [folder])) as Hs'.
  { apply Forall_app. split; [done|]. by apply Forall_cons. }
  change (run (_ ≫= _) w) with
    (run ((existingFolder ← getAbstractFileByPath (join (pre ++ [folder]) [SLASH]);
           match existingFolder with
           | Some _ => mret tt
           | None => vault_createFolder (join (pre ++ [folder]) [SLASH])
           end) ≫= (fun _ => ensureFolderExists_loop rest
                               (join (pre ++ [folder]) [SLASH]))) w) in Hrun.
  rewrite run_bind in Hrun.
  destruct (run (_ ≫= _) w) as [[[]|] w1] eqn:Hround; [|done].
  destruct (ensure_round pre folder w w1 Hs' Hround) as [Hnow Hlog].
  destruct (IH (pre ++ [folder]) w1 w') as [Hpost (ops & Hops & Hall)].
  { apply Forall_app. split; [done|]. by apply Forall_cons. }
  { rewrite <- app_assoc. exact Hs. }
  { done. }
  split.
  - intros [|[|k]] Hk; [lia|..]; cbn [take].
    + rewrite take_0.
      pose proof (present_ensureFolderExists_loop (pre ++ [folder]) rest
                    (join (pre ++ [folder]) [SLASH]) w1 Hnow) as Hmono.
      by rewrite Hrun in Hmono.
    + rewrite cons_middle, app_assoc. apply Hpost. cbn [length] in Hk. lia.
  - destruct Hlog as [->|[_ Hlog]]; [by exists ops|].
    exists (OpCreateFolder (join (pre ++ [folder]) [SLASH]) :: ops).
    split; [by rewrite Hops, Hlog, <- app_assoc|].
    apply Forall_cons. split; [by eexists|done].
Qed.

Lemma ensure_loop_present folders : forall pre w,
  Forall (fun s => truthy s = true) pre ->
  Forall noSlash (pre ++ folders) ->
  (forall k, 0 < k <= length (List.filter truthy folders) ->
     lookupSegs (pre ++ take k (List.filter truthy folders)) (vault w) <> None) ->
  run (ensureFolderExists_loop folders (join pre [SLASH])) w = (Ok tt, w).
Proof.
  induction folders as [|folder rest IH]; intros pre w Ht Hs Hl; [done|].
  cbn [ensureFolderExists_loop List.filter] in *.
  assert (Forall noSlash pre /\ noSlash folder /\ Forall noSlash rest)
    as (Hs1 & Hs2 & Hs3).
  { apply Forall_app in Hs as [? Hs]. by apply Forall_cons in Hs as [? ?]. }
  destruct (truthy folder) eqn:Hf; cbn [negb].
  2:{ apply IH; [done| |done]. by apply Forall_app. }
  rewrite currentPath_step by done.
  assert (Forall noSlash (pre ++ [folder])) as Hs'.
  { apply Forall_app. split; [done|]. by apply Forall_cons. }
  rewrite run_bind, run_getAbstractFileByPath.
  rewrite split_join by (done || by destruct pre).
  pose proof (Hl 1 ltac:(cbn; lia)) as Hl1. cbn [take] in Hl1.
  rewrite take_0 in Hl1.
  destruct (lookupSegs (pre ++ [folder]) (vault w)); [|done].
  rewrite run_bind, run_ret. apply IH.
  - apply Forall_app. split; [done|]. by apply Forall_cons.
  - rewrite <- app_assoc. exact Hs.
  - intros k Hk. rewrite <- app_assoc. apply (Hl (S k)). cbn [length]. lia.
Qed.

End Ensure.

(** X21. What [ensureFolderExists] ensures: when it returns, every
    prefix of the path (its empty segments left out) resolves in the
    vault, and all it has done to the vault is create folders. *)
Theorem ensureFolderExists_makes_the_path (path : jsstring) (w w' : World) :
  let segs := List.filter truthy (split path SLASH) in
  run (ensureFolderExists path) w = (Ok tt, w') ->
  (forall k, 0 < k <= length segs ->
     lookupSegs (take k segs) (vault w') <> None)
  /\ exists ops,
       oplog w' = oplog w ++ ops
       /\ Forall (fun op => exists p, op = OpCreateFolder p) ops.
Proof.
  intros segs Hrun.
  apply (ensure_loop_post (split path SLASH) [] w w'); [constructor| |done].
  apply split_segments.
Qed.

(** X22. [ensureFolderExists] is idempotent: run again on the vault it
    has left, with the same path, it returns without an operation and
    leaves the vault as it is. *)
Theorem ensureFolderExists_idempotent (path : jsstring) (w w' : World) :
  run (ensureFolderExists path) w = (Ok tt, w') ->
  run (ensureFolderExists path) w' = (Ok tt, w').
Proof.
  intros Hrun.
  apply (ensure_loop_present (split path SLASH) []);
    [constructor|apply split_segments|].
  by apply (ensure_loop_post (split path SLASH) [] w w');
    [constructor|apply split_segments|].
Qed.

Lemma ensureFolderExists_witness :
  exists w',
    run (ensureFolderExists (lit "Projects/octo//notes"))
      {| vault := [TFolder (lit "Projects") []]; oplog := [] |} = (Ok tt, w')
    /\ (forall k,
          0 < k <= length (List.filter truthy
                             (split (lit "Projects/octo//notes") SLASH)) ->
          lookupSegs
            (take k (List.filter truthy
                       (split (lit "Projects/octo//notes") SLASH)))
            (vault w') <> None)
    /\ exists ops,
         oplog w' = oplog {| vault := [TFolder (lit "Projects") []];
                             oplog := [] |} ++ ops
         /\ Forall (fun op => exists p, op = OpCreateFolder p) ops.
Proof.
  eexists. split; [vm_compute; reflexivity|].
  apply (ensureFolderExists_makes_the_path (lit "Projects/octo//notes")
           {| vault := [TFolder (lit "Projects") []]; oplog := [] |}).
  vm_compute. reflexivity.
Defined.

Lemma ensureFolderExists_idempotent_witness :
  exists w',
    run (ensureFolderExists (lit "Projects/octo//notes"))
      {| vault := [TFolder (lit "Projects") []]; oplog := [] |} = (Ok tt, w')
    /\ run (ensureFolderExists (lit "Projects/octo//notes")) w' = (Ok tt, w').
Proof.
  eexists. split; [vm_compute; reflexivity|].
  apply (ensureFolderExists_idempotent (lit "Projects/octo//notes")
           {| vault := [TFolder (lit "Projects") []]; oplog := [] |}).
  vm_compute. reflexivity.
Defined.

Section Blocked.
Implicit Types (w : World) (pre folders : list jsstring).

Lemma ensure_loop_blocked n d folders : forall pre w k,
  Forall (fun s => truthy s = true) pre ->
  Forall noSlash (pre ++ folders) ->
  k < length (List.filter truthy folders) ->
  (k = 0 -> pre <> []) ->
  lookupSegs (pre ++ take k (List.filter truthy folders)) (vault w)
  = Some (TFile n d) ->
  run (ensureFolderExists_loop folders (join pre [SLASH])) w = (Throw, w).
Proof.
  induction folders as [|folder rest IH]; intros pre w k Ht Hs Hk Hpre Hl.
  { cbn in Hk. lia. }
  cbn [ensureFolderExists_loop List.filter] in *.
  assert (Forall noSlash pre /\ noSlash folder /\ Forall noSlash rest)
    as (Hs1 & Hs2 & Hs3).
  { apply Forall_app in Hs as [? Hs]. by apply Forall_cons in Hs as [? ?]. }
  destruct (truthy folder) eqn:Hf; cbn [negb].
  2:{ apply (IH pre w k); [done| |done..]. by apply Forall_app. }
  rewrite currentPath_step by done.
  assert (Forall noSlash (pre ++ [folder])) as Hs'.
  { apply Forall_app. split; [done|]. by apply Forall_cons. }
  rewrite run_bind, run_getAbstractFileByPath.
  rewrite split_join by (done || by destruct pre).
  destruct k as [|k].
  - rewrite take_0, app_nil_r in Hl. specialize (Hpre eq_refl).
    destruct (lookupSegs (pre ++ [folder]) (vault w)) as [x|] eqn:Hx.
    { apply lookupSegs_app in Hx as (? & ? & Hp & _); [|done..].
      by rewrite Hl in Hp. }
    rewrite run_bind. unfold vault_createFolder, vault_add.
    rewrite run_bind. cbn -[split].
    rewrite split_join by (done || by destruct pre). rewrite Hx.
    unfold parentSegs. rewrite split_join by (done || by destruct pre).
    rewrite removelast_last. unfold folderAt.
    destruct pre as [|a pre]; [done|]. by rewrite Hl.
  - cbn [take] in Hl. rewrite cons_middle, app_assoc in Hl.
    pose proof (lookupSegs_prefix (pre ++ [folder]) _ _ _
                  ltac:(by destruct pre) Hl) as Hx.
    destruct (lookupSegs (pre ++ [folder]) (vault w)); [|done].
    rewrite run_bind, run_ret. apply (IH (pre ++ [folder]) w k).
    + apply Forall_app. split; [done|]. by apply Forall_cons.
    + rewrite <- app_assoc. exact Hs.
    + cbn [length] in Hk. lia.
    + intros _. by destruct pre.
    + done.
Qed.

End Blocked.

(** X23. A file in the way makes [ensureFolderExists] throw: when a
    proper prefix of the path (its empty segments left out) is a file
    of the vault, the call throws where it would create the next
    folder, and it has changed nothing. *)
Theorem ensureFolderExists_blocked_by_file (path : jsstring) (w : World)
    (k : nat) (n d : jsstring) :
  let segs := List.filter truthy (split path SLASH) in
  0 < k < length segs ->
  lookupSegs (take k segs) (vault w) = Some (TFile n d) ->
  run (ensureFolderExists path) w = (Throw, w).
Proof.
  intros segs Hk Hl.
  apply (ensure_loop_blocked n d (split path SLASH) [] w k);
    [constructor|apply split_segments|fold segs; lia|lia|done].
Qed.

Lemma ensureFolderExists_blocked_witness :
  run (ensureFolderExists (lit "Projects/octo/notes"))
    {| vault := [TFolder (lit "Projects") [TFile (lit "octo") (lit "a note")]];
       oplog := [] |}
  = (Throw,
     {| vault := [TFolder (lit "Projects") [TFile (lit "octo") (lit "a note")]];
        oplog := [] |}).
Proof.
  apply (ensureFolderExists_blocked_by_file (lit "Projects/octo/notes")
           {| vault := [TFolder (lit "Projects")
                          [TFile (lit "octo") (lit "a note")]];
              oplog := [] |} 2 (lit "octo") (lit "a note")).
  - vm_compute. lia.
  - vm_compute. reflexivity.
Defined.

(** * What a sync of one file leaves at its path *)

(** X24. After a [syncFile] that returns, the vault holds the file at
    its local path: with the processed content for text, with the bytes
    for media. This covers the file that was created, the file that was
    rewritten and the file that was left alone because its content was
    already the processed content. *)
Theorem syncFile_leaves_the_content (toLowerCase : jsstring -> jsstring)
    (atob : jsstring -> Result jsstring)
    (getBlob : jsstring -> jsstring -> jsstring -> Result GitHubBlob)
    (dateNow : jsstring -> jsstring -> GitHubTreeItem -> jsstring)
    (settings : Settings) (owner repo branch : jsstring)
    (fileItem : GitHubTreeItem) (baseFolderPath : jsstring) (w w' : World) :
  let localFilePath := getLocalFilePath baseFolderPath (item_path fileItem) in
  let processedContent (content : jsstring) :=
    processFileContent content
      {| owner := owner; repo := repo; branch := branch;
         path := item_path fileItem;
         githubUrl := buildFileUrl owner repo (item_path fileItem) branch |}
      {| optAddFrontmatter := addFrontmatter settings;
         optAddReadonlyBanner := addReadonlyBanner_ settings;
         optAddBacklinks := addBacklinks settings;
         optBacklinkTarget :=
           if addBacklinks settings
           then Some (calculateBacklinkTarget settings baseFolderPath
                        (item_path fileItem))
           else None |}
      (dateNow owner repo fileItem) in
  run (syncFile toLowerCase atob getBlob dateNow settings owner repo branch
         fileItem baseFolderPath) w = (Ok tt, w') ->
  exists content,
    getFileContent toLowerCase atob getBlob owner repo fileItem = Ok content
    /\ lookupSegs (split localFilePath SLASH) (vault w')
       = Some (TFile (leafName localFilePath)
                 match content with
                 | inl text => processedContent text
                 | inr bytes => bytes
                 end).
Proof.
  intros P processed. unfold syncFile. fold P.
  rewrite run_bind, run_await.
  destruct (getFileContent _ _ _ _ _ _) as [content|]; [|done].
  intros Hrun. exists content. split; [done|].
  rewrite run_bind in Hrun.
  destruct (run (ensureFolderExists _) w) as [[[]|] w1]; [|done].
  destruct content as [text|bytes].
  - fold (processed text) in Hrun.
    rewrite run_bind, run_getAbstractFileByPath, run_bind in Hrun.
    destruct (lookupSegs (split P SLASH) (vault w1)) as [[n d|n ch]|] eqn:Hl.
    + rewrite run_bind, (run_vault_read _ _ _ _ Hl), run_ret in Hrun.
      assert (n = leafName P) as ->.
      { rewrite path_snoc in Hl.
        destruct (parentSegs P) as [|t q] eqn:Hq.
        - cbn [app lookupSegs] in Hl.
          destruct (findChild (leafName P) (vault w1)) as [x|] eqn:Hx; [|done].
          injection Hl as ->. by apply findChild_name in Hx as [Hn _].
        - apply lookupSegs_app in Hl as (n0 & ch & _ & Hleaf); [|done..].
          cbn [lookupSegs] in Hleaf.
          destruct (findChild (leafName P) ch) as [y|] eqn:Hy; [|done].
          injection Hleaf as ->. by apply findChild_name in Hy as [Hn _]. }
      case_bool_decide as Heq; cbn [negb] in Hrun.
      * injection Hrun as <-. by rewrite Hl, Heq.
      * by apply run_vault_write_Ok in Hrun.
    + rewrite run_ret in Hrun. by apply run_vault_write_Ok in Hrun.
    + rewrite run_ret in Hrun. by apply run_vault_add_Ok in Hrun as [? _].
  - rewrite run_bind, run_getAbstractFileByPath in Hrun.
    destruct (lookupSegs (split P SLASH) (vault w1)) as [x|].
    + by apply run_vault_write_Ok in Hrun.
    + by apply run_vault_add_Ok in Hrun as [? _].
Qed.

Lemma syncFile_leaves_witness :
  exists w',
    run (syncFile (fun s => s) (fun s => Ok s) ex_getBlob ex_dateNow ex_settings
           (lit "octo") (lit "notes") (lit "main")
           (ex_item "README.md" "sha-readme") (lit "Projects/octo/notes"))
      (ex_world (lit "stale")) = (Ok tt, w')
    /\ lookupSegs (split (lit "Projects/octo/notes/README.md") SLASH) (vault w')
       = Some (TFile (lit "README.md") ex_processed).
Proof.
  eexists. split; [vm_compute; reflexivity|].
  destruct (syncFile_leaves_the_content (fun s => s) (fun s => Ok s) ex_getBlob
              ex_dateNow ex_settings (lit "octo") (lit "notes") (lit "main")
              (ex_item "README.md" "sha-readme") (lit "Projects/octo/notes")
              (ex_world (lit "stale")) _ ltac:(vm_compute; reflexivity))
    as (content & Hc & Hl).
  vm_compute in Hc. injection Hc as <-.
  vm_compute in Hl. vm_compute. exact Hl.
Defined.

(** * What the cleanup pass leaves alone *)

Section Spare.
Variable settings : Settings.
Variables (o r : jsstring).
Implicit Types (id owner repo : jsstring) (w : World)
  (v : list TAbstractFile) (q a : list jsstring).

#[local] Abbreviation baseSegs := (split (baseFolder settings) SLASH).
#[local] Abbreviation ownerPath owner := (baseFolder settings ++ [SLASH] ++ owner).
#[local] Abbreviation repoPath owner repo :=
  (baseFolder settings ++ [SLASH] ++ owner ++ [SLASH] ++ repo).
#[local] Abbreviation same w' w :=
  (forall rest,
     lookupSegs (baseSegs ++ o :: r :: rest) (vault w')
     = lookupSegs (baseSegs ++ o :: r :: rest) (vault w)).

Lemma findChild_removeChild_other x l v :
  x <> l -> findChild x (removeChild l v) = findChild x v.
Proof.
  intros Hx. unfold findChild, removeChild.
  induction v as [|c v IH]; [done|]. cbn [List.filter find].
  destruct (decide (fileName c = l)) as [E|E].
  - rewrite (bool_decide_eq_true_2 _ E). cbn [negb].
    rewrite bool_decide_eq_false_2 by congruence. done.
  - rewrite (bool_decide_eq_false_2 _ E). cbn [negb find].
    by destruct (bool_decide (fileName c = x)).
Qed.

Lemma findChild_removeChild l v : findChild l (removeChild l v) = None.
Proof.
  unfold findChild, removeChild.
  induction v as [|c v IH]; [done|]. cbn [List.filter].
  destruct (decide (fileName c = l)) as [E|E].
  - by rewrite (bool_decide_eq_true_2 _ E).
  - rewrite (bool_decide_eq_false_2 _ E). cbn [negb find].
    by rewrite (bool_decide_eq_false_2 _ E).
Qed.

(** A deletion on another branch of the tree is not seen. *)
Lemma lookup_remove_diverge a : forall x y (r1 r2 : list jsstring) q l v,
  x <> y -> q ++ [l] = a ++ y :: r2 ->
  lookupSegs (a ++ x :: r1) (alterChildren q (removeChild l) v)
  = lookupSegs (a ++ x :: r1) v.
Proof.
  induction a as [|s a IH]; intros x y r1 r2 q l v Hxy Hq.
  - cbn [app lookupSegs] in *. destruct q as [|t q]; cbn [alterChildren].
    + injection Hq as -> _. by rewrite findChild_removeChild_other.
    + injection Hq as -> _.
      rewrite findChild_map by (intros [|n' ch']; [done|]; by case_bool_decide).
      destruct (findChild x v) as [[|n ch]|] eqn:Hc; cbn; [done| |done].
      apply findChild_name in Hc as [Hn _]. cbn in Hn. subst n.
      by rewrite bool_decide_eq_false_2.
  - destruct q as [|t q].
    { apply (f_equal length) in Hq. cbn in Hq. rewrite length_app in Hq.
      cbn in Hq. lia. }
    injection Hq as -> Hq. cbn [app lookupSegs alterChildren].
    rewrite findChild_map by (intros [|n' ch']; [done|]; by case_bool_decide).
    destruct (findChild s v) as [[|n ch]|] eqn:Hc; cbn; [done| |done].
    apply findChild_name in Hc as [Hn _]. cbn in Hn. subst n.
    rewrite bool_decide_eq_true_2 by done.
    destruct (a ++ x :: r1) eqn:E; [by destruct a|]. rewrite <- E.
    by eapply IH.
Qed.

(** Below a folder that was deleted there is nothing. *)
Lemma lookup_removed q : forall l (rest : list jsstring) v,
  lookupSegs (q ++ l :: rest) (alterChildren q (removeChild l) v) = None.
Proof.
  induction q as [|t q IH]; intros l rest v; cbn [app lookupSegs alterChildren].
  - by rewrite findChild_removeChild.
  - rewrite findChild_map by (intros [|n' ch']; [done|]; by case_bool_decide).
    destruct (findChild t v) as [[|n ch]|] eqn:Hc; cbn; [|  |done].
    + by destruct (q ++ l :: rest) eqn:E; [destruct q|].
    + apply findChild_name in Hc as [Hn _]. cbn in Hn. subst n.
      rewrite bool_decide_eq_true_2 by done.
      destruct (q ++ l :: rest) eqn:E; [by destruct q|]. rewrite <- E.
      apply IH.
Qed.

Lemma repo_step_spares owner repo w :
  noSlash owner -> noSlash repo -> (owner, repo) <> (o, r) ->
  exists w1,
    run (match lookupSegs (split (repoPath owner repo) SLASH) (vault w) with
         | Some (TFolder n ch) =>
             _ ← tryCatch (recursiveDeleteFolder (TFolder n ch)
                             (repoPath owner repo));
             mret tt
         | _ => mret tt
         end) w = (Ok tt, w1)
    /\ same w1 w.
Proof.
  intros Ho Hr Hne.
  assert (parentSegs (repoPath owner repo) = baseSegs ++ [owner]
          /\ leafName (repoPath owner repo) = repo) as [Hp Hleaf].
  { unfold parentSegs, leafName. rewrite split_repoPath by done.
    change [owner; repo] with ([owner] ++ [repo]). rewrite app_assoc.
    by rewrite removelast_last, last_last. }
  destruct (lookupSegs _ _) as [[|n ch]|]; [by exists w| |by exists w].
  eexists. split.
  { rewrite run_bind, run_tryCatch. unfold recursiveDeleteFolder.
    rewrite run_bind. cbn -[split app]. reflexivity. }
  cbn [vault]. rewrite Hp, Hleaf. intros rest.
  destruct (decide (owner = o)) as [->|Ho'].
  - assert (r <> repo) as Hr' by congruence.
    rewrite (cons_middle o), app_assoc.
    by apply (lookup_remove_diverge _ r repo rest []).
  - apply (lookup_remove_diverge _ o owner (r :: rest) [repo]); [done|].
    by rewrite <- app_assoc.
Qed.

Lemma owner_step_spares owner w :
  noSlash owner ->
  exists w',
    run (ownerFolder ← getAbstractFileByPath (ownerPath owner);
         match ownerFolder with
         | Some (TFolder _ []) =>
             _ ← tryCatch (vault_delete (ownerPath owner)); mret tt
         | _ => mret tt
         end) w = (Ok tt, w')
    /\ same w' w.
Proof.
  intros Ho.
  assert (parentSegs (ownerPath owner) = baseSegs
          /\ leafName (ownerPath owner) = owner) as [Hp Hleaf].
  { unfold parentSegs, leafName. rewrite split_ownerPath by done.
    by rewrite removelast_last, last_last. }
  rewrite run_bind, run_getAbstractFileByPath.
  pose proof (split_ownerPath settings owner Ho) as Hsplit.
  destruct (lookupSegs (split (ownerPath owner) SLASH) (vault w))
    as [[|n [|c ch]]|] eqn:Hl; [by exists w| |by exists w..].
  eexists. split.
  { rewrite run_bind, run_tryCatch. unfold vault_delete.
    rewrite run_bind. cbn -[split app]. rewrite Hl. cbn -[split app].
    reflexivity. }
  cbn [vault]. rewrite Hp, Hleaf. intros rest.
  destruct (decide (owner = o)) as [->|Ho'].
  - rewrite lookup_removed. rewrite Hsplit in Hl.
    rewrite (cons_middle o), app_assoc.
    by rewrite (lookup_below _ (r :: rest) _ n [] ltac:(done) Hl).
  - by apply (lookup_remove_diverge _ o owner (r :: rest) []).
Qed.

Lemma cleanupRepo_spares id w :
  (forall owner repo extra,
     split id SLASH = owner :: repo :: extra -> (owner, repo) <> (o, r)) ->
  exists w', run (cleanupRepo settings id) w = (Ok tt, w') /\ same w' w.
Proof.
  intros Hid. unfold cleanupRepo.
  pose proof (split_segments id SLASH) as Hseg.
  destruct (split id SLASH) as [|owner [|repo extra]]; [by exists w..|].
  apply Forall_cons in Hseg as [Ho Hseg]. apply Forall_cons in Hseg as [Hr _].
  destruct (negb (truthy owner) || negb (truthy repo)); [by exists w|].
  rewrite run_bind, run_getAbstractFileByPath, run_bind.
  destruct (repo_step_spares owner repo w Ho Hr (Hid _ _ _ eq_refl))
    as (w1 & -> & H1).
  destruct (owner_step_spares owner w1 Ho) as (w' & -> & H').
  exists w'. split; [done|]. intros rest. by rewrite H', H1.
Qed.

Lemma cleanup_loop_spares removed : forall w,
  (forall id, In id removed ->
     forall owner repo extra,
       split id SLASH = owner :: repo :: extra -> (owner, repo) <> (o, r)) ->
  exists w', run (cleanup_loop settings removed) w = (Ok tt, w') /\ same w' w.
Proof.
  induction removed as [|id rest IH]; intros w Hall; [by exists w|].
  cbn [cleanup_loop]. rewrite run_bind.
  destruct (cleanupRepo_spares id w) as (w1 & -> & H1).
  { apply Hall. by left. }
  destruct (IH w1) as (w' & -> & H').
  { intros id' Hid'. apply Hall. by right. }
  exists w'. split; [done|]. intros rest'. by rewrite H', H1.
Qed.

End Spare.

(** X25. The cleanup pass leaves the folders of the current
    repositories alone: on a well-formed vault, with previous
    identities of the form [owner/repo] (two segments), everything at or
    below [base/owner/repo] is after the pass what it was before it,
    for every [owner/repo] among the current identities. *)
Theorem cleanup_spares_current_repositories (settings : Settings)
    (currentRepoIds : list jsstring) (w : World) (o r : jsstring) :
  wfVault (vault w) ->
  Forall (fun id => length (split id SLASH) = 2) (lastSyncedRepos settings) ->
  (o ++ [SLASH] ++ r) ∈ currentRepoIds ->
  exists w',
    run (cleanupRemovedRepositories settings currentRepoIds) w = (Ok tt, w')
    /\ forall rest,
         lookupSegs (split (baseFolder settings) SLASH ++ o :: r :: rest)
           (vault w')
         = lookupSegs (split (baseFolder settings) SLASH ++ o :: r :: rest)
             (vault w).
Proof.
  intros Hwf Hprev Hcur. unfold cleanupRemovedRepositories.
  rewrite run_bind, run_scanExistingRepositories.
  destruct (length _ =? 0); [by exists w|].
  apply cleanup_loop_spares. intros id Hid owner repo extra Hsplit [= -> ->].
  assert ((id ∉ currentRepoIds) /\ length (split id SLASH) = 2) as [Hnot Hlen].
  { unfold removedRepoIds in Hid.
    assert (In id (List.filter
                     (fun repoId => negb (bool_decide (repoId ∈ currentRepoIds)))
                     (lastSyncedRepos settings))
            \/ In id (List.filter
                        (fun repoId => negb (bool_decide (repoId ∈ currentRepoIds)))
                        (scanAt (split (baseFolder settings) SLASH) (vault w))))
      as [Hin|Hin].
    { destruct (0 <? length _); [by apply in_app_or|by left]. }
    - apply List.filter_In in Hin as [Hin Hnc]. split.
      + apply negb_true_iff in Hnc. by apply bool_decide_eq_false_1 in Hnc.
      + rewrite Forall_forall in Hprev. by apply Hprev, list_elem_of_In.
    - apply List.filter_In in Hin as [Hin Hnc]. split.
      + apply negb_true_iff in Hnc. by apply bool_decide_eq_false_1 in Hnc.
      + destruct (In_scanAt_wf _ _ _ Hwf Hin)
          as (o' & r' & chs & -> & [_ Ho'] & [_ Hr'] & _).
        by rewrite split_id. }
  rewrite Hsplit in Hlen. destruct extra; [|done].
  apply Hnot. rewrite <- (join_split id SLASH), Hsplit. exact Hcur.
Qed.

Lemma cleanup_spares_witness :
  exists w',
    run (cleanupRemovedRepositories
           (withLastSyncedRepos ex_settings [lit "gone/legacy"; lit "octo/notes"])
           [lit "octo/notes"]) ex_world_stale = (Ok tt, w')
    /\ forall rest,
         lookupSegs
           (split (baseFolder (withLastSyncedRepos ex_settings
                                 [lit "gone/legacy"; lit "octo/notes"])) SLASH
            ++ lit "octo" :: lit "notes" :: rest) (vault w')
         = lookupSegs
             (split (baseFolder (withLastSyncedRepos ex_settings
                                   [lit "gone/legacy"; lit "octo/notes"])) SLASH
              ++ lit "octo" :: lit "notes" :: rest) (vault ex_world_stale).
Proof.
  apply (cleanup_spares_current_repositories
           (withLastSyncedRepos ex_settings [lit "gone/legacy"; lit "octo/notes"])
           [lit "octo/notes"] ex_world_stale (lit "octo") (lit "notes")).
  - unfold ex_world_stale. cbn [vault]. wf_names.
  - vm_compute. repeat constructor.
  - apply (bool_decide_unpack _). vm_compute. exact I.
Defined.

(** * The banner is written once *)

Section BannerOnce.
Implicit Types (content rest : jsstring) (m : FileMetadata).

Lemma insertBanner_once rest m m' :
  insertBanner (insertBanner rest m) m' = insertBanner rest m.
Proof. apply insertBanner_present, includes_insertBanner. Qed.

Lemma insertBanner_plain rest m :
  startsWith rest FM_OPEN = false ->
  startsWith (insertBanner rest m) FM_OPEN = false.
Proof.
  intros Hs. unfold insertBanner. by destruct (includes rest BANNER_MARKER).
Qed.

End BannerOnce.

(** X26. The banner is never refreshed: once [addReadonlyBanner] has
    been applied, applying it again with other metadata (another URL,
    say, after the branch has changed) leaves the content as it is. The
    metadata of the first application has no line feed. *)
Theorem addReadonlyBanner_never_refreshes (content : jsstring)
    (m m' : FileMetadata) :
  noLF (owner m) -> noLF (repo m) -> noLF (githubUrl m) ->
  addReadonlyBanner (addReadonlyBanner content m) m'
  = addReadonlyBanner content m.
Proof.
  intros Ho Hr Hu. destruct (headerEnd content) as [e|] eqn:He.
  - pose proof (headerEnd_Some _ _ He) as (_ & _ & Hle).
    rewrite (addReadonlyBanner_closed content m e He).
    rewrite (addReadonlyBanner_closed _ m' e) by by apply headerEnd_ext.
    rewrite take_take_app, drop_take_app by lia.
    by rewrite insertBanner_once.
  - unfold headerEnd in He.
    destruct (startsWith content FM_OPEN) eqn:Hs.
    + destruct (find_sub FM_CLOSE content) eqn:Hf; [done|].
      rewrite (addReadonlyBanner_open content m Hs Hf).
      pose proof (isPrefix_true _ _ Hs) as Hc.
      change (length FM_OPEN) with 4 in Hc.
      assert (take 4 content = FM_OPEN) as Ht.
      { rewrite Hc at 1. by rewrite (take_app_length' FM_OPEN). }
      rewrite Ht.
      rewrite addReadonlyBanner_open.
      * rewrite (take_app_length' FM_OPEN), (drop_app_length' FM_OPEN) by done.
        by rewrite insertBanner_once.
      * apply isPrefix_app.
      * unfold insertBanner. destruct (includes _ _).
        -- by rewrite <- Ht, take_drop.
        -- apply banner_keeps_unclosed; [done..|].
           by rewrite <- Ht, take_drop.
    + rewrite (addReadonlyBanner_plain content m Hs).
      rewrite addReadonlyBanner_plain by by apply insertBanner_plain.
      apply insertBanner_once.
Qed.

Lemma addReadonlyBanner_witness :
  addReadonlyBanner (addReadonlyBanner (lit "Body") ex_meta)
    {| owner := lit "octo"; repo := lit "notes"; branch := lit "next";
       path := lit "docs/guide.md";
       githubUrl :=
         buildFileUrl (lit "octo") (lit "notes") (lit "docs/guide.md")
           (lit "next") |}
  = addReadonlyBanner (lit "Body") ex_meta.
Proof.
  apply (addReadonlyBanner_never_refreshes (lit "Body") ex_meta); forall_lit.
Defined.

(** * Reading a blob *)

(** X27. [getMarkdownFileContent] and [getFileContent] read the same
    text: whatever the blob and the path, the first answers the text
    that the second answers, tagged as text or as bytes, and throws
    when the second throws. *)
Theorem getMarkdownFileContent_reads_the_same
    (toLowerCase : jsstring -> jsstring) (atob : jsstring -> Result jsstring)
    (getBlob : jsstring -> jsstring -> jsstring -> Result GitHubBlob)
    (owner repo : jsstring) (item : GitHubTreeItem) :
  getMarkdownFileContent atob getBlob owner repo item
  = match getFileContent toLowerCase atob getBlob owner repo item with
    | Ok (inl text) => Ok text
    | Ok (inr bytes) => Ok bytes
    | Throw => Throw
    end.
Proof.
  unfold getMarkdownFileContent, getFileContent.
  destruct (getBlob owner repo (item_sha item)) as [b|]; [|done].
  destruct (blob_encoding b); [|done].
  destruct (isMediaFile toLowerCase (item_path item));
    by destruct (atob (blob_content b)).
Qed.

(** * Deleting a folder with what it holds *)

Section Delete.
Implicit Types (w : World) (v children : list TAbstractFile)
  (segs q : list jsstring) (nm leaf : jsstring).

Lemma lookupSegs_alter_here f q : forall v n ch,
  lookupSegs q v = Some (TFolder n ch) ->
  lookupSegs q (alterChildren q f v) = Some (TFolder n (f ch)).
Proof.
  induction q as [|s q IH]; intros v n ch; [done|].
  cbn [lookupSegs alterChildren].
  rewrite findChild_map by (intros [|n' ch']; [done|]; by case_bool_decide).
  destruct (findChild s v) as [node|] eqn:Hc; [|done].
  apply findChild_name in Hc as [Hn _]. cbn [fmap option_fmap option_map].
  destruct q as [|s' q].
  - intros [= ->]. cbn in Hn. subst n.
    by rewrite bool_decide_eq_true_2 by done.
  - destruct node as [|n' ch']; [done|]. cbn in Hn. subst n'.
    rewrite bool_decide_eq_true_2 by done. intros H.
    by apply (IH ch' n ch).
Qed.

(** Removing a folder makes what was done below it of no account. *)
Lemma remove_after_alter_below g q : forall l v,
  alterChildren q (removeChild l) (alterChildren (q ++ [l]) g v)
  = alterChildren q (removeChild l) v.
Proof.
  induction q as [|t q IH]; intros l v; cbn [app alterChildren].
  - unfold removeChild. induction v as [|c v IHv]; [done|].
    cbn [List.map List.filter]. rewrite IHv. f_equal.
    destruct c as [n d|n ch]; [done|].
    destruct (decide (n = l)) as [E|E].
    + rewrite (bool_decide_eq_true_2 _ E). cbn [fileName].
      by rewrite (bool_decide_eq_true_2 _ E).
    + by rewrite (bool_decide_eq_false_2 _ E).
  - rewrite List.map_map. apply List.map_ext. intros [n d|n ch]; [done|].
    case_bool_decide as E; [|by rewrite bool_decide_eq_false_2 by done].
    rewrite bool_decide_eq_true_2 by done. by rewrite IH.
Qed.

Lemma removeChild_head c v :
  NoDup (List.map fileName (c :: v)) -> removeChild (fileName c) (c :: v) = v.
Proof.
  cbn [List.map]. intros [Hc _]%NoDup_cons. unfold removeChild.
  cbn [List.filter]. rewrite bool_decide_eq_true_2 by done. cbn [negb].
  induction v as [|x v IH]; [done|]. cbn [List.map] in Hc.
  apply not_elem_of_cons in Hc as [Hx Hc]. cbn [List.filter].
  rewrite bool_decide_eq_false_2 by done. cbn [negb]. by rewrite IH.
Qed.

Lemma child_path folderPath nm :
  noSlash nm ->
  split (folderPath ++ [SLASH] ++ nm) SLASH = split folderPath SLASH ++ [nm]
  /\ parentSegs (folderPath ++ [SLASH] ++ nm) = split folderPath SLASH
  /\ leafName (folderPath ++ [SLASH] ++ nm) = nm.
Proof.
  intros Hn.
  assert (split (folderPath ++ [SLASH] ++ nm) SLASH
          = split folderPath SLASH ++ [nm]) as E.
  { change (folderPath ++ [SLASH] ++ nm) with (folderPath ++ SLASH :: nm).
    by rewrite split_app_sep, (split_plain nm). }
  split; [done|]. unfold parentSegs, leafName. rewrite E.
  by rewrite removelast_last, last_last.
Qed.

Lemma run_vault_delete_present p node w :
  lookupSegs (split p SLASH) (vault w) = Some node ->
  run (vault_delete p) w
  = (Ok tt, {| vault := alterChildren (parentSegs p) (removeChild (leafName p))
                          (vault w);
               oplog := oplog w ++ [OpDelete p] |}).
Proof. intros H. unfold vault_delete. rewrite run_bind. cbn. by rewrite H. Qed.

Lemma forEach_cons {A} (body : A -> M unit) a l :
  forEach body (a :: l) = (body a;; forEach body l).
Proof. reflexivity. Qed.

Lemma deleteChildren_run folderPath n : forall children w,
  Forall deletes_at_once children ->
  wfVault children ->
  lookupSegs (split folderPath SLASH) (vault w) = Some (TFolder n children) ->
  exists v',
    run (forEach (fun child =>
           match child with
           | TFile n' _ => vault_delete (folderPath ++ [SLASH] ++ n')
           | TFolder n' _ =>
               recursiveDeleteFolder_calls child (folderPath ++ [SLASH] ++ n')
           end) children) w
    = (Ok tt,
       {| vault := v';
          oplog := oplog w
            ++ List.flat_map (fun child =>
                 match child with
                 | TFile n' _ => [OpDelete (folderPath ++ [SLASH] ++ n')]
                 | TFolder n' _ =>
                     recursiveDeleteFolder_ops child
                       (folderPath ++ [SLASH] ++ n')
                 end) children |})
    /\ lookupSegs (split folderPath SLASH) v' = Some (TFolder n [])
    /\ alterChildren (parentSegs folderPath) (removeChild (leafName folderPath)) v'
       = alterChildren (parentSegs folderPath)
           (removeChild (leafName folderPath)) (vault w).
Proof.
  induction children as [|c children IH]; intros w Hall [Hnd Hwf] Hl.
  - exists (vault w). cbn [forEach List.flat_map]. rewrite app_nil_r.
    split; [by destruct w|]. done.
  - apply Forall_cons in Hall as [Hc Hall]. apply Forall_cons in Hwf as [Hwc Hwf].
    assert (noSlash (fileName c)) as Hns by (destruct c; apply Hwc).
    destruct (child_path folderPath (fileName c) Hns) as (Hsp & Hpar & Hleaf).
    assert (lookupSegs (split (folderPath ++ [SLASH] ++ fileName c) SLASH)
              (vault w) = Some c) as Hlc.
    { rewrite Hsp, (lookup_below _ [fileName c] _ _ _ ltac:(done) Hl).
      cbn [lookupSegs]. unfold findChild. cbn [find].
      by rewrite bool_decide_eq_true_2 by done. }
    set (w1 := {| vault := alterChildren (split folderPath SLASH)
                             (removeChild (fileName c)) (vault w);
                  oplog := oplog w
                    ++ match c with
                       | TFile n' _ => [OpDelete (folderPath ++ [SLASH] ++ n')]
                       | TFolder n' _ =>
                           recursiveDeleteFolder_ops c
                             (folderPath ++ [SLASH] ++ n')
                       end |}).
    assert (run (match c with
                 | TFile n' _ => vault_delete (folderPath ++ [SLASH] ++ n')
                 | TFolder n' _ =>
                     recursiveDeleteFolder_calls c (folderPath ++ [SLASH] ++ n')
                 end) w = (Ok tt, w1)) as Hstep.
    { destruct c as [n' d|n' ch]; cbn [fileName] in *.
      - rewrite (run_vault_delete_present _ _ _ Hlc). by rewrite Hpar, Hleaf.
      - rewrite (Hc _ _ Hwc Hlc). by rewrite Hpar, Hleaf. }
    destruct (IH w1 Hall) as (v' & Hrun & Hl' & Hv').
    { split; [|done]. cbn [List.map] in Hnd. by apply NoDup_cons in Hnd as []. }
    { cbn [vault w1]. rewrite (lookupSegs_alter_here _ _ _ _ _ Hl).
      by rewrite removeChild_head. }
    exists v'. split; [|split; [done|]].
    + rewrite forEach_cons, run_bind, Hstep, Hrun. cbn [oplog w1 List.flat_map].
      by rewrite <- app_assoc.
    + rewrite Hv'. cbn [vault w1]. rewrite (path_snoc folderPath).
      apply remove_after_alter_below.
Qed.

Lemma recursiveDeleteFolder_calls_at_once folder : deletes_at_once folder.
Proof.
  induction folder as [n data|n children IH] using TAbstractFile_ind';
    intros folderPath w Hwf Hl; [done|].
  apply wfTree_children in Hwf as [_ Hwf].
  destruct (deleteChildren_run folderPath n children w IH Hwf Hl)
    as (v' & Hrun & Hl' & Hv').
  cbn [recursiveDeleteFolder_calls recursiveDeleteFolder_ops].
  rewrite run_bind, Hrun.
  rewrite (run_vault_delete_present folderPath (TFolder n [])
             {| vault := v'; oplog := _ |} Hl').
  cbn [vault oplog]. by rewrite Hv', <- app_assoc.
Qed.

Lemma recursiveDeleteFolder_ops_deletes folder : forall folderPath,
  Forall (fun op => exists p, op = OpDelete p)
    (recursiveDeleteFolder_ops folder folderPath).
Proof.
  induction folder as [n data|n children IH] using TAbstractFile_ind';
    intros folderPath; cbn [recursiveDeleteFolder_ops]; [constructor|].
  apply Forall_app. split; [|by repeat econstructor].
  apply Forall_forall. intros op Hop.
  apply list_elem_of_In, in_flat_map in Hop as (c & Hc & Hop).
  rewrite Forall_forall in IH.
  specialize (IH c (proj2 (list_elem_of_In _ _) Hc)).
  destruct c as [n' d|n' ch].
  - destruct Hop as [<-|[]]. by eexists.
  - specialize (IH (folderPath ++ [SLASH] ++ n')).
    rewrite Forall_forall in IH. by apply IH, list_elem_of_In.
Qed.

End Delete.

(** X28. Deleting a folder call by call. On a well-formed folder that is
    in the vault at its path, the calls of [recursiveDeleteFolder] (each
    child file deleted, each child folder deleted by the function itself,
    then the folder) all succeed, and they come to one removal of the
    folder from its parent: the deletions issued are those of everything
    in the folder, depth first, and last that of the folder itself;
    afterwards nothing is at the path of the folder or below it, and what
    is at a path that leaves the path of the folder is as it was. *)
Theorem recursiveDeleteFolder_removes_the_folder (n : jsstring)
    (children : list TAbstractFile) (folderPath : jsstring) (w : World) :
  wfTree (TFolder n children) ->
  lookupSegs (split folderPath SLASH) (vault w) = Some (TFolder n children) ->
  exists (ops : list VaultOp) (w' : World),
    run (recursiveDeleteFolder_calls (TFolder n children) folderPath) w
    = (Ok tt, w')
    /\ run (recursiveDeleteFolder (TFolder n children) folderPath) w
       = (Ok tt, w')
    /\ oplog w' = oplog w ++ ops ++ [OpDelete folderPath]
    /\ Forall (fun op => exists p, op = OpDelete p) ops
    /\ (forall rest,
          lookupSegs (split folderPath SLASH ++ rest) (vault w') = None)
    /\ (forall a x y r1 r2,
          x <> y -> split folderPath SLASH = a ++ y :: r2 ->
          lookupSegs (a ++ x :: r1) (vault w') = lookupSegs (a ++ x :: r1) (vault w)).
Proof.
  intros Hwf Hl. eexists _, _. split; [|split; [|split; [|split; [|split]]]].
  - exact (recursiveDeleteFolder_calls_at_once (TFolder n children) folderPath w
             Hwf Hl).
  - unfold recursiveDeleteFolder. rewrite run_bind. reflexivity.
  - cbn [oplog recursiveDeleteFolder_ops]. reflexivity.
  - apply Forall_forall. intros op Hop.
    apply list_elem_of_In, in_flat_map in Hop as (c & Hc & Hop).
    destruct c as [n' d|n' ch].
    + destruct Hop as [<-|[]]. by eexists.
    + pose proof (recursiveDeleteFolder_ops_deletes (TFolder n' ch)
                    (folderPath ++ [SLASH] ++ n')) as H.
      rewrite Forall_forall in H. by apply H, list_elem_of_In.
  - intros rest. cbn [vault]. rewrite path_snoc, <- app_assoc. cbn [app].
    apply lookup_removed.
  - intros a x y r1 r2 Hxy Hp. cbn [vault].
    apply (lookup_remove_diverge a x y r1 r2); [done|].
    by rewrite <- path_snoc.
Qed.

Lemma recursiveDeleteFolder_witness :
  exists (ops : list VaultOp) (w' : World),
    run (recursiveDeleteFolder_calls
           (TFolder (lit "gone")
              [TFolder (lit "legacy") [TFile (lit "README.md") (lit "old")]])
           (lit "Projects/gone")) ex_world_stale
    = (Ok tt, w')
    /\ run (recursiveDeleteFolder
              (TFolder (lit "gone")
                 [TFolder (lit "legacy") [TFile (lit "README.md") (lit "old")]])
              (lit "Projects/gone")) ex_world_stale
       = (Ok tt, w')
    /\ oplog w' = oplog ex_world_stale ++ ops ++ [OpDelete (lit "Projects/gone")]
    /\ Forall (fun op => exists p, op = OpDelete p) ops
    /\ (forall rest,
          lookupSegs (split (lit "Projects/gone") SLASH ++ rest) (vault w')
          = None)
    /\ (forall a x y r1 r2,
          x <> y -> split (lit "Projects/gone") SLASH = a ++ y :: r2 ->
          lookupSegs (a ++ x :: r1) (vault w')
          = lookupSegs (a ++ x :: r1) (vault ex_world_stale)).
Proof.
  apply (recursiveDeleteFolder_removes_the_folder (lit "gone")
           [TFolder (lit "legacy") [TFile (lit "README.md") (lit "old")]]
           (lit "Projects/gone") ex_world_stale).
  - wf_names.
  - vm_compute. reflexivity.
Defined.
